(** * The channel codec of [src/sprotocol.c]

    A shallow embedding of the buffered channel (input and output staging
    buffers, growable scratch buffer), of the primitive codec (32-bit words,
    NUL-terminated strings, blobs), of the handshake and of the query decoder
    and answer encoder, followed by the properties of the specification.

    Conventions.
    - A C [int] is a [Z]; where the code can leave the range of [int] the
      two's-complement wrap-around is written out with [wrap_int].  A
      [uint32_t] is a [Z] reduced with [u32].
    - A [char] is a [Byte.byte]; memory blocks are [list byte].
    - Words cross the wire in the byte order of the host ([memcpy] of the
      object representation); the host is little-endian.
    - Every function returns an [outcome]: it returns a value, aborts the
      process ([abort], [pabort], [mabort]), leaves defined behaviour
      (an access outside a block), or is still running when the fuel given
      to its loops is used up.
    - The file descriptor is a [stream]: the bytes the peer sends before it
      closes its end, the bytes delivered to the peer so far, and a schedule
      that decides how each [read] and [write] system call turns out
      (interrupted, failed, short). *)

From Stdlib Require Import ZArith List Lia Bool.
From Stdlib.Strings Require Import Byte.
From Stdlib.Strings Require String.
Import String.StringSyntax.
Import ListNotations.
Local Open Scope Z_scope.

(** ** Machine integers and bytes *)

Definition byte := Byte.byte.

Definition byte_to_Z (b : byte) : Z := Z.of_N (Byte.to_N b).

Definition byte_of_Z (z : Z) : byte :=
  match Byte.of_N (Z.to_N (z mod 256)) with
  | Some b => b
  | None => x00
  end.

(** Conversion to [uint32_t]. *)
Definition u32 (z : Z) : Z := z mod 2 ^ 32.

Definition INT_MAX : Z := 2 ^ 31 - 1.

(** Conversion to [int] (two's complement). *)
Definition wrap_int (z : Z) : Z := (z + 2 ^ 31) mod 2 ^ 32 - 2 ^ 31.

(** [#define PACK(a,b,c,d) ((d << 24) | (c << 16) | (b << 8) | a)] *)
Definition PACK (a b c d : Z) : Z :=
  Z.lor (Z.lor (Z.lor (Z.shiftl d 24) (Z.shiftl c 16)) (Z.shiftl b 8)) a.

(** [#define BUF_SIZE 4096] *)
Definition BUF_SIZE : Z := 4096.

(** The object representation of a [uint32_t]: what [memcpy(dst, &u, 4)]
    copies. *)
Definition bytes_of_u32 (u : Z) : list byte :=
  [ byte_of_Z u; byte_of_Z (Z.shiftr u 8);
    byte_of_Z (Z.shiftr u 16); byte_of_Z (Z.shiftr u 24) ].

(** The [uint32_t] whose object representation is [bs]: what
    [memcpy(&u, src, 4)] leaves in [u]. *)
Definition u32_of_bytes (bs : list byte) : Z :=
  match bs with
  | [b0; b1; b2; b3] =>
      byte_to_Z b0 + 2 ^ 8 * byte_to_Z b1 + 2 ^ 16 * byte_to_Z b2
      + 2 ^ 24 * byte_to_Z b3
  | _ => 0
  end.

(** ** Memory blocks *)

(** [n] bytes of [l] from offset [off]. *)
Definition sub (l : list byte) (off n : Z) : list byte :=
  firstn (Z.to_nat n) (skipn (Z.to_nat off) l).

(** [dst] with [src] stored from offset [off]. *)
Definition blit (dst : list byte) (off : Z) (src : list byte) : list byte :=
  firstn (Z.to_nat off) dst ++ src
  ++ skipn (Z.to_nat off + length src) dst.

Definition len (l : list byte) : Z := Z.of_nat (length l).

Arguments sub : simpl never.
Arguments blit : simpl never.

(** ** Outcomes *)

Inductive outcome (A : Type) : Type :=
| Ret (a : A)   (* the call returns *)
| Abort         (* abort(), pabort(), mabort() *)
| Fault         (* access outside a memory block *)
| Spin.         (* fuel used up: the loop has not finished *)

Arguments Ret {A} a.
Arguments Abort {A}.
Arguments Fault {A}.
Arguments Spin {A}.

Definition bind {A B : Type} (m : outcome A) (k : A -> outcome B)
  : outcome B :=
  match m with
  | Ret a => k a
  | Abort => Abort
  | Fault => Fault
  | Spin => Spin
  end.

Notation "x <- m ;; k" := (bind m (fun x => k))
  (at level 61, m at next level, right associativity).
Notation "' p <- m ;; k" := (bind m (fun p => k))
  (at level 61, p pattern, m at next level, right associativity).

(** [memcpy(dst + off, src, length src)], checked against the bounds of
    [dst]. *)
Definition memcpy (dst : list byte) (off : Z) (src : list byte)
  : outcome (list byte) :=
  if (0 <=? off) && (off + len src <=? len dst)
  then Ret (blit dst off src)
  else Fault.

(** ** The stream behind the file descriptor *)

Inductive errno := EINTR | EIO.

(** How one [read] call turns out. *)
Inductive rev :=
| Rintr              (* -1, errno = EINTR *)
| Rfail              (* -1, another errno *)
| Rshort (k : nat).  (* at most k + 1 bytes are handed over *)

(** How one [write] call turns out. *)
Inductive wev :=
| Wintr              (* -1, errno = EINTR *)
| Wfail              (* -1, another errno *)
| Wshort (k : nat).  (* at most k bytes are taken *)

Record stream := mkStream {
  incoming : list byte;   (* sent by the peer, not yet read; then end of file *)
  rsched : list rev;      (* outcomes of the next read calls *)
  wsched : list wev;      (* outcomes of the next write calls *)
  delivered : list byte   (* written to the peer so far *)
}.

Inductive sysret (A : Type) := Err (e : errno) | Ok (a : A).
Arguments Err {A} e.
Arguments Ok {A} a.

Definition take_read (s : stream) (n : nat) (r : list rev)
  : sysret (list byte) * stream :=
  (Ok (firstn n (incoming s)),
   mkStream (skipn n (incoming s)) r (wsched s) (delivered s)).

(** [read(fd, buf, size)]: the bytes stored at [buf], or -1 and [errno].
    Once the schedule is used up a call returns all it can; it returns no
    byte only when [size] is 0 or the peer has closed. *)
Definition read (s : stream) (size : Z) : sysret (list byte) * stream :=
  match rsched s with
  | Rintr :: r =>
      (Err EINTR, mkStream (incoming s) r (wsched s) (delivered s))
  | Rfail :: r =>
      (Err EIO, mkStream (incoming s) r (wsched s) (delivered s))
  | Rshort k :: r => take_read s (Nat.min (S k) (Z.to_nat size)) r
  | [] => take_read s (Z.to_nat size) []
  end.

Definition take_write (s : stream) (data : list byte) (w : list wev)
  : sysret Z * stream :=
  (Ok (len data),
   mkStream (incoming s) (rsched s) w (delivered s ++ data)).

(** [write(fd, buf, size)] where [buf] holds [data]: the number of bytes
    taken, or -1 and [errno]. *)
Definition write (s : stream) (data : list byte) (size : Z)
  : sysret Z * stream :=
  match wsched s with
  | Wintr :: w =>
      (Err EINTR, mkStream (incoming s) (rsched s) w (delivered s))
  | Wfail :: w =>
      (Err EIO, mkStream (incoming s) (rsched s) w (delivered s))
  | Wshort k :: w =>
      take_write s (firstn (Nat.min k (Z.to_nat size)) data) w
  | [] => take_write s (firstn (Z.to_nat size) data) []
  end.

(** ** Loops over the system calls *)

(** [buffered_read_at_least(fd, buf, atleast, size)]; the bytes stored from
    [buf] on are returned, their number is the C return value. *)
Fixpoint buffered_read_loop (fuel : nat) (fd : stream) (got : list byte)
    (atleast size : Z) : outcome (list byte * stream) :=
  match fuel with
  | O => Spin
  | S fuel' =>
      match read fd size with
      | (Err EINTR, fd') => buffered_read_loop fuel' fd' got atleast size
      | (Err _, _) => Abort
      | (Ok data, fd') =>
          let n := len data in
          let got' := got ++ data in
          let size' := size - n in
          if len got' >=? atleast
          then Ret (got', fd')
          else buffered_read_loop fuel' fd' got' atleast size'
      end
  end.

Definition buffered_read_at_least (fuel : nat) (fd : stream)
    (atleast size : Z) : outcome (list byte * stream) :=
  if size <? atleast then Abort
  else buffered_read_loop fuel fd [] atleast size.

(** [read_all(fd, buf, size)]; the bytes stored from [buf] on are
    returned. *)
Fixpoint read_all_loop (fuel : nat) (fd : stream) (got : list byte)
    (size : Z) : outcome (list byte * stream) :=
  if size >? 0 then
    match fuel with
    | O => Spin
    | S fuel' =>
        match read fd size with
        | (Err EINTR, fd') => read_all_loop fuel' fd' got size
        | (Err _, _) => Abort
        | (Ok data, fd') =>
            let n := len data in
            if n =? 0 then Abort
            else read_all_loop fuel' fd' (got ++ data) (size - n)
        end
    end
  else Ret (got, fd).

Definition read_all (fuel : nat) (fd : stream) (size : Z)
  : outcome (list byte * stream) :=
  read_all_loop fuel fd [] size.

(** [write_all(fd, buf, size)] where [buf] holds [data]. *)
Fixpoint write_all (fuel : nat) (fd : stream) (data : list byte) (size : Z)
  : outcome stream :=
  if size >? 0 then
    match fuel with
    | O => Spin
    | S fuel' =>
        match write fd data size with
        | (Err EINTR, fd') => write_all fuel' fd' data size
        | (Err _, _) => Abort
        | (Ok n, fd') =>
            if n =? 0 then Abort
            else write_all fuel' fd' (skipn (Z.to_nat n) data) (size - n)
        end
    end
  else Ret fd.

(** ** What the sources leave to their environment

    [sprotocol.h] is not among the sources: the message tags and [ACCS_OK]
    are taken as they come (any integers).  The content of memory obtained
    from [malloc] is not specified either: every such byte is [uninit]. *)

Class environment := {
  Q_OPEN : Z; Q_READ : Z; Q_WRIT : Z; Q_CLOS : Z; Q_SIZE : Z; Q_SEEN : Z;
  Q_CHLD : Z; Q_BACK : Z; Q_ACCS : Z; Q_STAT : Z; Q_GPIC : Z; Q_SPIC : Z;
  A_DONE : Z; A_PASS : Z; A_SIZE : Z; A_READ : Z; A_FORK : Z; A_ACCS : Z;
  A_STAT : Z; A_OPEN : Z; A_GPIC : Z;
  C_TERM : Z; C_FLSH : Z;
  ACCS_OK : Z;
  uninit : byte
}.

(** ** Messages *)

(** A [char *] into a scratch block: the block and the offset in it. *)
Record ptr := mkPtr { blk : nat; off : Z }.

(** The union of [query_t], by the member the decoder fills.  Integer
    members hold the 32-bit pattern read from the wire, [float] members
    their object representation. *)
Inductive query_union :=
| U_open (fid : Z) (path mode : ptr)
| U_read (fid pos size : Z)
| U_writ (fid pos size : Z) (wbuf : ptr)
| U_clos (fid : Z)
| U_size (fid : Z)
| U_seen (fid pos : Z)
| U_chld (pid : Z)
| U_back (pid cid exitcode : Z)
| U_accs (path : ptr) (flags : Z)
| U_stat (path : ptr)
| U_gpic (path : ptr) (type page : Z)
| U_spic (path : ptr) (type page : Z) (b0 b1 b2 b3 : Z).

Record query_t := mkQuery { q_time : Z; q_tag : Z; q_u : query_union }.

Record stat_time := mkTime { sec : Z; nsec : Z }.

(** [struct stat_answer]: the members [a->stat.stat.dev] ... [mtime]. *)
Record stat_answer := mkStat {
  st_dev : Z; st_ino : Z; st_mode : Z; st_nlink : Z; st_uid : Z;
  st_gid : Z; st_rdev : Z; st_size : Z; st_blksize : Z; st_blocks : Z;
  st_atime : stat_time; st_ctime : stat_time; st_mtime : stat_time
}.

(** [answer_t], by the members the encoder names: [a->read.size],
    [a->accs.flag], [a->stat.flag], [a->stat.stat], [a->size.size],
    [a->open.size], [a->gpic.bounds].  The declaration, which says where
    each member lies, is in [sprotocol.h]; nothing is assumed here on whether
    two members share storage. *)
Record answer_t := mkAnswer {
  a_tag : Z;
  read_size : Z;
  accs_flag : Z;
  stat_flag : Z;
  stat_stat : stat_answer;
  size_size : Z;
  open_size : Z;
  gpic_bounds : list Z
}.

Record ask_t := mkAsk { k_tag : Z; term_pid : Z }.

(** ** The channel *)

Record channel := mkChannel {
  fd : stream;
  input_buffer : list byte;
  input_pos : Z;
  input_len : Z;
  output_buffer : list byte;
  output_pos : Z;
  buf : list byte;     (* the block t->buf points to *)
  buf_size : Z;
  buf_blk : nat        (* which block that is: a new one at each malloc *)
}.

Definition set_fd (c : channel) (s : stream) : channel :=
  mkChannel s (input_buffer c) (input_pos c) (input_len c)
    (output_buffer c) (output_pos c) (buf c) (buf_size c) (buf_blk c).

Definition set_input (c : channel) (b : list byte) (p l : Z) : channel :=
  mkChannel (fd c) b p l
    (output_buffer c) (output_pos c) (buf c) (buf_size c) (buf_blk c).

Definition set_input_pos (c : channel) (p : Z) : channel :=
  set_input c (input_buffer c) p (input_len c).

Definition set_output (c : channel) (b : list byte) (p : Z) : channel :=
  mkChannel (fd c) (input_buffer c) (input_pos c) (input_len c)
    b p (buf c) (buf_size c) (buf_blk c).

Definition set_buf (c : channel) (b : list byte) : channel :=
  mkChannel (fd c) (input_buffer c) (input_pos c) (input_len c)
    (output_buffer c) (output_pos c) b (buf_size c) (buf_blk c).

Section Channel.

Context {env : environment}.

(** [cflush] *)
Definition cflush (fuel : nat) (c : channel) : outcome channel :=
  let pos := output_pos c in
  if pos =? 0 then Ret c
  else
    fd' <- write_all fuel (fd c) (output_buffer c) pos;;
    Ret (set_output (set_fd c fd') (output_buffer c) 0).

(** [crefill] *)
Definition crefill (fuel : nat) (c : channel) (at_least : Z)
  : outcome channel :=
  let avail := input_len c - input_pos c in
  (* memmove(buffer, buffer + pos, avail) *)
  b <- memcpy (input_buffer c) 0
         (sub (input_buffer c) (input_pos c) avail);;
  '(data, fd') <- buffered_read_at_least fuel (fd c) at_least
                    (BUF_SIZE - avail);;
  (* the bytes read lie from buffer + avail on *)
  b' <- memcpy b avail data;;
  Ret (set_input (set_fd c fd') b' 0 (avail + len data)).

(** ** Handshake *)

(** The literals, with the terminator the compiler appends. *)
Definition HND_SERVER : list byte :=
  String.list_byte_of_string "TEXPRESSOS01" ++ [x00].
Definition HND_CLIENT : list byte :=
  String.list_byte_of_string "TEXPRESSOC01" ++ [x00].

(** Modelled from the spec: the macro [LEN] of [sprotocol.h] is missing;
    the handshake literals count 12 bytes on the wire, so [LEN] is the length
    of the literal without its terminator. *)
Definition LEN (lit : list byte) : Z := len lit - 1.

(** [strncmp] on the blocks holding the two strings: the difference of the
    first bytes that differ, 0 when the first [n] bytes agree or the strings
    end together before. *)
Fixpoint strncmp (s1 s2 : list byte) (n : nat) {struct n} : Z :=
  match n with
  | O => 0
  | S n' =>
      match s1, s2 with
      | c1 :: r1, c2 :: r2 =>
          if Byte.eqb c1 c2
          then if Byte.eqb c1 x00 then 0 else strncmp r1 r2 n'
          else byte_to_Z c1 - byte_to_Z c2
      | _, _ => 0
      end
  end.

(** [channel_handshake] *)
Definition channel_handshake (fuel : nat) (c : channel)
  : outcome (bool * channel) :=
  fd1 <- write_all fuel (fd c) HND_SERVER (LEN HND_SERVER);;
  '(answer, fd2) <- read_all fuel fd1 (LEN HND_CLIENT);;
  Ret (strncmp HND_CLIENT answer (Z.to_nat (LEN HND_CLIENT)) =? 0,
       set_fd c fd2).

(** ** Construction and scratch buffer *)

(** [channel_new]; both allocations succeed. *)
Definition channel_new (s : stream) : channel :=
  mkChannel s (repeat x00 (Z.to_nat BUF_SIZE)) 0 0
    (repeat x00 (Z.to_nat BUF_SIZE)) 0 (repeat uninit 256) 256 O.

(** [resize_buf].  [old_size * 2] is an [int]; past [INT_MAX] it wraps to a
    negative number, which [malloc] receives as a size no allocation can
    satisfy: [mabort].  Any other allocation succeeds. *)
Definition resize_buf (t : channel) : outcome channel :=
  let old_size := buf_size t in
  let new_size := wrap_int (old_size * 2) in
  if new_size <? 0 then Abort
  else
    b <- memcpy (repeat uninit (Z.to_nat new_size)) 0
           (sub (buf t) 0 old_size);;
    Ret (mkChannel (fd t) (input_buffer t) (input_pos t) (input_len t)
           (output_buffer t) (output_pos t) b new_size (S (buf_blk t))).

(** [cgetc]; the [int] returned is the byte read. *)
Definition cgetc (fuel : nat) (t : channel) : outcome (byte * channel) :=
  t1 <- (if input_pos t =? input_len t then crefill fuel t 1 else Ret t);;
  Ret (nth (Z.to_nat (input_pos t1)) (input_buffer t1) x00,
       set_input_pos t1 (input_pos t1 + 1)).

(** The loop of [read_zstr]: the cursor [*pos] and the channel after it. *)
Fixpoint read_zstr_loop (fuel : nat) (t : channel) (pos : Z)
  : outcome (Z * channel) :=
  match fuel with
  | O => Spin
  | S fuel' =>
      t1 <- (if pos =? buf_size t then resize_buf t else Ret t);;
      '(c, t2) <- cgetc fuel' t1;;
      b <- memcpy (buf t2) pos [c];;
      let t3 := set_buf t2 b in
      let pos' := pos + 1 in
      if negb (Byte.eqb c x00) then read_zstr_loop fuel' t3 pos'
      else Ret (pos', t3)
  end.

(** [read_zstr]: the value returned, the cursor [*pos] and the channel. *)
Definition read_zstr (fuel : nat) (t : channel) (pos : Z)
  : outcome (Z * Z * channel) :=
  let p0 := pos in
  '(pos', t') <- read_zstr_loop fuel t pos;;
  Ret (p0, pos', t').

(** The loop [while (t->buf_size < pos + size) resize_buf(t)]. *)
Fixpoint grow_buf (fuel : nat) (t : channel) (need : Z) : outcome channel :=
  if buf_size t <? need then
    match fuel with
    | O => Spin
    | S fuel' => t' <- resize_buf t;; grow_buf fuel' t' need
    end
  else Ret t.

(** [read_bytes].  A negative [size] reaches [memcpy] as a length beyond any
    block. *)
Definition read_bytes (fuel : nat) (t : channel) (pos size : Z)
  : outcome channel :=
  t <- grow_buf fuel t (wrap_int (pos + size));;
  let ipos := input_pos t in
  let ilen := input_len t in
  if wrap_int (ipos + size) <=? ilen then
    if size <? 0 then Fault
    else
      b <- memcpy (buf t) pos (sub (input_buffer t) ipos size);;
      Ret (set_input_pos (set_buf t b) (input_pos t + size))
  else
    let isize := ilen - ipos in
    b <- memcpy (buf t) pos (sub (input_buffer t) ipos isize);;
    let pos := pos + isize in
    let size := size - isize in
    let t := set_input (set_buf t b) (input_buffer t) 0 0 in
    '(data, fd') <- read_all fuel (fd t) size;;
    b' <- memcpy (buf t) pos data;;
    Ret (set_buf (set_fd t fd') b').

(** [memcpy(dst + off, src, size)] for a [size] that is not known to fit
    [src]. *)
Definition memcpy_n (dst : list byte) (off : Z) (src : list byte) (size : Z)
  : outcome (list byte) :=
  if (size <? 0) || (len src <? size) then Fault
  else memcpy dst off (sub src 0 size).

(** [write_bytes(t, buf, size)] where [mem] is the block [buf] points to. *)
Definition write_bytes (fuel : nat) (t : channel) (mem : list byte)
    (size : Z) : outcome channel :=
  if wrap_int (output_pos t + size) <=? BUF_SIZE then
    b <- memcpy_n (output_buffer t) (output_pos t) mem size;;
    Ret (set_output t b (output_pos t + size))
  else
    t <- cflush fuel t;;
    if size >? BUF_SIZE then
      if len mem <? size then Fault
      else
        fd' <- write_all fuel (fd t) mem size;;
        Ret (set_fd t fd')
    else
      b <- memcpy_n (output_buffer t) 0 mem size;;
      Ret (set_output t b size).

(** ** Primitive codec *)

(** [try_read_u32]: [Some tag] for [true] with [*tag] written, [None] for
    [false]. *)
Definition try_read_u32 (fuel : nat) (t : channel)
  : outcome (option Z * channel) :=
  let avail := input_len t - input_pos t in
  t <- (if avail =? 0 then crefill fuel t 0 else Ret t);;
  let avail := input_len t - input_pos t in
  if avail =? 0 then Ret (None, t)
  else
    t <- (if avail <? 4 then crefill fuel t (4 - avail) else Ret t);;
    let tag := u32_of_bytes (sub (input_buffer t) (input_pos t) 4) in
    Ret (Some tag, set_input_pos t (input_pos t + 4)).

(** [read_u32] *)
Definition read_u32 (fuel : nat) (t : channel) : outcome (Z * channel) :=
  let avail := input_len t - input_pos t in
  t <- (if avail <? 4 then crefill fuel t (4 - avail) else Ret t);;
  let tag := u32_of_bytes (sub (input_buffer t) (input_pos t) 4) in
  Ret (tag, set_input_pos t (input_pos t + 4)).

(** [write_u32] *)
Definition write_u32 (fuel : nat) (t : channel) (u : Z) : outcome channel :=
  write_bytes fuel t (bytes_of_u32 (u32 u)) 4.

(** [read_f32]; the [float] is kept as its object representation. *)
Definition read_f32 (fuel : nat) (t : channel) : outcome (Z * channel) :=
  let avail := input_len t - input_pos t in
  t <- (if avail <? 4 then crefill fuel t (4 - avail) else Ret t);;
  let f := u32_of_bytes (sub (input_buffer t) (input_pos t) 4) in
  Ret (f, set_input_pos t (input_pos t + 4)).

(** [write_f32] *)
Definition write_f32 (fuel : nat) (t : channel) (f : Z) : outcome channel :=
  write_bytes fuel t (bytes_of_u32 f) 4.

(** ** Message codec *)

(** [&t->buf[pos]] *)
Definition buf_at (t : channel) (pos : Z) : ptr := mkPtr (buf_blk t) pos.

(** The [switch] of [channel_read_query]: the union filled and the channel
    after it.  The tag is a [uint32_t], each label is compared as such.
    The trace under [if (LOG)] goes to [stderr] and is left out. *)
Definition read_query_fields (fuel : nat) (t : channel) (tag : Z)
  : outcome (query_union * channel) :=
  let pos := 0 in
  if tag =? u32 Q_OPEN then
    '(fid, t) <- read_u32 fuel t;;
    '(pos_path, pos, t) <- read_zstr fuel t pos;;
    '(pos_mode, pos, t) <- read_zstr fuel t pos;;
    Ret (U_open fid (buf_at t pos_path) (buf_at t pos_mode), t)
  else if tag =? u32 Q_READ then
    '(fid, t) <- read_u32 fuel t;;
    '(rpos, t) <- read_u32 fuel t;;
    '(size, t) <- read_u32 fuel t;;
    Ret (U_read fid rpos size, t)
  else if tag =? u32 Q_WRIT then
    '(fid, t) <- read_u32 fuel t;;
    '(wpos, t) <- read_u32 fuel t;;
    '(size, t) <- read_u32 fuel t;;
    t <- read_bytes fuel t 0 (wrap_int size);;
    Ret (U_writ fid wpos size (buf_at t 0), t)
  else if tag =? u32 Q_CLOS then
    '(fid, t) <- read_u32 fuel t;;
    Ret (U_clos fid, t)
  else if tag =? u32 Q_SIZE then
    '(fid, t) <- read_u32 fuel t;;
    Ret (U_size fid, t)
  else if tag =? u32 Q_SEEN then
    '(fid, t) <- read_u32 fuel t;;
    '(spos, t) <- read_u32 fuel t;;
    Ret (U_seen fid spos, t)
  else if tag =? u32 Q_CHLD then
    '(pid, t) <- read_u32 fuel t;;
    Ret (U_chld pid, t)
  else if tag =? u32 Q_BACK then
    '(pid, t) <- read_u32 fuel t;;
    '(cid, t) <- read_u32 fuel t;;
    '(exitcode, t) <- read_u32 fuel t;;
    Ret (U_back pid cid exitcode, t)
  else if tag =? u32 Q_ACCS then
    '(pos_path, pos, t) <- read_zstr fuel t pos;;
    let path := buf_at t pos_path in
    '(flags, t) <- read_u32 fuel t;;
    Ret (U_accs path flags, t)
  else if tag =? u32 Q_STAT then
    '(pos_path, pos, t) <- read_zstr fuel t pos;;
    Ret (U_stat (buf_at t pos_path), t)
  else if tag =? u32 Q_GPIC then
    '(pos_path, pos, t) <- read_zstr fuel t pos;;
    let path := buf_at t pos_path in
    '(type, t) <- read_u32 fuel t;;
    '(page, t) <- read_u32 fuel t;;
    Ret (U_gpic path type page, t)
  else if tag =? u32 Q_SPIC then
    '(pos_path, pos, t) <- read_zstr fuel t pos;;
    let path := buf_at t pos_path in
    '(type, t) <- read_u32 fuel t;;
    '(page, t) <- read_u32 fuel t;;
    '(b0, t) <- read_f32 fuel t;;
    '(b1, t) <- read_f32 fuel t;;
    '(b2, t) <- read_f32 fuel t;;
    '(b3, t) <- read_f32 fuel t;;
    Ret (U_spic path type page b0 b1 b2 b3, t)
  else Abort.

(** [channel_read_query]: the value returned, the channel and [*r]. *)
Definition channel_read_query (fuel : nat) (t : channel) (r : query_t)
  : outcome (bool * channel * query_t) :=
  '(otag, t) <- try_read_u32 fuel t;;
  match otag with
  | None => Ret (false, t, r)
  | Some tag =>
      '(time, t) <- read_u32 fuel t;;
      '(u, t) <- read_query_fields fuel t tag;;
      Ret (true, t, mkQuery time tag u)
  end.

(** [channel_write_ask] *)
Definition channel_write_ask (fuel : nat) (t : channel) (a : ask_t)
  : outcome channel :=
  t <- write_u32 fuel t (k_tag a);;
  if k_tag a =? C_TERM then write_u32 fuel t (term_pid a)
  else if k_tag a =? C_FLSH then Ret t
  else Abort.

(** [write_time] *)
Definition write_time (fuel : nat) (t : channel) (tm : stat_time)
  : outcome channel :=
  t <- write_u32 fuel t (sec tm);;
  write_u32 fuel t (nsec tm).

(** [channel_write_answer]; the trace under [if (LOG)] is left out. *)
Definition channel_write_answer (fuel : nat) (t : channel) (a : answer_t)
  : outcome channel :=
  t <- write_u32 fuel t (a_tag a);;
  if a_tag a =? A_DONE then Ret t
  else if a_tag a =? A_PASS then Ret t
  else if a_tag a =? A_FORK then Ret t
  else if a_tag a =? A_READ then
    t <- write_u32 fuel t (read_size a);;
    write_bytes fuel t (buf t) (read_size a)
  else if a_tag a =? A_ACCS then
    write_u32 fuel t (accs_flag a)
  else if a_tag a =? A_STAT then
    t <- write_u32 fuel t (stat_flag a);;
    if accs_flag a =? ACCS_OK then
      let st := stat_stat a in
      t <- write_u32 fuel t (st_dev st);;
      t <- write_u32 fuel t (st_ino st);;
      t <- write_u32 fuel t (st_mode st);;
      t <- write_u32 fuel t (st_nlink st);;
      t <- write_u32 fuel t (st_uid st);;
      t <- write_u32 fuel t (st_gid st);;
      t <- write_u32 fuel t (st_rdev st);;
      t <- write_u32 fuel t (st_size st);;
      t <- write_u32 fuel t (st_blksize st);;
      t <- write_u32 fuel t (st_blocks st);;
      t <- write_time fuel t (st_atime st);;
      t <- write_time fuel t (st_ctime st);;
      write_time fuel t (st_mtime st)
    else Ret t
  else if a_tag a =? A_SIZE then
    write_u32 fuel t (size_size a)
  else if a_tag a =? A_OPEN then
    t <- write_u32 fuel t (open_size a);;
    write_bytes fuel t (buf t) (open_size a)
  else if a_tag a =? A_GPIC then
    t <- write_f32 fuel t (nth 0 (gpic_bounds a) 0);;
    t <- write_f32 fuel t (nth 1 (gpic_bounds a) 0);;
    t <- write_f32 fuel t (nth 2 (gpic_bounds a) 0);;
    write_f32 fuel t (nth 3 (gpic_bounds a) 0)
  else Abort.

(** [channel_flush] *)
Definition channel_flush (fuel : nat) (t : channel) : outcome channel :=
  cflush fuel t.

(** [channel_write_buffer]: the pointer returned and the channel. *)
Definition channel_write_buffer (fuel : nat) (t : channel) (n : Z)
  : outcome (ptr * channel) :=
  t <- grow_buf fuel t n;;
  Ret (buf_at t 0, t).

End Channel.

(** ** A concrete environment

    The tags that [PACK] gives for the four letters of each name, [ACCS_OK]
    as 1 and [0xAA] in fresh memory: used to run the model on concrete
    input. *)

Definition fourcc (name : String.string) : Z :=
  match String.list_byte_of_string name with
  | [a; b; c; d] =>
      PACK (byte_to_Z a) (byte_to_Z b) (byte_to_Z c) (byte_to_Z d)
  | _ => 0
  end.

Local Open Scope string_scope.

Definition packed_env : environment := {|
  Q_OPEN := fourcc "OPEN"; Q_READ := fourcc "READ"; Q_WRIT := fourcc "WRIT";
  Q_CLOS := fourcc "CLOS"; Q_SIZE := fourcc "SIZE"; Q_SEEN := fourcc "SEEN";
  Q_CHLD := fourcc "CHLD"; Q_BACK := fourcc "BACK"; Q_ACCS := fourcc "ACCS";
  Q_STAT := fourcc "STAT"; Q_GPIC := fourcc "GPIC"; Q_SPIC := fourcc "SPIC";
  A_DONE := fourcc "DONE"; A_PASS := fourcc "PASS"; A_SIZE := fourcc "SIZE";
  A_READ := fourcc "READ"; A_FORK := fourcc "FORK"; A_ACCS := fourcc "ACCS";
  A_STAT := fourcc "STAT"; A_OPEN := fourcc "OPEN"; A_GPIC := fourcc "GPIC";
  C_TERM := fourcc "TERM"; C_FLSH := fourcc "FLSH";
  ACCS_OK := 1;
  uninit := xaa
|}.

Local Close Scope string_scope.

(** ** Specification vocabulary *)

(** A write schedule without failure: no error other than [EINTR], and
    every call takes at least one byte. *)
Definition wev_ok (e : wev) : bool :=
  match e with
  | Wintr => true
  | Wfail => false
  | Wshort k => (0 <? k)%nat
  end.

Definition wbenign (s : stream) : bool := forallb wev_ok (wsched s).

(** A read schedule without failure: no error other than [EINTR]. *)
Definition rev_ok (e : rev) : bool :=
  match e with
  | Rfail => false
  | _ => true
  end.

Definition rbenign (s : stream) : bool := forallb rev_ok (rsched s).

(** The output staging area is in order. *)
Definition wf_out (c : channel) : Prop :=
  0 <= output_pos c <= BUF_SIZE /\ len (output_buffer c) = BUF_SIZE.

(** The bytes staged for output. *)
Definition staged (c : channel) : list byte :=
  sub (output_buffer c) 0 (output_pos c).

(** All the channel has sent: what reached the peer, then what is staged. *)
Definition sent (c : channel) : list byte := delivered (fd c) ++ staged c.

(** What a call on the output side leaves alone. *)
Definition same_input (c c' : channel) : Prop :=
  input_buffer c' = input_buffer c /\ input_pos c' = input_pos c /\
  input_len c' = input_len c /\ buf c' = buf c /\ buf_size c' = buf_size c /\
  buf_blk c' = buf_blk c /\ incoming (fd c') = incoming (fd c) /\
  rsched (fd c') = rsched (fd c).

(** A step of the output side from [c] to [c']: the bytes [bs] are appended
    to what the channel has sent, the rest is left as it was. *)
Definition out_step (c c' : channel) (bs : list byte) : Prop :=
  wf_out c' /\ sent c' = sent c ++ bs /\ same_input c c' /\
  (wbenign (fd c) = true -> wbenign (fd c') = true) /\
  (length (wsched (fd c')) <= length (wsched (fd c)))%nat.

(** One call [write_bytes(t, buf, size)]: the block [buf] points to and
    [size]; the byte sequence passed is the first [size] bytes of it. *)
Definition wcall : Type := list byte * Z.

Definition wcall_bytes (w : wcall) : list byte := sub (fst w) 0 (snd w).

(** The call stays inside its block, and [output.pos + size] inside [int]. *)
Definition wcall_ok (w : wcall) : Prop :=
  0 <= snd w <= len (fst w) /\ snd w <= INT_MAX - BUF_SIZE.

(** A series of calls of the output writer. *)
Fixpoint write_seq (fuel : nat) (t : channel) (ws : list wcall)
  : outcome channel :=
  match ws with
  | [] => Ret t
  | w :: rest =>
      t' <- write_bytes fuel t (fst w) (snd w);;
      write_seq fuel t' rest
  end.

Section Frames.

Context {env : environment}.

(** The calls of the output writer that [write_u32], [write_f32] and
    [write_time] make. *)
Definition u32_call (u : Z) : wcall := (bytes_of_u32 (u32 u), 4).
Definition f32_call (f : Z) : wcall := (bytes_of_u32 f, 4).
Definition time_calls (tm : stat_time) : list wcall :=
  [u32_call (sec tm); u32_call (nsec tm)].

Definition stat_calls (st : stat_answer) : list wcall :=
  [ u32_call (st_dev st); u32_call (st_ino st); u32_call (st_mode st);
    u32_call (st_nlink st); u32_call (st_uid st); u32_call (st_gid st);
    u32_call (st_rdev st); u32_call (st_size st);
    u32_call (st_blksize st); u32_call (st_blocks st) ]
  ++ time_calls (st_atime st) ++ time_calls (st_ctime st)
  ++ time_calls (st_mtime st).

(** The calls of the output writer that [channel_write_answer] makes for
    [a] when the scratch block is [scratch]; [None] when the tag is not an
    answer tag (the tag is written, then [mabort]). *)
Definition answer_calls (scratch : list byte) (a : answer_t)
  : option (list wcall) :=
  let tag := u32_call (a_tag a) in
  if a_tag a =? A_DONE then Some [tag]
  else if a_tag a =? A_PASS then Some [tag]
  else if a_tag a =? A_FORK then Some [tag]
  else if a_tag a =? A_READ then
    Some [tag; u32_call (read_size a); (scratch, read_size a)]
  else if a_tag a =? A_ACCS then Some [tag; u32_call (accs_flag a)]
  else if a_tag a =? A_STAT then
    Some (tag :: u32_call (stat_flag a)
          :: (if accs_flag a =? ACCS_OK then stat_calls (stat_stat a)
              else []))
  else if a_tag a =? A_SIZE then Some [tag; u32_call (size_size a)]
  else if a_tag a =? A_OPEN then
    Some [tag; u32_call (open_size a); (scratch, open_size a)]
  else if a_tag a =? A_GPIC then
    Some [tag; f32_call (nth 0 (gpic_bounds a) 0);
          f32_call (nth 1 (gpic_bounds a) 0);
          f32_call (nth 2 (gpic_bounds a) 0);
          f32_call (nth 3 (gpic_bounds a) 0)]
  else None.

(** The same for [channel_write_ask]. *)
Definition ask_calls (k : ask_t) : option (list wcall) :=
  let tag := u32_call (k_tag k) in
  if k_tag k =? C_TERM then Some [tag; u32_call (term_pid k)]
  else if k_tag k =? C_FLSH then Some [tag]
  else None.

(** A message-encoding call. *)
Inductive message := M_answer (a : answer_t) | M_ask (k : ask_t).

Definition write_message (fuel : nat) (t : channel) (m : message)
  : outcome channel :=
  match m with
  | M_answer a => channel_write_answer fuel t a
  | M_ask k => channel_write_ask fuel t k
  end.

Fixpoint write_messages (fuel : nat) (t : channel) (ms : list message)
  : outcome channel :=
  match ms with
  | [] => Ret t
  | m :: rest => t' <- write_message fuel t m;; write_messages fuel t' rest
  end.

Definition message_calls (scratch : list byte) (m : message)
  : option (list wcall) :=
  match m with
  | M_answer a => answer_calls scratch a
  | M_ask k => ask_calls k
  end.

Fixpoint messages_calls (scratch : list byte) (ms : list message)
  : option (list wcall) :=
  match ms with
  | [] => Some []
  | m :: rest =>
      match message_calls scratch m, messages_calls scratch rest with
      | Some ws, Some ws' => Some (ws ++ ws')
      | _, _ => None
      end
  end.

(** The 13 members of the stat record in wire order, as bytes. *)
Definition stat_record (st : stat_answer) : list byte :=
  concat (map (fun u => bytes_of_u32 (u32 u))
    [ st_dev st; st_ino st; st_mode st; st_nlink st; st_uid st; st_gid st;
      st_rdev st; st_size st; st_blksize st; st_blocks st;
      sec (st_atime st); nsec (st_atime st);
      sec (st_ctime st); nsec (st_ctime st);
      sec (st_mtime st); nsec (st_mtime st) ]).

End Frames.

(** The input staging area is in order. *)
Definition wf_in (c : channel) : Prop :=
  0 <= input_pos c <= input_len c /\ input_len c <= BUF_SIZE /\
  len (input_buffer c) = BUF_SIZE.

(** The input staged and not yet consumed. *)
Definition pending (c : channel) : list byte :=
  sub (input_buffer c) (input_pos c) (input_len c - input_pos c).

(** All the input still to be decoded: what is staged, then what the stream
    holds. *)
Definition unread (c : channel) : list byte := pending c ++ incoming (fd c).

(** What a call on the input side leaves alone. *)
Definition same_output (c c' : channel) : Prop :=
  output_buffer c' = output_buffer c /\ output_pos c' = output_pos c /\
  wsched (fd c') = wsched (fd c) /\ delivered (fd c') = delivered (fd c).

Definition same_scratch (c c' : channel) : Prop :=
  buf c' = buf c /\ buf_size c' = buf_size c /\ buf_blk c' = buf_blk c.

(** A step of the input side from [c] to [c']: the bytes [bs] are consumed
    from the unread input, the output side is left as it was. *)
Definition rd_step (c c' : channel) (bs : list byte) : Prop :=
  wf_in c' /\ unread c = bs ++ unread c' /\ same_output c c' /\
  (rbenign (fd c) = true -> rbenign (fd c') = true) /\
  (length (rsched (fd c')) <= length (rsched (fd c)))%nat.

(** The same relation between two states of the stream. *)
Definition fd_step (s s' : stream) (bs : list byte) : Prop :=
  incoming s = bs ++ incoming s' /\
  wsched s' = wsched s /\ delivered s' = delivered s /\
  (rbenign s = true -> rbenign s' = true) /\
  (length (rsched s') <= length (rsched s))%nat.

(** The scratch buffer is in order: its capacity is 256 times a power of
    two, is an [int] that can still be the size of a block, and is the size
    of the block [t->buf] points to. *)
Definition scratch_ok (c : channel) : Prop :=
  (exists k : nat, buf_size c = 256 * 2 ^ Z.of_nat k) /\
  buf_size c <= 2 ^ 30 /\ len (buf c) = buf_size c.

(** What a call on the scratch buffer alone leaves as it was. *)
Definition same_io (c c' : channel) : Prop :=
  fd c' = fd c /\ input_buffer c' = input_buffer c /\
  input_pos c' = input_pos c /\ input_len c' = input_len c /\
  output_buffer c' = output_buffer c /\ output_pos c' = output_pos c.

(** A string without NUL byte. *)
Definition no_nul (s : list byte) : Prop := Forall (fun b => b <> x00) s.

(** From [c] to [c'] the scratch buffer has kept its first [n] bytes and
    has not shrunk. *)
Definition kept (c c' : channel) (n : Z) : Prop :=
  scratch_ok c' /\ buf_size c <= buf_size c' /\
  sub (buf c') 0 n = sub (buf c) 0 n /\ (buf_blk c <= buf_blk c')%nat.

(** The pointer [p] is into the current scratch block and the
    NUL-terminated string there is [s]. *)
Definition zstr_at (c : channel) (p : ptr) (s : list byte) : Prop :=
  blk p = buf_blk c /\ 0 <= off p /\ off p + len s + 1 <= buf_size c /\
  sub (buf c) (off p) (len s + 1) = s ++ [x00] /\ no_nul s.

(** The pointer [p] is into the current scratch block and the [len d]
    bytes there are [d]. *)
Definition blob_at (c : channel) (p : ptr) (d : list byte) : Prop :=
  blk p = buf_blk c /\ 0 <= off p /\ off p + len d <= buf_size c /\
  sub (buf c) (off p) (len d) = d.

(** The variable-length members of a decoded query against the bytes
    [body] that followed tag and timestamp on the wire: each string or blob
    of [body] lies in the scratch buffer of [c] where its pointer says. *)
Definition scratch_fields (c : channel) (u : query_union) (body : list byte)
  : Prop :=
  match u with
  | U_open _ path mode =>
      exists w s1 s2,
        len w = 4 /\ body = w ++ (s1 ++ [x00]) ++ (s2 ++ [x00]) /\
        zstr_at c path s1 /\ zstr_at c mode s2 /\
        off path = 0 /\ off mode = len s1 + 1
  | U_writ _ _ size wbuf =>
      exists w d,
        len w = 12 /\ body = w ++ d /\ len d = size /\ blob_at c wbuf d /\
        off wbuf = 0
  | U_accs path _ =>
      exists s w, len w = 4 /\ body = (s ++ [x00]) ++ w /\
                  zstr_at c path s /\ off path = 0
  | U_stat path =>
      exists s, body = s ++ [x00] /\ zstr_at c path s /\ off path = 0
  | U_gpic path _ _ =>
      exists s w, len w = 8 /\ body = (s ++ [x00]) ++ w /\
                  zstr_at c path s /\ off path = 0
  | U_spic path _ _ _ _ _ _ =>
      exists s w, len w = 24 /\ body = (s ++ [x00]) ++ w /\
                  zstr_at c path s /\ off path = 0
  | _ => True
  end.

Section Tags.

Context {env : environment}.

(** The labels of the [switch] in [channel_read_query]. *)
Definition query_tags : list Z :=
  [ Q_OPEN; Q_READ; Q_WRIT; Q_CLOS; Q_SIZE; Q_SEEN; Q_CHLD; Q_BACK; Q_ACCS;
    Q_STAT; Q_GPIC; Q_SPIC ].

Definition known_query_tag (tag : Z) : bool :=
  existsb (fun q => tag =? u32 q) query_tags.

(** The frame of the Q_OPEN scenario: tag, time 42, fid 3, "/tmp/a", "r". *)
Definition open_frame : list byte :=
  bytes_of_u32 (u32 Q_OPEN) ++ bytes_of_u32 42 ++ bytes_of_u32 3
  ++ String.list_byte_of_string "/tmp/a" ++ [x00]
  ++ String.list_byte_of_string "r" ++ [x00].

(** [n] calls of [channel_read_query] in a row, each on the channel and
    the query structure that the one before has left. *)
Fixpoint read_queries (fuel : nat) (n : nat) (t : channel) (r : query_t)
  : outcome (channel * query_t) :=
  match n with
  | O => Ret (t, r)
  | S n' =>
      '(_, t', r') <- channel_read_query fuel t r;;
      read_queries fuel n' t' r'
  end.

End Tags.

(** ** Concrete inputs *)

Definition q0 : query_t := mkQuery 0 0 (U_clos 0).

Definition st0 : stat_answer :=
  mkStat 1 2 3 4 5 6 7 8 9 10 (mkTime 11 12) (mkTime 13 14) (mkTime 15 16).

(** A stream that holds the Q_OPEN scenario and one byte more, handed over
    in pieces (an interrupted read, one byte, three bytes, ...). *)
Definition open_stream : stream :=
  mkStream (open_frame (env := packed_env) ++ [x07])
    [Rintr; Rshort 0; Rshort 2; Rintr; Rshort 4] [] [].

(** A stream at its end. *)
Definition closed_stream : stream := mkStream [] [Rintr] [] [].

(** A stream whose first word is no Query tag. *)
Definition junk_stream : stream :=
  mkStream (bytes_of_u32 0 ++ bytes_of_u32 9 ++ [x01]) [Rshort 2] [] [].

(** A Q_OPEN query whose path of 300 bytes does not fit the 256 bytes of a
    new scratch buffer. *)
Definition long_path : list byte := repeat x61 300.

Definition long_open_stream : stream :=
  mkStream (bytes_of_u32 (u32 (Q_OPEN (environment := packed_env)))
            ++ bytes_of_u32 7 ++ bytes_of_u32 3
            ++ long_path ++ [x00] ++ [x72; x00])
    [Rshort 99] [] [].

(** The peer of the handshake, with slow reads and writes. *)
Definition client_stream : stream :=
  mkStream (String.list_byte_of_string "TEXPRESSOC01" ++ [x01])
    [Rshort 3; Rintr] [Wshort 5; Wintr] [].

(** A channel with the payload 1,2,3,4,5 staged in its scratch buffer, on
    a stream that takes writes in pieces. *)
Definition payload_channel : channel :=
  let c := channel_new (env := packed_env)
             (mkStream [] [] [Wintr; Wshort 3] []) in
  set_buf c (blit (buf c) 0 [x01; x02; x03; x04; x05]).

Definition read_answer : answer_t :=
  mkAnswer (A_READ (environment := packed_env)) 5 0 0 st0 0 0 [].

Definition stat_refused : answer_t :=
  mkAnswer (A_STAT (environment := packed_env)) 0 2 2 st0 0 0 [].

(** Writer calls of 3, 5000 and 4 bytes. *)
Definition some_calls : list wcall :=
  [ ([x01; x02; x03], 3); (repeat x07 5000, 5000);
    (bytes_of_u32 9, 4) ].

Definition slow_writer : channel :=
  channel_new (env := packed_env)
    (mkStream [] [] [Wintr; Wshort 3; Wshort 4500] []).

(** ** Readiness *)

(** How one [poll] call turns out.  Whether the peer has sent anything by
    the time the call ends is not for the channel to decide: the outcome is
    taken as it comes. *)
Inductive pev :=
| Pintr      (* -1, errno = EINTR *)
| Pfail      (* -1, another errno *)
| Ptimeout   (* 0: the time is up, nothing to read *)
| Pready.    (* 1: the descriptor can be read *)

(** [poll(&pfd, 1, timeout)] on the outcomes still to come: the value
    returned with [errno], and the outcomes left.  Once they are used up the
    descriptor is found ready. *)
Definition poll (ps : list pev) (timeout : Z) : sysret Z * list pev :=
  match ps with
  | Pintr :: r => (Err EINTR, r)
  | Pfail :: r => (Err EIO, r)
  | Ptimeout :: r => (Ok 0, r)
  | Pready :: r => (Ok 1, r)
  | [] => (Ok 1, [])
  end.

(** The loop of [channel_has_pending_query]: [n] as the loop leaves it
    ([-1] after an error other than [EINTR]). *)
Fixpoint poll_loop (fuel : nat) (ps : list pev) (timeout : Z)
  : outcome (Z * list pev) :=
  match fuel with
  | O => Spin
  | S fuel' =>
      match poll ps timeout with
      | (Err EINTR, ps') => poll_loop fuel' ps' timeout
      | (Err _, ps') => Ret (-1, ps')
      | (Ok n, ps') => Ret (n, ps')
      end
  end.

(** [channel_has_pending_query]: the value returned and the outcomes of
    [poll] left. *)
Definition channel_has_pending_query (fuel : nat) (t : channel)
    (ps : list pev) (timeout : Z) : outcome (bool * list pev) :=
  if negb (input_pos t =? input_len t) then Ret (true, ps)
  else
    '(n, ps') <- poll_loop fuel ps timeout;;
    if n =? -1 then Abort
    else if n =? 0 then Ret (false, ps')
    else Ret (true, ps').

(** ** Further vocabulary *)

(** No two members of the list are equal. *)
Fixpoint all_distinct (l : list Z) : bool :=
  match l with
  | [] => true
  | x :: r => negb (existsb (Z.eqb x) r) && all_distinct r
  end.

Section Labels.

Context {env : environment}.

(** The labels of the [switch] in [channel_write_answer], in its order. *)
Definition answer_tags : list Z :=
  [ A_DONE; A_PASS; A_FORK; A_READ; A_ACCS; A_STAT; A_SIZE; A_OPEN; A_GPIC ].

(** The labels of a [switch] are distinct integer constants (of the type of
    the value switched on): a requirement of the language on
    [sprotocol.h]. *)
Definition query_labels_distinct : Prop :=
  all_distinct (map u32 query_tags) = true.

Definition answer_labels_distinct : Prop :=
  all_distinct answer_tags = true.

End Labels.

(** The pointer to the first string or blob of a decoded query. *)
Definition first_field (u : query_union) : option ptr :=
  match u with
  | U_open _ path _ => Some path
  | U_writ _ _ _ wbuf => Some wbuf
  | U_accs path _ => Some path
  | U_stat path => Some path
  | U_gpic path _ _ => Some path
  | U_spic path _ _ _ _ _ _ => Some path
  | _ => None
  end.

(** The channel [c] is in order, its reads do not fail, its unread input is
    [rest], and fewer than [n] outcomes of [read] are scheduled. *)
Definition ready (n : nat) (c : channel) (rest : list byte) : Prop :=
  wf_in c /\ scratch_ok c /\ rbenign (fd c) = true /\ unread c = rest /\
  (length (rsched (fd c)) < n)%nat.

(** ** Further concrete inputs *)

Definition Q (name : String.string) : list byte := bytes_of_u32 (fourcc name).

Local Open Scope string_scope.

(** A READ query (time 7, fid 1, pos 2, size 3) and one byte more, on reads
    that come in pieces. *)
Definition read_frame : list byte :=
  Q "READ" ++ bytes_of_u32 7 ++ bytes_of_u32 1 ++ bytes_of_u32 2
  ++ bytes_of_u32 3.

Definition read_stream : stream :=
  mkStream (read_frame ++ [x09]) [Rshort 2; Rintr; Rshort 9] [] [].

(** An ACCS query for "/etc" with flags 4. *)
Definition accs_stream : stream :=
  mkStream (Q "ACCS" ++ bytes_of_u32 8 ++ String.list_byte_of_string "/etc"
            ++ x00 :: bytes_of_u32 4 ++ [x09])
    [Rshort 5; Rintr] [] [].

(** A WRIT query (fid 1, pos 0) with the three bytes 1, 2, 3. *)
Definition writ_stream : stream :=
  mkStream (Q "WRIT" ++ bytes_of_u32 8 ++ bytes_of_u32 1 ++ bytes_of_u32 0
            ++ bytes_of_u32 3 ++ [x01; x02; x03] ++ [x09])
    [Rshort 17] [] [].

(** A WRIT query whose size word is 0x80000000. *)
Definition bad_writ_stream : stream :=
  mkStream (Q "WRIT" ++ bytes_of_u32 8 ++ bytes_of_u32 1 ++ bytes_of_u32 0
            ++ [x00; x00; x00; x80] ++ [x01; x02; x03])
    [] [] [].

(** A WRIT query for five bytes of which two arrive. *)
Definition cut_writ_stream : stream :=
  mkStream (Q "WRIT" ++ bytes_of_u32 8 ++ bytes_of_u32 1 ++ bytes_of_u32 0
            ++ bytes_of_u32 5 ++ [x01; x02])
    [Rshort 17] [] [].

(** Two STAT queries in a row, for "a" and for "bc". *)
Definition stat_twice_stream : stream :=
  mkStream (Q "STAT" ++ bytes_of_u32 1 ++ [x61; x00]
            ++ Q "STAT" ++ bytes_of_u32 2 ++ [x62; x63; x00])
    [Rshort 3] [] [].

(** A stream that ends after five bytes. *)
Definition short_stream : stream :=
  mkStream [x54; x45; x58; x50; x52] [Rshort 1; Rintr] [Wshort 7] [].

(** A stream whose second call of [write] fails. *)
Definition failing_writer : stream := mkStream [] [] [Wintr; Wfail] [].

Local Close Scope string_scope.

(** The result of a call that returns, [d] otherwise. *)
Definition returned {A : Type} (d : A) (m : outcome A) : A :=
  match m with
  | Ret a => a
  | _ => d
  end.

(** The channel and the query after the first and after the second decode
    on [stat_twice_stream]. *)
Definition stat_first : bool * channel * query_t :=
  returned (false, channel_new (env := packed_env) stat_twice_stream, q0)
    (channel_read_query (env := packed_env) 9
       (channel_new (env := packed_env) stat_twice_stream) q0).

Definition stat_second : bool * channel * query_t :=
  returned stat_first
    (channel_read_query (env := packed_env) 9 (snd (fst stat_first))
       (snd stat_first)).

(** Answers and asks. *)
Definition done_answer : answer_t :=
  mkAnswer (A_DONE (environment := packed_env)) 0 0 0 st0 0 0 [].

Definition big_open_answer : answer_t :=
  mkAnswer (A_OPEN (environment := packed_env)) 0 0 0 st0 0 300 [].

Definition odd_answer : answer_t := mkAnswer 0 0 0 0 st0 0 0 [].

Definition term_ask : ask_t :=
  mkAsk (C_TERM (environment := packed_env)) 77.

(** A channel after [write_u32] of 0x01020304 and a flush, and one after
    [write_bytes] of three bytes and a flush. *)
Definition word_sent : channel :=
  returned slow_writer
    (t1 <- write_u32 5 slow_writer 16909060;;
     channel_flush 5 t1).

Definition bytes_sent : channel :=
  returned slow_writer
    (t1 <- write_bytes 5 slow_writer [x0a; x0b; x0c] 3;;
     channel_flush 5 t1).

(** A channel with a whole READ frame staged, on a stream whose next
    [read] fails. *)
Definition staged_channel : channel :=
  let c := channel_new (env := packed_env) (mkStream [] [Rfail] [] []) in
  set_input c (blit (input_buffer c) 0 (read_frame ++ [x09])) 0 21.

(** The channel after a refill for four bytes on [read_stream]. *)
Definition refilled : channel :=
  returned (channel_new (env := packed_env) read_stream)
    (crefill 5 (channel_new (env := packed_env) read_stream) 4).

(** A reader whose stream holds what the channel [t] has delivered. *)
Definition reader_of (t : channel) : channel :=
  channel_new (env := packed_env) (mkStream (delivered (fd t)) [] [] []).

(** The pointer and the channel after [channel_write_buffer] for 1000 bytes
    on a new channel. *)
Definition grown : ptr * channel :=
  returned (mkPtr 0 0, channel_new (env := packed_env) closed_stream)
    (channel_write_buffer (env := packed_env) 23
       (channel_new (env := packed_env) closed_stream) 1000).

(** * Properties *)

(** ** Lists as memory blocks *)

Lemma len_nonneg (l : list byte) : 0 <= len l.
Proof. unfold len. lia. Qed.

Lemma len_app (l1 l2 : list byte) : len (l1 ++ l2) = len l1 + len l2.
Proof. unfold len. rewrite length_app. lia. Qed.

Lemma len_firstn (n : Z) (l : list byte) :
  0 <= n <= len l -> len (firstn (Z.to_nat n) l) = n.
Proof. unfold len. intros H. rewrite length_firstn. lia. Qed.

Lemma len_skipn (n : Z) (l : list byte) :
  0 <= n <= len l -> len (skipn (Z.to_nat n) l) = len l - n.
Proof. unfold len. intros H. rewrite length_skipn. lia. Qed.

Lemma len_sub (l : list byte) (off n : Z) :
  0 <= off -> 0 <= n -> off + n <= len l -> len (sub l off n) = n.
Proof.
  unfold sub, len. intros Ho Hn H.
  rewrite length_firstn, length_skipn. lia.
Qed.

Lemma sub_0 (l : list byte) (n : Z) : sub l 0 n = firstn (Z.to_nat n) l.
Proof. reflexivity. Qed.

Lemma sub_nil (l : list byte) (off : Z) : sub l off 0 = [].
Proof. reflexivity. Qed.

Lemma len_blit (dst : list byte) (off : Z) (src : list byte) :
  0 <= off -> off + len src <= len dst -> len (blit dst off src) = len dst.
Proof.
  unfold blit, len. intros Ho H.
  rewrite !length_app, length_firstn, length_skipn. lia.
Qed.

Lemma memcpy_Ret (dst : list byte) (off : Z) (src : list byte) :
  0 <= off -> off + len src <= len dst ->
  memcpy dst off src = Ret (blit dst off src).
Proof.
  intros Ho H. unfold memcpy.
  destruct (0 <=? off) eqn:E1; [|lia].
  destruct (off + len src <=? len dst) eqn:E2; [reflexivity|lia].
Qed.

Lemma memcpy_inv (dst : list byte) (off : Z) (src b : list byte) :
  memcpy dst off src = Ret b ->
  0 <= off /\ off + len src <= len dst /\ b = blit dst off src.
Proof.
  unfold memcpy.
  destruct (0 <=? off) eqn:E1; [|discriminate].
  destruct (off + len src <=? len dst) eqn:E2; [|discriminate].
  simpl. intros H. inversion H. repeat split; lia.
Qed.

(** The bytes below the place written are kept, those written are there. *)
Lemma sub_blit_below (dst : list byte) (off : Z) (src : list byte) (n : Z) :
  0 <= off -> off + len src <= len dst -> n <= off ->
  sub (blit dst off src) 0 n = sub dst 0 n.
Proof.
  unfold sub, blit, len. intros Ho H Hn. simpl.
  rewrite firstn_app. rewrite firstn_firstn.
  rewrite length_firstn.
  replace (Z.to_nat n - Nat.min (Z.to_nat off) (length dst))%nat with O by lia.
  simpl. rewrite app_nil_r. f_equal. lia.
Qed.

Lemma sub_blit_at (dst : list byte) (off : Z) (src : list byte) :
  0 <= off -> off + len src <= len dst ->
  sub (blit dst off src) off (len src) = src.
Proof.
  unfold sub, blit, len. intros Ho H.
  rewrite skipn_app, length_firstn.
  rewrite skipn_all2 by (rewrite length_firstn; lia).
  replace (Z.to_nat off - Nat.min (Z.to_nat off) (length dst))%nat with O by lia.
  simpl. rewrite firstn_app.
  replace (Z.to_nat (Z.of_nat (length src)) - length src)%nat with O by lia.
  simpl. rewrite app_nil_r. apply firstn_all2. lia.
Qed.

Lemma firstn_plus (a b : nat) (l : list byte) :
  firstn (a + b) l = firstn a l ++ firstn b (skipn a l).
Proof.
  revert l. induction a as [|a IH]; intros l; simpl; [reflexivity|].
  destruct l as [|x l]; simpl.
  - rewrite firstn_nil. reflexivity.
  - rewrite IH. reflexivity.
Qed.

Lemma sub_app_more (l : list byte) (n m : Z) :
  0 <= n -> 0 <= m ->
  sub l 0 (n + m) = sub l 0 n ++ sub l n m.
Proof.
  unfold sub. intros Hn Hm. simpl.
  replace (Z.to_nat (n + m)) with (Z.to_nat n + Z.to_nat m)%nat by lia.
  apply firstn_plus.
Qed.

(** ** The output side *)

Lemma write_all_sound (fuel : nat) :
  forall fd data size fd',
    0 <= size <= len data ->
    write_all fuel fd data size = Ret fd' ->
    delivered fd' = delivered fd ++ sub data 0 size /\
    incoming fd' = incoming fd /\ rsched fd' = rsched fd /\
    (wbenign fd = true -> wbenign fd' = true) /\
    (length (wsched fd') <= length (wsched fd))%nat.
Proof.
  induction fuel as [|fuel IH]; intros fd data size fd' Hs H; simpl in H.
  - destruct (size >? 0) eqn:E; [discriminate|].
    inversion H; subst. replace size with 0 by lia.
    rewrite sub_nil, app_nil_r. auto.
  - destruct (size >? 0) eqn:E.
    2:{ inversion H; subst. replace size with 0 by lia.
        rewrite sub_nil, app_nil_r. auto. }
    unfold write in H. unfold wbenign.
    destruct (wsched fd) as [|[| |k] w] eqn:Ew; simpl in H.
    + set (d := firstn (Z.to_nat size) data) in *.
      assert (Hd : len d = size) by (apply len_firstn; lia).
      rewrite Hd in H. destruct (size =? 0) eqn:E0; [discriminate|].
      apply IH in H.
      2:{ rewrite len_skipn; lia. }
      simpl in H. destruct H as (H1 & H2 & H3 & H4 & H5).
      rewrite H1, H2, H3. rewrite Z.sub_diag, sub_nil.
      rewrite app_nil_r. unfold wbenign in H4. simpl in H4.
      repeat split; auto.
    + apply IH in H; [|assumption]. simpl in H.
      destruct H as (H1 & H2 & H3 & H4 & H5).
      rewrite H1, H2, H3. unfold wbenign in H4. simpl in H4.
      repeat split; auto. simpl. lia.
    + discriminate.
    + set (n := Nat.min k (Z.to_nat size)) in *.
      set (d := firstn n data) in *.
      assert (Hd : len d = Z.of_nat n).
      { unfold d, len. rewrite length_firstn. unfold len in Hs. lia. }
      rewrite Hd in H. destruct (Z.of_nat n =? 0) eqn:E0; [discriminate|].
      apply IH in H.
      2:{ rewrite len_skipn; lia. }
      simpl in H. destruct H as (H1 & H2 & H3 & H4 & H5).
      rewrite H1, H2, H3. rewrite Nat2Z.id.
      replace size with (Z.of_nat n + (size - Z.of_nat n)) at 2 by lia.
      rewrite sub_app_more by lia.
      unfold sub. simpl. rewrite Nat2Z.id. fold d.
      rewrite <- app_assoc.
      unfold wbenign in H4. simpl in H4.
      repeat split; auto; try (simpl; lia).
      intros Hb. apply andb_prop in Hb. tauto.
Qed.

Lemma write_all_runs (fuel : nat) :
  forall fd data size,
    0 <= size <= len data ->
    wbenign fd = true ->
    (length (wsched fd) < fuel)%nat ->
    exists fd', write_all fuel fd data size = Ret fd'.
Proof.
  induction fuel as [|fuel IH]; intros fd data size Hs Hb Hf; [lia|].
  simpl. destruct (size >? 0) eqn:E; [|eauto].
  unfold write. unfold wbenign in Hb.
  destruct (wsched fd) as [|[| |k] w] eqn:Ew; simpl in *.
  - set (d := firstn (Z.to_nat size) data) in *.
    assert (Hd : len d = size) by (apply len_firstn; lia).
    rewrite Hd. destruct (size =? 0) eqn:E0; [lia|].
    rewrite Z.sub_diag. destruct fuel; simpl; eauto.
  - apply IH; simpl; auto. lia.
  - discriminate.
  - apply andb_prop in Hb. destruct Hb as [Hk Hb].
    apply Nat.ltb_lt in Hk.
    set (n := Nat.min k (Z.to_nat size)) in *.
    set (d := firstn n data) in *.
    assert (Hd : len d = Z.of_nat n).
    { unfold d, len. rewrite length_firstn. unfold len in Hs. lia. }
    rewrite Hd. destruct (Z.of_nat n =? 0) eqn:E0; [lia|].
    apply IH; simpl; auto; [|lia].
    rewrite len_skipn; lia.
Qed.

Lemma wrap_int_small (z : Z) : - 2 ^ 31 <= z < 2 ^ 31 -> wrap_int z = z.
Proof.
  intros H. unfold wrap_int. rewrite Z.mod_small; lia.
Qed.

Lemma same_input_refl (c : channel) : same_input c c.
Proof. unfold same_input. tauto. Qed.

Lemma same_input_trans (c1 c2 c3 : channel) :
  same_input c1 c2 -> same_input c2 c3 -> same_input c1 c3.
Proof.
  unfold same_input. intros H1 H2.
  repeat match goal with H : _ /\ _ |- _ => destruct H end.
  repeat split; congruence.
Qed.

Lemma out_step_refl (c : channel) : wf_out c -> out_step c c [].
Proof.
  intros H. unfold out_step. rewrite app_nil_r.
  repeat split; auto using same_input_refl; apply H.
Qed.

Lemma out_step_trans (c1 c2 c3 : channel) (b1 b2 : list byte) :
  out_step c1 c2 b1 -> out_step c2 c3 b2 -> out_step c1 c3 (b1 ++ b2).
Proof.
  intros (W1 & S1 & I1 & B1 & L1) (W2 & S2 & I2 & B2 & L2).
  unfold out_step. rewrite S2, S1, app_assoc.
  split; [exact W2|]. split; [reflexivity|].
  split; [eauto using same_input_trans|]. split; [auto|lia].
Qed.

Section Output.

Context {env : environment}.

Lemma cflush_sound (fuel : nat) (c c' : channel) :
  wf_out c ->
  cflush fuel c = Ret c' ->
  out_step c c' [] /\ output_pos c' = 0 /\ delivered (fd c') = sent c.
Proof.
  intros W H. unfold cflush in H.
  destruct (output_pos c =? 0) eqn:E.
  - inversion H; subst c'. split; [apply out_step_refl; assumption|].
    split; [lia|]. unfold sent, staged.
    replace (output_pos c) with 0 by lia.
    rewrite sub_nil, app_nil_r. reflexivity.
  - destruct (write_all fuel (fd c) (output_buffer c) (output_pos c))
      as [fd'| | |] eqn:Ew; simpl in H; try discriminate.
    inversion H; subst c'. clear H.
    destruct W as [Wp Wl].
    apply write_all_sound in Ew; [|lia].
    destruct Ew as (H1 & H2 & H3 & H4 & H5).
    unfold out_step, wf_out, sent, staged, same_input. simpl.
    rewrite H1. rewrite sub_nil, !app_nil_r.
    repeat split; auto; unfold BUF_SIZE; lia.
Qed.

Lemma cflush_runs (fuel : nat) (c : channel) :
  wf_out c -> wbenign (fd c) = true ->
  (length (wsched (fd c)) < fuel)%nat ->
  exists c', cflush fuel c = Ret c'.
Proof.
  intros [Wp Wl] Hb Hf. unfold cflush.
  destruct (output_pos c =? 0); [eauto|].
  destruct (write_all_runs fuel (fd c) (output_buffer c) (output_pos c))
    as [fd' Hw]; auto; [lia|].
  rewrite Hw. simpl. eauto.
Qed.

Lemma memcpy_n_inv (dst : list byte) (off : Z) (src : list byte) (size : Z)
    (b : list byte) :
  memcpy_n dst off src size = Ret b ->
  0 <= size <= len src /\ 0 <= off /\ off + size <= len dst /\
  b = blit dst off (sub src 0 size).
Proof.
  unfold memcpy_n.
  destruct (size <? 0) eqn:E1; [discriminate|].
  destruct (len src <? size) eqn:E2; [discriminate|]. simpl.
  intros H. apply memcpy_inv in H. rewrite len_sub in H by lia.
  repeat split; try lia. apply H.
Qed.

Lemma memcpy_n_Ret (dst : list byte) (off : Z) (src : list byte) (size : Z) :
  0 <= size <= len src -> 0 <= off -> off + size <= len dst ->
  memcpy_n dst off src size = Ret (blit dst off (sub src 0 size)).
Proof.
  intros Hs Ho Hd. unfold memcpy_n.
  destruct (size <? 0) eqn:E1; [lia|].
  destruct (len src <? size) eqn:E2; [lia|]. simpl.
  apply memcpy_Ret; [lia|]. rewrite len_sub; lia.
Qed.

Lemma staged_blit (ob : list byte) (pos : Z) (src : list byte) (n : Z) :
  len src = n -> 0 <= pos -> pos + n <= len ob ->
  sub (blit ob pos src) 0 (pos + n) = sub ob 0 pos ++ src.
Proof.
  intros <- Hp Hl. pose proof (len_nonneg src).
  rewrite sub_app_more by lia.
  rewrite sub_blit_below by lia.
  rewrite sub_blit_at by lia. reflexivity.
Qed.

Lemma write_bytes_sound (fuel : nat) (t t' : channel) (mem : list byte)
    (size : Z) :
  wf_out t -> 0 <= size <= len mem -> size <= INT_MAX - BUF_SIZE ->
  write_bytes fuel t mem size = Ret t' ->
  out_step t t' (sub mem 0 size).
Proof.
  intros W Hs Hm H. unfold write_bytes in H.
  assert (Hw : wrap_int (output_pos t + size) = output_pos t + size).
  { destruct W as [Wp Wl]. apply wrap_int_small.
    unfold INT_MAX, BUF_SIZE in *. lia. }
  rewrite Hw in H. clear Hw.
  assert (Hl : len (sub mem 0 size) = size) by (apply len_sub; lia).
  destruct (output_pos t + size <=? BUF_SIZE) eqn:E.
  - destruct (memcpy_n (output_buffer t) (output_pos t) mem size)
      as [b| | |] eqn:Em; simpl in H; try discriminate.
    inversion H; subst t'; clear H.
    apply memcpy_n_inv in Em. destruct Em as (_ & Ho & Hd & ->).
    destruct W as [Wp Wl].
    unfold out_step, wf_out, sent, staged, same_input. simpl.
    rewrite len_blit by lia.
    rewrite (staged_blit _ _ _ size) by lia.
    rewrite app_assoc.
    repeat split; auto; lia.
  - destruct (cflush fuel t) as [t1| | |] eqn:Ef; simpl in H;
      try discriminate.
    apply cflush_sound in Ef; [|assumption].
    destruct Ef as (St & Hp0 & Hdel).
    destruct (size >? BUF_SIZE) eqn:Eb.
    + destruct (len mem <? size); [discriminate|].
      destruct (write_all fuel (fd t1) mem size) as [fd'| | |] eqn:Ew;
        simpl in H; try discriminate.
      inversion H; subst t'; clear H.
      apply write_all_sound in Ew; [|lia].
      destruct Ew as (H1 & H2 & H3 & H4 & H5).
      rewrite <- (app_nil_l (sub mem 0 size)).
      eapply out_step_trans; [exact St|].
      destruct St as ((W1p & W1l) & _).
      unfold out_step, wf_out, sent, staged, same_input. simpl.
      rewrite H1, Hp0. rewrite !sub_nil, !app_nil_r.
      repeat split; auto; lia.
    + destruct (memcpy_n (output_buffer t1) 0 mem size)
        as [b| | |] eqn:Em; simpl in H; try discriminate.
      inversion H; subst t'; clear H.
      apply memcpy_n_inv in Em. destruct Em as (_ & Ho & Hd & ->).
      rewrite <- (app_nil_l (sub mem 0 size)).
      eapply out_step_trans; [exact St|].
      destruct St as ((W1p & W1l) & _).
      unfold out_step, wf_out, sent, staged, same_input. simpl.
      rewrite len_blit by lia. rewrite Hp0.
      rewrite sub_nil, app_nil_r.
      pose proof (staged_blit (output_buffer t1) 0 (sub mem 0 size) size)
        as Hb.
      simpl in Hb. rewrite Hb by lia.
      repeat split; auto; lia.
Qed.

Lemma write_bytes_runs (fuel : nat) (t : channel) (mem : list byte)
    (size : Z) :
  wf_out t -> 0 <= size <= len mem -> size <= INT_MAX - BUF_SIZE ->
  wbenign (fd t) = true -> (length (wsched (fd t)) < fuel)%nat ->
  exists t', write_bytes fuel t mem size = Ret t'.
Proof.
  intros W Hs Hm Hb Hf. unfold write_bytes.
  assert (Hw : wrap_int (output_pos t + size) = output_pos t + size).
  { destruct W as [Wp Wl]. apply wrap_int_small.
    unfold INT_MAX, BUF_SIZE in *. lia. }
  rewrite Hw. clear Hw.
  destruct (output_pos t + size <=? BUF_SIZE) eqn:E.
  - destruct W as [Wp Wl].
    rewrite memcpy_n_Ret by lia. simpl. eauto.
  - destruct (cflush_runs fuel t W Hb Hf) as [t1 Ef]. rewrite Ef. simpl.
    apply cflush_sound in Ef; [|assumption].
    destruct Ef as ((W1 & _ & _ & B1 & L1) & Hp0 & _).
    destruct (size >? BUF_SIZE) eqn:Eb.
    + destruct (len mem <? size) eqn:El; [lia|].
      destruct (write_all_runs fuel (fd t1) mem size) as [fd' Hw];
        auto; [lia|].
      rewrite Hw. simpl. eauto.
    + destruct W1 as [W1p W1l].
      rewrite memcpy_n_Ret by lia. simpl. eauto.
Qed.

End Output.

Section Encoders.

Context {env : environment}.

Lemma bind_ret_r {A : Type} (m : outcome A) : (x <- m;; Ret x) = m.
Proof. destruct m; reflexivity. Qed.

Lemma bind_assoc {A B C : Type} (m : outcome A) (f : A -> outcome B)
    (g : B -> outcome C) :
  bind (bind m f) g = bind m (fun x => bind (f x) g).
Proof. destruct m; reflexivity. Qed.

Lemma cflush_buf (fuel : nat) (t t' : channel) :
  cflush fuel t = Ret t' -> buf t' = buf t.
Proof.
  unfold cflush. destruct (output_pos t =? 0).
  - intros H; inversion H; reflexivity.
  - destruct (write_all fuel (fd t) (output_buffer t) (output_pos t));
      simpl; intros H; inversion H; reflexivity.
Qed.

Lemma write_bytes_buf (fuel : nat) (t t' : channel) (mem : list byte)
    (size : Z) :
  write_bytes fuel t mem size = Ret t' -> buf t' = buf t.
Proof.
  unfold write_bytes.
  destruct (wrap_int (output_pos t + size) <=? BUF_SIZE).
  - destruct (memcpy_n (output_buffer t) (output_pos t) mem size);
      simpl; intros H; inversion H; reflexivity.
  - destruct (cflush fuel t) as [t1| | |] eqn:E; simpl; try discriminate.
    apply cflush_buf in E.
    destruct (size >? BUF_SIZE).
    + destruct (len mem <? size); [discriminate|].
      destruct (write_all fuel (fd t1) mem size); simpl;
        intros H; inversion H; simpl; assumption.
    + destruct (memcpy_n (output_buffer t1) 0 mem size); simpl;
        intros H; inversion H; simpl; assumption.
Qed.

Lemma write_seq_buf (fuel : nat) (ws : list wcall) :
  forall t t', write_seq fuel t ws = Ret t' -> buf t' = buf t.
Proof.
  induction ws as [|w ws IH]; intros t t' H; simpl in H.
  - inversion H; reflexivity.
  - destruct (write_bytes fuel t (fst w) (snd w)) as [t1| | |] eqn:E;
      simpl in H; try discriminate.
    apply write_bytes_buf in E. apply IH in H. congruence.
Qed.

Lemma write_seq_app (fuel : nat) (ws1 ws2 : list wcall) :
  forall t,
    write_seq fuel t (ws1 ++ ws2) =
    (t' <- write_seq fuel t ws1;; write_seq fuel t' ws2).
Proof.
  induction ws1 as [|w ws1 IH]; intros t; simpl; [reflexivity|].
  destruct (write_bytes fuel t (fst w) (snd w)); simpl; auto.
Qed.

(** Peel the leading call off both sides of an equation between two chains
    of writer calls. *)
Ltac peel :=
  repeat match goal with
  | |- bind (bind _ _) _ = _ => rewrite bind_assoc
  | |- bind ?m _ = bind ?m _ =>
      let E := fresh "E" in
      destruct m eqn:E; simpl; try reflexivity
  | |- ?m = bind ?m _ => symmetry; apply bind_ret_r
  end.

Lemma channel_write_answer_calls (fuel : nat) (t : channel) (a : answer_t) :
  channel_write_answer fuel t a =
  match answer_calls (buf t) a with
  | Some ws => write_seq fuel t ws
  | None => _ <- write_u32 fuel t (a_tag a);; Abort
  end.
Proof.
  unfold channel_write_answer, answer_calls.
  destruct (a_tag a =? A_DONE); [simpl; unfold write_u32; peel|].
  destruct (a_tag a =? A_PASS); [simpl; unfold write_u32; peel|].
  destruct (a_tag a =? A_FORK); [simpl; unfold write_u32; peel|].
  destruct (a_tag a =? A_READ).
  { simpl. unfold write_u32.
    destruct (write_bytes fuel t (bytes_of_u32 (u32 (a_tag a))) 4)
      as [t1| | |] eqn:E1; simpl; try reflexivity.
    destruct (write_bytes fuel t1 (bytes_of_u32 (u32 (read_size a))) 4)
      as [t2| | |] eqn:E2; simpl; try reflexivity.
    apply write_bytes_buf in E1, E2. rewrite E2, E1.
    symmetry; apply bind_ret_r. }
  destruct (a_tag a =? A_ACCS); [simpl; unfold write_u32; peel|].
  destruct (a_tag a =? A_STAT).
  { destruct (accs_flag a =? ACCS_OK); simpl;
      unfold write_time, write_u32; simpl; peel. }
  destruct (a_tag a =? A_SIZE); [simpl; unfold write_u32; peel|].
  destruct (a_tag a =? A_OPEN).
  { simpl. unfold write_u32.
    destruct (write_bytes fuel t (bytes_of_u32 (u32 (a_tag a))) 4)
      as [t1| | |] eqn:E1; simpl; try reflexivity.
    destruct (write_bytes fuel t1 (bytes_of_u32 (u32 (open_size a))) 4)
      as [t2| | |] eqn:E2; simpl; try reflexivity.
    apply write_bytes_buf in E1, E2. rewrite E2, E1.
    symmetry; apply bind_ret_r. }
  destruct (a_tag a =? A_GPIC);
    [simpl; unfold write_f32, write_u32; peel|].
  reflexivity.
Qed.

Lemma channel_write_ask_calls (fuel : nat) (t : channel) (k : ask_t) :
  channel_write_ask fuel t k =
  match ask_calls k with
  | Some ws => write_seq fuel t ws
  | None => _ <- write_u32 fuel t (k_tag k);; Abort
  end.
Proof.
  unfold channel_write_ask, ask_calls.
  destruct (k_tag k =? C_TERM); [simpl; unfold write_u32; peel|].
  destruct (k_tag k =? C_FLSH); [simpl; unfold write_u32; peel|].
  reflexivity.
Qed.

Lemma write_messages_calls (fuel : nat) (ms : list message) :
  forall t ws,
    messages_calls (buf t) ms = Some ws ->
    write_messages fuel t ms = write_seq fuel t ws.
Proof.
  induction ms as [|m ms IH]; intros t ws H; simpl in H.
  - inversion H; reflexivity.
  - destruct (message_calls (buf t) m) as [w1|] eqn:E1; [|discriminate].
    destruct (messages_calls (buf t) ms) as [w2|] eqn:E2; [|discriminate].
    inversion H; subst ws; clear H.
    simpl. rewrite write_seq_app.
    assert (Hm : write_message fuel t m = write_seq fuel t w1).
    { destruct m as [a|k]; simpl in *.
      - rewrite channel_write_answer_calls, E1. reflexivity.
      - rewrite channel_write_ask_calls, E1. reflexivity. }
    rewrite Hm.
    destruct (write_seq fuel t w1) as [t1| | |] eqn:E; simpl; auto.
    apply write_seq_buf in E. apply IH. rewrite E. assumption.
Qed.

End Encoders.

Lemma write_seq_sound (fuel : nat) (ws : list wcall) :
  forall t t',
    wf_out t -> Forall wcall_ok ws ->
    write_seq fuel t ws = Ret t' ->
    out_step t t' (concat (map wcall_bytes ws)).
Proof.
  induction ws as [|w ws IH]; intros t t' W Hok H; simpl in H.
  - inversion H; subst. apply out_step_refl. assumption.
  - inversion Hok as [|? ? [Hw1 Hw2] Hrest]; subst.
    destruct (write_bytes fuel t (fst w) (snd w)) as [t1| | |] eqn:E;
      simpl in H; try discriminate.
    apply write_bytes_sound in E; auto.
    simpl. eapply out_step_trans; [exact E|].
    apply IH; auto. apply E.
Qed.

Lemma write_seq_runs (fuel : nat) (ws : list wcall) :
  forall t,
    wf_out t -> Forall wcall_ok ws ->
    wbenign (fd t) = true -> (length (wsched (fd t)) < fuel)%nat ->
    exists t', write_seq fuel t ws = Ret t'.
Proof.
  induction ws as [|w ws IH]; intros t W Hok Hb Hf; simpl; [eauto|].
  inversion Hok as [|? ? [Hw1 Hw2] Hrest]; subst.
  destruct (write_bytes_runs fuel t (fst w) (snd w)) as [t1 E]; auto.
  rewrite E. simpl.
  apply write_bytes_sound in E; auto.
  destruct E as (W1 & _ & _ & B1 & L1).
  apply IH; auto. lia.
Qed.

Lemma write_seq_flush_sound (fuel : nat) (t t' : channel)
    (ws : list wcall) :
  wf_out t -> Forall wcall_ok ws ->
  (t1 <- write_seq fuel t ws;; cflush fuel t1) = Ret t' ->
  delivered (fd t') =
    delivered (fd t) ++ staged t ++ concat (map wcall_bytes ws) /\
  output_pos t' = 0.
Proof.
  intros W Hok H.
  destruct (write_seq fuel t ws) as [t1| | |] eqn:E; simpl in H;
    try discriminate.
  apply write_seq_sound in E; auto.
  destruct E as (W1 & S1 & _).
  apply cflush_sound in H; auto.
  destruct H as (_ & Hp & Hd).
  rewrite Hd, S1. unfold sent. rewrite <- app_assoc. auto.
Qed.

Lemma write_seq_flush_runs (fuel : nat) (t : channel) (ws : list wcall) :
  wf_out t -> Forall wcall_ok ws ->
  wbenign (fd t) = true -> (length (wsched (fd t)) < fuel)%nat ->
  exists t', (t1 <- write_seq fuel t ws;; cflush fuel t1) = Ret t'.
Proof.
  intros W Hok Hb Hf.
  destruct (write_seq_runs fuel ws t W Hok Hb Hf) as [t1 E].
  rewrite E. simpl.
  apply write_seq_sound in E; auto.
  destruct E as (W1 & _ & _ & B1 & L1).
  apply cflush_runs; auto. lia.
Qed.

Section Answers.

Context {env : environment}.

Lemma u32_call_ok (u : Z) : wcall_ok (u32_call u).
Proof. unfold wcall_ok, u32_call, INT_MAX, BUF_SIZE, len. simpl. lia. Qed.

Lemma f32_call_ok (f : Z) : wcall_ok (f32_call f).
Proof. unfold wcall_ok, f32_call, INT_MAX, BUF_SIZE, len. simpl. lia. Qed.

Lemma stat_calls_ok (st : stat_answer) : Forall wcall_ok (stat_calls st).
Proof.
  unfold stat_calls, time_calls. simpl.
  repeat (constructor; [apply u32_call_ok|]). constructor.
Qed.

Lemma stat_calls_bytes (st : stat_answer) :
  concat (map wcall_bytes (stat_calls st)) = stat_record st.
Proof. reflexivity. Qed.

Lemma len_stat_record (st : stat_answer) : len (stat_record st) = 64.
Proof. reflexivity. Qed.

End Answers.

(** ** The input side: system calls *)

Lemma fd_step_refl (s : stream) : fd_step s s [].
Proof. unfold fd_step. simpl. auto. Qed.

Lemma fd_step_trans (s1 s2 s3 : stream) (b1 b2 : list byte) :
  fd_step s1 s2 b1 -> fd_step s2 s3 b2 -> fd_step s1 s3 (b1 ++ b2).
Proof.
  intros (I1 & W1 & D1 & B1 & L1) (I2 & W2 & D2 & B2 & L2).
  unfold fd_step. rewrite I1, I2, <- app_assoc.
  repeat split; auto; try congruence. lia.
Qed.

Lemma read_Ok (s s' : stream) (size : Z) (data : list byte) :
  read s size = (Ok data, s') ->
  fd_step s s' data /\ len data <= Z.max 0 size /\
  (rsched s = [] -> len data = Z.min (Z.max 0 size) (len (incoming s))) /\
  (rsched s <> [] -> (length (rsched s') < length (rsched s))%nat /\
                     (0 < size -> incoming s <> [] -> 0 < len data)).
Proof.
  unfold read, take_read, fd_step, rbenign.
  destruct (rsched s) as [|[| |k] r] eqn:E; intros H;
    try discriminate.
  - inversion H; subst; clear H. cbn [incoming rsched wsched delivered].
    rewrite firstn_skipn. unfold len. rewrite length_firstn.
    repeat split; auto; try lia; congruence.
  - assert (Hn : (Nat.min (S k) (Z.to_nat size) <= Z.to_nat size)%nat /\
                 (0 < size -> (0 < Nat.min (S k) (Z.to_nat size))%nat))
      by lia.
    revert H Hn. generalize (Nat.min (S k) (Z.to_nat size)). intros n H Hn.
    inversion H; subst; clear H. cbn [incoming rsched wsched delivered].
    rewrite firstn_skipn. unfold len. rewrite length_firstn.
    repeat split; auto; try lia; try discriminate.
    + simpl. lia.
    + intros Hs Hi. destruct (incoming s); [congruence|].
      cbn [length]. lia.
Qed.

Lemma read_Err (s s' : stream) (size : Z) (e : errno) :
  read s size = (Err e, s') ->
  fd_step s s' [] /\
  (length (rsched s') < length (rsched s))%nat /\
  (rbenign s = true -> e = EINTR).
Proof.
  unfold read, take_read, fd_step, rbenign.
  destruct (rsched s) as [|[| |k] r] eqn:E; intros H; inversion H; subst;
    clear H; simpl; repeat split; auto; discriminate.
Qed.

Lemma buffered_read_loop_sound (fuel : nat) :
  forall fd got atleast size data fd',
    buffered_read_loop fuel fd got atleast size = Ret (data, fd') ->
    exists more,
      data = got ++ more /\ fd_step fd fd' more /\
      len more <= Z.max 0 size /\ atleast <= len data.
Proof.
  induction fuel as [|fuel IH]; intros fd got atleast size data fd' H;
    simpl in H; [discriminate|].
  destruct (read fd size) as [[e|d] fd1] eqn:Er.
  - destruct e; [|discriminate].
    apply read_Err in Er. destruct Er as (S1 & _).
    apply IH in H. destruct H as (more & -> & S2 & Hl & Ha).
    exists more. split; [reflexivity|]. split; [|split; assumption].
    apply (fd_step_trans fd fd1 fd' [] more S1 S2).
  - apply read_Ok in Er. destruct Er as (S1 & Hd & _).
    destruct (len (got ++ d) >=? atleast) eqn:E.
    + inversion H; subst. exists d.
      split; [reflexivity|]. split; [assumption|]. split; lia.
    + apply IH in H. destruct H as (more & -> & S2 & Hl & Ha).
      exists (d ++ more). rewrite app_assoc.
      split; [reflexivity|]. split; [|split; [|assumption]].
      * eapply fd_step_trans; eassumption.
      * rewrite len_app. pose proof (len_nonneg d). lia.
Qed.

Lemma buffered_read_loop_runs (fuel : nat) :
  forall fd got atleast size,
    rbenign fd = true ->
    atleast - len got <= len (incoming fd) ->
    atleast - len got <= size ->
    (length (rsched fd) < fuel)%nat ->
    exists data fd', buffered_read_loop fuel fd got atleast size
                     = Ret (data, fd').
Proof.
  induction fuel as [|fuel IH]; intros fd got atleast size Hb Hi Hs Hf;
    [lia|].
  simpl. destruct (read fd size) as [[e|d] fd1] eqn:Er.
  - apply read_Err in Er. destruct Er as (S1 & L1 & He).
    rewrite (He Hb).
    destruct S1 as (I1 & _ & _ & B1 & _). simpl in I1.
    apply IH; auto; try lia. rewrite <- I1. assumption.
  - apply read_Ok in Er. destruct Er as (S1 & Hd & Hnil & Hcons).
    destruct (len (got ++ d) >=? atleast) eqn:E; [eauto|].
    rewrite len_app in E.
    destruct S1 as (I1 & _ & _ & B1 & _).
    destruct (rsched fd) as [|ev r] eqn:Es.
    + specialize (Hnil eq_refl). pose proof (len_nonneg got). lia.
    + destruct Hcons as [L1 _]; [discriminate|].
      apply IH; auto.
      * rewrite len_app. rewrite I1, len_app in Hi. lia.
      * rewrite len_app. lia.
      * simpl in *. lia.
Qed.

(** At end of file a refill that needs one more byte goes round for ever:
    whatever the fuel, the loop has neither returned nor aborted. *)
Lemma buffered_read_loop_spins (fuel : nat) :
  forall fd got atleast size,
    incoming fd = [] -> rbenign fd = true -> len got < atleast ->
    buffered_read_loop fuel fd got atleast size = Spin.
Proof.
  induction fuel as [|fuel IH]; intros fd got atleast size Hi Hb Hg;
    simpl; [reflexivity|].
  destruct (read fd size) as [[e|d] fd1] eqn:Er.
  - apply read_Err in Er. destruct Er as ((I1 & _ & _ & B1 & _) & _ & He).
    rewrite (He Hb). simpl in I1. apply IH; auto. congruence.
  - apply read_Ok in Er. destruct Er as ((I1 & _ & _ & B1 & _) & _).
    rewrite Hi in I1. symmetry in I1. apply app_eq_nil in I1.
    destruct I1 as [-> I1]. rewrite app_nil_r.
    destruct (len got >=? atleast) eqn:E; [lia|].
    apply IH; auto.
Qed.

(** ** The input side: the staging buffer *)

Lemma rd_step_refl (c : channel) : wf_in c -> rd_step c c [].
Proof.
  intros W. unfold rd_step, same_output. simpl. auto 10.
Qed.

Lemma same_output_trans (c1 c2 c3 : channel) :
  same_output c1 c2 -> same_output c2 c3 -> same_output c1 c3.
Proof.
  unfold same_output. intros (A1 & A2 & A3 & A4) (B1 & B2 & B3 & B4).
  repeat split; congruence.
Qed.

Lemma same_scratch_trans (c1 c2 c3 : channel) :
  same_scratch c1 c2 -> same_scratch c2 c3 -> same_scratch c1 c3.
Proof.
  unfold same_scratch. intros (A1 & A2 & A3) (B1 & B2 & B3).
  repeat split; congruence.
Qed.

Lemma same_scratch_refl (c : channel) : same_scratch c c.
Proof. unfold same_scratch. auto. Qed.

Lemma rd_step_trans (c1 c2 c3 : channel) (b1 b2 : list byte) :
  rd_step c1 c2 b1 -> rd_step c2 c3 b2 -> rd_step c1 c3 (b1 ++ b2).
Proof.
  intros (W1 & U1 & O1 & B1 & L1) (W2 & U2 & O2 & B2 & L2).
  unfold rd_step. rewrite U1, U2, <- app_assoc.
  split; [exact W2|]. split; [reflexivity|].
  split; [eauto using same_output_trans|]. split; [auto|lia].
Qed.

Lemma sub_all (l : list byte) (n : Z) : len l = n -> sub l 0 n = l.
Proof.
  intros <-. unfold sub, len. simpl. rewrite Nat2Z.id. apply firstn_all.
Qed.

Lemma len_pending (c : channel) :
  wf_in c -> len (pending c) = input_len c - input_pos c.
Proof.
  intros (Hp & Hl & Hb). unfold pending. apply len_sub; lia.
Qed.

Section Input.

Context {env : environment}.

Lemma crefill_sound (fuel : nat) (c c' : channel) (at_least : Z) :
  wf_in c ->
  crefill fuel c at_least = Ret c' ->
  rd_step c c' [] /\ same_scratch c c' /\ input_pos c' = 0 /\
  input_len c - input_pos c + at_least <= input_len c' /\
  exists more, pending c' = pending c ++ more /\
               fd_step (fd c) (fd c') more.
Proof.
  intros W H. pose proof (len_pending c W) as Hlp.
  destruct W as (Hp & Hl & Hb).
  unfold crefill in H. fold (pending c) in H.
  rewrite memcpy_Ret in H by lia. cbn [bind] in H.
  unfold buffered_read_at_least in H.
  destruct (BUF_SIZE - (input_len c - input_pos c) <? at_least) eqn:E;
    [discriminate|].
  destruct (buffered_read_loop fuel (fd c) [] at_least
              (BUF_SIZE - (input_len c - input_pos c)))
    as [[data fd']| | |] eqn:El; cbn [bind] in H; try discriminate.
  apply buffered_read_loop_sound in El.
  destruct El as (more & Hd & St & Hm & Ha). simpl in Hd. subst more.
  set (b := blit (input_buffer c) 0 (pending c)) in *.
  assert (Hlb : len b = BUF_SIZE) by (unfold b; rewrite len_blit; lia).
  pose proof (len_nonneg data) as Hdn.
  rewrite memcpy_Ret in H by lia. cbn [bind] in H.
  inversion H; subst c'; clear H.
  assert (Hpend : pending
            (set_input (set_fd c fd')
               (blit b (input_len c - input_pos c) data) 0
               (input_len c - input_pos c + len data))
          = pending c ++ data).
  { assert (Hs : sub b 0 (input_len c - input_pos c) = pending c).
    { pose proof (sub_blit_at (input_buffer c) 0 (pending c)) as Hs.
      rewrite Hlp in Hs. apply Hs; lia. }
    unfold pending at 1. simpl. rewrite Z.sub_0_r.
    rewrite (staged_blit _ _ _ (len data)) by lia.
    rewrite Hs. reflexivity. }
  split; [|split; [|split; [|split]]].
  - unfold rd_step. split; [|split; [|split]].
    + unfold wf_in. simpl. rewrite len_blit by lia. lia.
    + unfold unread. rewrite Hpend. simpl.
      destruct St as (I1 & _). rewrite I1, app_assoc. reflexivity.
    + unfold same_output. simpl. destruct St as (_ & W1 & D1 & _). auto.
    + simpl. destruct St as (_ & _ & _ & B1 & L1). auto.
  - unfold same_scratch. simpl. auto.
  - reflexivity.
  - simpl. lia.
  - exists data. split; assumption.
Qed.

Lemma crefill_runs (fuel : nat) (c : channel) (at_least : Z) :
  wf_in c -> rbenign (fd c) = true ->
  at_least <= len (incoming (fd c)) ->
  input_len c - input_pos c + at_least <= BUF_SIZE ->
  (length (rsched (fd c)) < fuel)%nat ->
  exists c', crefill fuel c at_least = Ret c'.
Proof.
  intros W Hb Ha Hs Hf. pose proof (len_pending c W) as Hlp.
  destruct W as (Hp & Hl & Hbuf).
  unfold crefill. fold (pending c).
  rewrite memcpy_Ret by lia. cbn [bind].
  unfold buffered_read_at_least.
  destruct (BUF_SIZE - (input_len c - input_pos c) <? at_least) eqn:E;
    [lia|].
  destruct (buffered_read_loop_runs fuel (fd c) [] at_least
              (BUF_SIZE - (input_len c - input_pos c)))
    as (data & fd' & El); auto; try (change (len []) with 0; lia).
  rewrite El. cbn [bind].
  apply buffered_read_loop_sound in El.
  destruct El as (more & Hd & St & Hm & _). simpl in Hd. subst more.
  pose proof (len_nonneg data) as Hdn.
  rewrite memcpy_Ret; [cbn [bind]; eauto|lia|].
  rewrite len_blit; lia.
Qed.

End Input.

Lemma buffered_read_loop_none (fuel : nat) :
  forall fd got atleast size fd',
    buffered_read_loop fuel fd got atleast size = Ret (got, fd') ->
    0 < size -> incoming fd = [].
Proof.
  induction fuel as [|fuel IH]; intros fd got atleast size fd' H Hs;
    simpl in H; [discriminate|].
  destruct (read fd size) as [[e|d] fd1] eqn:Er.
  - destruct e; [|discriminate].
    apply read_Err in Er. destruct Er as ((I1 & _) & _).
    apply IH in H; auto. simpl in I1. congruence.
  - apply read_Ok in Er. destruct Er as (S1 & Hd & Hnil & Hcons).
    assert (Hd0 : d = []).
    { destruct (len (got ++ d) >=? atleast).
      - inversion H as [[Hg Hf]].
        rewrite <- (app_nil_r got) in Hg at 2.
        apply app_inv_head in Hg. assumption.
      - apply buffered_read_loop_sound in H.
        destruct H as (more & Hg & _).
        rewrite <- app_assoc in Hg.
        rewrite <- (app_nil_r got) in Hg at 1.
        apply app_inv_head in Hg. symmetry in Hg.
        apply app_eq_nil in Hg. tauto. }
    subst d. change (len []) with 0 in *.
    destruct (rsched fd) as [|ev r] eqn:Es.
    + specialize (Hnil eq_refl).
      destruct (incoming fd) as [|x l]; [reflexivity|].
      unfold len in Hnil. simpl length in Hnil. lia.
    + destruct Hcons as [_ Hc]; [discriminate|].
      destruct (incoming fd) as [|x l]; [reflexivity|].
      assert (Hx : x :: l <> []) by discriminate.
      specialize (Hc Hs Hx). lia.
Qed.

Lemma app_eq_len (l1 l2 r1 r2 : list byte) :
  l1 ++ r1 = l2 ++ r2 -> length l1 = length l2 -> l1 = l2 /\ r1 = r2.
Proof.
  revert l2. induction l1 as [|x l1 IH]; intros [|y l2] H Hl;
    simpl in *; try discriminate; auto.
  inversion H; subst. destruct (IH l2) as [-> ->]; auto.
Qed.

Lemma sub_split (l : list byte) (off n m : Z) :
  0 <= off -> 0 <= n -> 0 <= m ->
  sub l off (n + m) = sub l off n ++ sub l (off + n) m.
Proof.
  intros Ho Hn Hm. unfold sub.
  replace (Z.to_nat (n + m)) with (Z.to_nat n + Z.to_nat m)%nat by lia.
  rewrite firstn_plus, skipn_skipn.
  replace (Z.to_nat (off + n)) with (Z.to_nat n + Z.to_nat off)%nat by lia.
  reflexivity.
Qed.

Section Words.

Context {env : environment}.

Lemma crefill_none (fuel : nat) (c c' : channel) (at_least : Z) :
  wf_in c ->
  crefill fuel c at_least = Ret c' ->
  input_len c' = input_len c - input_pos c ->
  input_len c - input_pos c < BUF_SIZE ->
  incoming (fd c) = [].
Proof.
  intros W H Hn Hs. pose proof (len_pending c W) as Hlp.
  destruct W as (Hp & Hl & Hb).
  unfold crefill in H. fold (pending c) in H.
  rewrite memcpy_Ret in H by lia. cbn [bind] in H.
  unfold buffered_read_at_least in H.
  destruct (BUF_SIZE - (input_len c - input_pos c) <? at_least) eqn:E;
    [discriminate|].
  destruct (buffered_read_loop fuel (fd c) [] at_least
              (BUF_SIZE - (input_len c - input_pos c)))
    as [[data fd']| | |] eqn:El; cbn [bind] in H; try discriminate.
  destruct (memcpy (blit (input_buffer c) 0 (pending c))
              (input_len c - input_pos c) data) as [b'| | |];
    cbn [bind] in H; try discriminate.
  inversion H; subst c'; clear H. simpl in Hn.
  assert (data = []).
  { destruct data; [reflexivity|]. unfold len in Hn. simpl length in Hn.
    lia. }
  subst data. apply buffered_read_loop_none in El; [assumption|lia].
Qed.

(** Consuming [n] staged bytes. *)
Lemma advance (c : channel) (n : Z) :
  wf_in c -> 0 <= n <= input_len c - input_pos c ->
  rd_step c (set_input_pos c (input_pos c + n))
    (sub (input_buffer c) (input_pos c) n) /\
  same_scratch c (set_input_pos c (input_pos c + n)).
Proof.
  intros (Hp & Hl & Hb) Hn. split; [|unfold same_scratch; simpl; auto].
  unfold rd_step. split; [|split; [|split; [|split]]].
  - unfold wf_in. simpl. lia.
  - unfold unread, pending. simpl.
    replace (input_len c - input_pos c)
      with (n + (input_len c - (input_pos c + n))) by lia.
    rewrite sub_split by lia. rewrite <- app_assoc. reflexivity.
  - unfold same_output. simpl. auto.
  - simpl. auto.
  - simpl. lia.
Qed.

Lemma read_u32_sound (fuel : nat) (c c' : channel) (v : Z) :
  wf_in c ->
  read_u32 fuel c = Ret (v, c') ->
  exists bs, len bs = 4 /\ v = u32_of_bytes bs /\ rd_step c c' bs /\
             same_scratch c c'.
Proof.
  intros W H. unfold read_u32 in H.
  destruct (input_len c - input_pos c <? 4) eqn:E.
  - destruct (crefill fuel c (4 - (input_len c - input_pos c)))
      as [c1| | |] eqn:Ec; cbn [bind] in H; try discriminate.
    inversion H; subst; clear H.
    apply crefill_sound in Ec; [|assumption].
    destruct Ec as (S1 & Sc & Hp0 & Hlen & _).
    assert (W1 : wf_in c1) by apply S1.
    destruct (advance c1 4) as [S2 Sc2]; [assumption|lia|].
    exists (sub (input_buffer c1) (input_pos c1) 4).
    split; [|split; [reflexivity|split]].
    + destruct W1 as (Hp & Hl & Hb). apply len_sub; lia.
    + apply (rd_step_trans c c1 _ [] _ S1 S2).
    + eapply same_scratch_trans; eassumption.
  - cbn [bind] in H. inversion H; subst; clear H.
    destruct (advance c 4) as [S2 Sc2]; [assumption|lia|].
    exists (sub (input_buffer c) (input_pos c) 4).
    split; [|split; [reflexivity|split; assumption]].
    destruct W as (Hp & Hl & Hb). apply len_sub; lia.
Qed.

Lemma len_unread (c : channel) :
  wf_in c ->
  len (unread c) = input_len c - input_pos c + len (incoming (fd c)).
Proof.
  intros W. unfold unread. rewrite len_app, len_pending; auto.
Qed.

Lemma read_u32_runs (fuel : nat) (c : channel) :
  wf_in c -> rbenign (fd c) = true -> 4 <= len (unread c) ->
  (length (rsched (fd c)) < fuel)%nat ->
  exists v c', read_u32 fuel c = Ret (v, c').
Proof.
  intros W Hb Hu Hf. rewrite len_unread in Hu by assumption.
  unfold read_u32.
  destruct (input_len c - input_pos c <? 4) eqn:E.
  - destruct (crefill_runs fuel c (4 - (input_len c - input_pos c)))
      as [c1 Ec]; auto; try (unfold BUF_SIZE; lia).
    rewrite Ec. cbn [bind]. eauto.
  - cbn [bind]. eauto.
Qed.

(** With enough fuel [read_u32] returns the word that the next four unread
    bytes represent and consumes them. *)
Lemma read_u32_spec (fuel : nat) (c : channel) (bs rest : list byte) :
  wf_in c -> rbenign (fd c) = true ->
  unread c = bs ++ rest -> len bs = 4 ->
  (length (rsched (fd c)) < fuel)%nat ->
  exists c', read_u32 fuel c = Ret (u32_of_bytes bs, c') /\
             rd_step c c' bs /\ same_scratch c c' /\ unread c' = rest.
Proof.
  intros W Hb Hu Hl Hf.
  destruct (read_u32_runs fuel c) as (v & c' & H); auto.
  { rewrite Hu, len_app. pose proof (len_nonneg rest). lia. }
  exists c'. pose proof H as H'.
  apply read_u32_sound in H'; [|assumption].
  destruct H' as (bs' & Hl' & -> & St & Sc).
  assert (Heq : bs' = bs /\ unread c' = rest).
  { destruct St as (_ & U & _). rewrite Hu in U. symmetry in U.
    apply app_eq_len in U; [assumption|]. unfold len in *. lia. }
  destruct Heq as [-> Hr]. auto.
Qed.

Lemma read_f32_is_read_u32 (fuel : nat) (c : channel) :
  read_f32 fuel c = read_u32 fuel c.
Proof. reflexivity. Qed.

End Words.

Section TryRead.

Context {env : environment}.

Lemma try_read_u32_sound (fuel : nat) (c c' : channel) (o : option Z) :
  wf_in c ->
  try_read_u32 fuel c = Ret (o, c') ->
  same_scratch c c' /\
  match o with
  | None =>
      input_pos c = input_len c /\ incoming (fd c) = [] /\ rd_step c c' []
  | Some v =>
      exists bs, len bs = 4 /\ v = u32_of_bytes bs /\ rd_step c c' bs
  end.
Proof.
  intros W H. unfold try_read_u32 in H.
  assert (H1 : exists c1,
    (if input_len c - input_pos c =? 0 then crefill fuel c 0 else Ret c)
      = Ret c1).
  { destruct (if input_len c - input_pos c =? 0 then crefill fuel c 0
              else Ret c) as [c1| | |]; try discriminate. eauto. }
  destruct H1 as [c1 H1]. rewrite H1 in H. cbn [bind] in H.
  assert (S1 : rd_step c c1 [] /\ same_scratch c c1 /\
               (input_len c1 - input_pos c1 = 0 ->
                input_pos c = input_len c /\ incoming (fd c) = [])).
  { destruct (input_len c - input_pos c =? 0) eqn:E.
    - pose proof H1 as H1'. apply crefill_sound in H1'; [|assumption].
      destruct H1' as (St & Sc & Hp0 & Hlen & _).
      split; [assumption|]. split; [assumption|].
      intros Hz. split; [lia|].
      eapply crefill_none; eauto; try lia.
      destruct W as (Hp & Hl & Hb). unfold BUF_SIZE. lia.
    - inversion H1; subst c1.
      split; [apply rd_step_refl; assumption|].
      split; [apply same_scratch_refl|]. lia. }
  destruct S1 as (S1 & Sc1 & Hnone).
  assert (W1 : wf_in c1) by apply S1.
  destruct (input_len c1 - input_pos c1 =? 0) eqn:E0.
  - inversion H; subst; clear H. split; [assumption|].
    destruct Hnone as [Hn1 Hn2]; [lia|]. auto.
  - assert (H2 : exists c2,
      (if input_len c1 - input_pos c1 <? 4
       then crefill fuel c1 (4 - (input_len c1 - input_pos c1))
       else Ret c1) = Ret c2).
    { destruct (if input_len c1 - input_pos c1 <? 4
                then crefill fuel c1 (4 - (input_len c1 - input_pos c1))
                else Ret c1) as [c2| | |]; try discriminate. eauto. }
    destruct H2 as [c2 H2]. rewrite H2 in H. cbn [bind] in H.
    inversion H; subst; clear H.
    assert (S2 : rd_step c1 c2 [] /\ same_scratch c1 c2 /\
                 4 <= input_len c2 - input_pos c2).
    { destruct (input_len c1 - input_pos c1 <? 4) eqn:E4.
      - apply crefill_sound in H2; [|assumption].
        destruct H2 as (St & Sc & Hp0 & Hlen & _).
        split; [assumption|]. split; [assumption|]. lia.
      - inversion H2; subst c2.
        split; [apply rd_step_refl; assumption|].
        split; [apply same_scratch_refl|]. lia. }
    destruct S2 as (S2 & Sc2 & H4).
    assert (W2 : wf_in c2) by apply S2.
    destruct (advance c2 4) as [S3 Sc3]; [assumption|lia|].
    split; [eauto using same_scratch_trans|].
    exists (sub (input_buffer c2) (input_pos c2) 4).
    split; [|split; [reflexivity|]].
    + destruct W2 as (Hp & Hl & Hb). apply len_sub; lia.
    + apply (rd_step_trans c c1 _ [] _ S1).
      apply (rd_step_trans c1 c2 _ [] _ S2 S3).
Qed.

Lemma rd_step_len (c c' : channel) (bs : list byte) :
  rd_step c c' bs -> len (unread c) = len bs + len (unread c').
Proof. intros (_ & U & _). rewrite U, len_app. reflexivity. Qed.

Lemma try_read_u32_runs (fuel : nat) (c : channel) :
  wf_in c -> rbenign (fd c) = true ->
  len (unread c) = 0 \/ 4 <= len (unread c) ->
  (length (rsched (fd c)) < fuel)%nat ->
  exists o c', try_read_u32 fuel c = Ret (o, c').
Proof.
  intros W Hb Hu Hf. unfold try_read_u32.
  assert (H1 : exists c1,
    (if input_len c - input_pos c =? 0 then crefill fuel c 0 else Ret c)
      = Ret c1 /\ rd_step c c1 []).
  { destruct (input_len c - input_pos c =? 0) eqn:E.
    - destruct (crefill_runs fuel c 0) as [c1 Hc]; auto.
      + apply len_nonneg.
      + unfold BUF_SIZE. lia.
      + exists c1. split; [assumption|].
        apply crefill_sound in Hc; [apply Hc|assumption].
    - exists c. split; [reflexivity|apply rd_step_refl; assumption]. }
  destruct H1 as (c1 & H1 & S1). rewrite H1. cbn [bind].
  assert (W1 : wf_in c1) by apply S1.
  destruct (input_len c1 - input_pos c1 =? 0) eqn:E0; [eauto|].
  destruct (input_len c1 - input_pos c1 <? 4) eqn:E4; [|cbn [bind]; eauto].
  pose proof (rd_step_len _ _ _ S1) as Hl. change (len []) with 0 in Hl.
  rewrite (len_unread c1 W1) in Hl.
  pose proof W1 as (Hp1 & Hl1 & Hb1).
  apply Z.eqb_neq in E0. apply Z.ltb_lt in E4.
  pose proof (len_nonneg (incoming (fd c1))) as Hin.
  destruct (crefill_runs fuel c1 (4 - (input_len c1 - input_pos c1)))
    as [c2 Hc].
  - assumption.
  - apply S1. assumption.
  - lia.
  - unfold BUF_SIZE. lia.
  - destruct S1 as (_ & _ & _ & _ & L1). lia.
  - rewrite Hc. cbn [bind]. eauto.
Qed.

(** With enough fuel: [false] on an input that is exhausted, otherwise
    the word that the next four unread bytes represent. *)
Lemma try_read_u32_spec (fuel : nat) (c : channel) :
  wf_in c -> rbenign (fd c) = true ->
  (length (rsched (fd c)) < fuel)%nat ->
  (unread c = [] ->
   exists c', try_read_u32 fuel c = Ret (None, c') /\ rd_step c c' [] /\
              same_scratch c c') /\
  (forall bs rest,
      unread c = bs ++ rest -> len bs = 4 ->
      exists c', try_read_u32 fuel c = Ret (Some (u32_of_bytes bs), c') /\
                 rd_step c c' bs /\ same_scratch c c' /\ unread c' = rest).
Proof.
  intros W Hb Hf. split.
  - intros Hu.
    destruct (try_read_u32_runs fuel c) as (o & c' & H); auto.
    { left. rewrite Hu. reflexivity. }
    pose proof H as H'. apply try_read_u32_sound in H'; [|assumption].
    destruct H' as (Sc & Ho). destruct o as [v|].
    + destruct Ho as (bs & Hl & _ & St).
      apply rd_step_len in St. rewrite Hu in St. change (len []) with 0 in St.
      pose proof (len_nonneg (unread c')). lia.
    + exists c'. destruct Ho as (_ & _ & St). auto.
  - intros bs rest Hu Hl.
    destruct (try_read_u32_runs fuel c) as (o & c' & H); auto.
    { right. rewrite Hu, len_app. pose proof (len_nonneg rest). lia. }
    pose proof H as H'. apply try_read_u32_sound in H'; [|assumption].
    destruct H' as (Sc & Ho). destruct o as [v|].
    + destruct Ho as (bs' & Hl' & -> & St).
      assert (Heq : bs' = bs /\ unread c' = rest).
      { destruct St as (_ & U & _). rewrite Hu in U. symmetry in U.
        apply app_eq_len in U; [assumption|]. unfold len in *. lia. }
      destruct Heq as [-> Hr]. exists c'. auto.
    + destruct Ho as (Hp & Hi & _).
      assert (Hz : len (unread c) = 0).
      { rewrite len_unread by assumption. rewrite Hi.
        change (len []) with 0. lia. }
      rewrite Hu, len_app in Hz. pose proof (len_nonneg rest). lia.
Qed.

Lemma sub_one (l : list byte) (off : Z) :
  0 <= off < len l -> sub l off 1 = [nth (Z.to_nat off) l x00].
Proof.
  intros H. unfold sub, len in *.
  change (Z.to_nat 1) with 1%nat.
  assert (Hn : (Z.to_nat off < length l)%nat) by lia.
  revert Hn. generalize (Z.to_nat off). clear H. intros n.
  revert l. induction n as [|n IH]; intros [|x l] Hn; simpl in *; try lia.
  - reflexivity.
  - apply IH. lia.
Qed.

Lemma cgetc_sound (fuel : nat) (c c' : channel) (b : byte) :
  wf_in c ->
  cgetc fuel c = Ret (b, c') ->
  rd_step c c' [b] /\ same_scratch c c'.
Proof.
  intros W H. unfold cgetc in H.
  assert (H1 : exists c1,
    (if input_pos c =? input_len c then crefill fuel c 1 else Ret c)
      = Ret c1).
  { destruct (if input_pos c =? input_len c then crefill fuel c 1
              else Ret c) as [c1| | |]; try discriminate. eauto. }
  destruct H1 as [c1 H1]. rewrite H1 in H. cbn [bind] in H.
  inversion H; subst; clear H.
  assert (S1 : rd_step c c1 [] /\ same_scratch c c1 /\
               1 <= input_len c1 - input_pos c1).
  { destruct (input_pos c =? input_len c) eqn:E.
    - apply crefill_sound in H1; [|assumption].
      destruct H1 as (St & Sc & Hp0 & Hlen & _).
      split; [assumption|]. split; [assumption|]. lia.
    - inversion H1; subst c1.
      split; [apply rd_step_refl; assumption|].
      split; [apply same_scratch_refl|].
      destruct W as (Hp & _). lia. }
  destruct S1 as (S1 & Sc1 & Ha).
  assert (W1 : wf_in c1) by apply S1.
  destruct (advance c1 1) as [S2 Sc2]; [assumption|lia|].
  rewrite sub_one in S2 by (destruct W1 as (Hp & Hl & Hb); lia).
  split; [|eauto using same_scratch_trans].
  apply (rd_step_trans c c1 _ [] _ S1 S2).
Qed.

Lemma cgetc_runs (fuel : nat) (c : channel) :
  wf_in c -> rbenign (fd c) = true -> 1 <= len (unread c) ->
  (length (rsched (fd c)) < fuel)%nat ->
  exists b c', cgetc fuel c = Ret (b, c').
Proof.
  intros W Hb Hu Hf. rewrite len_unread in Hu by assumption.
  unfold cgetc.
  destruct (input_pos c =? input_len c) eqn:E.
  - destruct (crefill_runs fuel c 1) as [c1 Hc]; auto;
      try (unfold BUF_SIZE; lia).
    rewrite Hc. cbn [bind]. eauto.
  - cbn [bind]. eauto.
Qed.

End TryRead.

(** ** The scratch buffer *)

(** Reduce the projections of a channel that has just been built. *)
Ltac chan :=
  cbn [fd input_buffer input_pos input_len output_buffer output_pos
       buf buf_size buf_blk set_fd set_input set_input_pos set_output
       set_buf incoming rsched wsched delivered] in *.

Lemma pow2_double (k : nat) :
  256 * 2 ^ Z.of_nat k < 2 ^ 30 -> 2 * (256 * 2 ^ Z.of_nat k) <= 2 ^ 30.
Proof.
  intros H.
  assert (Hk : Z.of_nat k < 22).
  { apply (Z.pow_lt_mono_r_iff 2); [lia|lia|].
    change (2 ^ 30) with (256 * 2 ^ 22) in H. lia. }
  replace (2 * (256 * 2 ^ Z.of_nat k)) with (256 * 2 ^ (Z.of_nat k + 1)).
  2:{ rewrite Z.pow_add_r by lia. lia. }
  change (2 ^ 30) with (256 * 2 ^ 22).
  apply Z.mul_le_mono_nonneg_l; [lia|].
  apply Z.pow_le_mono_r; lia.
Qed.

Lemma sub_sub (l : list byte) (n m : Z) :
  m <= n -> sub (sub l 0 n) 0 m = sub l 0 m.
Proof.
  intros H. unfold sub. simpl. rewrite firstn_firstn. f_equal. lia.
Qed.

Lemma scratch_ok_pos (c : channel) : scratch_ok c -> 256 <= buf_size c.
Proof.
  intros ((k & Hk) & _). rewrite Hk.
  assert (1 <= 2 ^ Z.of_nat k) by (apply Z.pow_le_mono_r with (b:=0); lia).
  lia.
Qed.

Lemma same_io_rd_step (c c' : channel) :
  wf_in c -> same_io c c' -> rd_step c c' [].
Proof.
  intros (Hp & Hl & Hb) (F & I1 & I2 & I3 & O1 & O2).
  unfold rd_step, wf_in, unread, pending, same_output.
  rewrite F, I1, I2, I3, O1, O2. simpl. auto 10.
Qed.

Lemma kept_refl (c : channel) (n : Z) : scratch_ok c -> kept c c n.
Proof. intros H. unfold kept. auto with zarith. Qed.

Lemma kept_trans (c1 c2 c3 : channel) (n m : Z) :
  m <= n -> kept c1 c2 n -> kept c2 c3 m -> kept c1 c3 m.
Proof.
  intros Hm (S1 & L1 & K1 & B1) (S2 & L2 & K2 & B2). unfold kept.
  split; [assumption|]. split; [lia|]. split; [|lia].
  rewrite K2. rewrite <- (sub_sub (buf c2) n m) by lia.
  rewrite K1. apply sub_sub. lia.
Qed.

Lemma kept_weaken (c1 c2 : channel) (n m : Z) :
  m <= n -> kept c1 c2 n -> kept c1 c2 m.
Proof.
  intros Hm (S1 & L1 & K1 & B1). unfold kept.
  split; [assumption|]. split; [assumption|]. split; [|assumption].
  rewrite <- (sub_sub (buf c2) n m), <- (sub_sub (buf c1) n m) by lia.
  rewrite K1. reflexivity.
Qed.

Section Scratch.

Context {env : environment}.

Lemma channel_new_ok (s : stream) :
  wf_in (channel_new s) /\ wf_out (channel_new s) /\
  scratch_ok (channel_new s) /\ unread (channel_new s) = incoming s.
Proof.
  unfold wf_in, wf_out, scratch_ok, unread, pending, channel_new. simpl.
  repeat split; try (unfold BUF_SIZE; lia); try reflexivity.
  exists O. reflexivity.
Qed.

Lemma resize_buf_sound (c c' : channel) :
  scratch_ok c ->
  resize_buf c = Ret c' ->
  kept c c' (buf_size c) /\ buf_size c' = 2 * buf_size c /\
  sub (buf c') 0 (buf_size c) = buf c /\ same_io c c' /\
  buf_blk c' = S (buf_blk c).
Proof.
  intros Ok H. pose proof (scratch_ok_pos c Ok) as Hpos.
  destruct Ok as ((k & Hk) & Hmax & Hlen).
  unfold resize_buf in H.
  assert (Hcase : buf_size c = 2 ^ 30 \/ buf_size c < 2 ^ 30) by lia.
  destruct Hcase as [Hc|Hc].
  { rewrite Hc in H. vm_compute in H. discriminate. }
  assert (Hd : 2 * buf_size c <= 2 ^ 30).
  { rewrite Hk in *. apply pow2_double. assumption. }
  rewrite wrap_int_small in H by lia.
  destruct (buf_size c * 2 <? 0) eqn:E; [lia|].
  assert (Hs : sub (buf c) 0 (buf_size c) = buf c) by (apply sub_all; auto).
  rewrite Hs in H.
  assert (Hr : len (repeat uninit (Z.to_nat (buf_size c * 2)))
               = buf_size c * 2).
  { unfold len. rewrite repeat_length. lia. }
  rewrite memcpy_Ret in H by lia. cbn [bind] in H.
  inversion H; subst c'; clear H.
  assert (Hb : sub (blit (repeat uninit (Z.to_nat (buf_size c * 2))) 0
                      (buf c)) 0 (buf_size c) = buf c).
  { pose proof (sub_blit_at (repeat uninit (Z.to_nat (buf_size c * 2))) 0
                  (buf c)) as X.
    rewrite Hlen in X. apply X; lia. }
  unfold kept, scratch_ok, same_io. chan.
  rewrite len_blit by lia. rewrite Hr, Hs, Hb.
  repeat split; auto; try lia.
  exists (S k). rewrite Hk, Nat2Z.inj_succ, Z.pow_succ_r by lia. lia.
Qed.

Lemma resize_buf_runs (c : channel) :
  scratch_ok c -> buf_size c < 2 ^ 30 -> exists c', resize_buf c = Ret c'.
Proof.
  intros Ok Hc. pose proof (scratch_ok_pos c Ok) as Hpos.
  destruct Ok as ((k & Hk) & Hmax & Hlen).
  unfold resize_buf.
  assert (Hd : 2 * buf_size c <= 2 ^ 30).
  { rewrite Hk in *. apply pow2_double. assumption. }
  rewrite wrap_int_small by lia.
  destruct (buf_size c * 2 <? 0) eqn:E; [lia|].
  rewrite memcpy_Ret; [cbn [bind]; eauto|lia|].
  rewrite sub_all by assumption.
  unfold len at 2. rewrite repeat_length. lia.
Qed.

Lemma grow_buf_sound (fuel : nat) :
  forall c c' need,
    scratch_ok c ->
    grow_buf fuel c need = Ret c' ->
    kept c c' (buf_size c) /\ need <= buf_size c' /\
    sub (buf c') 0 (buf_size c) = buf c /\ same_io c c'.
Proof.
  induction fuel as [|fuel IH]; intros c c' need Ok H; simpl in H.
  - destruct (buf_size c <? need) eqn:E; [discriminate|].
    inversion H; subst c'.
    split; [apply kept_refl; assumption|]. split; [lia|].
    split; [apply sub_all; apply Ok|].
    unfold same_io. auto 10.
  - destruct (buf_size c <? need) eqn:E.
    + destruct (resize_buf c) as [c1| | |] eqn:Er; cbn [bind] in H;
        try discriminate.
      apply resize_buf_sound in Er; [|assumption].
      destruct Er as (K1 & Hs1 & Hb1 & Io1 & _).
      apply IH in H; [|apply K1].
      destruct H as (K2 & Hn & Hb2 & Io2).
      pose proof (scratch_ok_pos c Ok).
      split; [|split; [assumption|split]].
      * eapply kept_trans; [|exact K1|].
        -- lia.
        -- destruct K2 as (A & B & C & D). unfold kept.
           split; [assumption|]. split; [assumption|]. split; [|assumption].
           rewrite <- (sub_sub (buf c') (buf_size c1)) by lia.
           rewrite C. apply sub_sub. lia.
      * rewrite <- (sub_sub (buf c') (buf_size c1)) by lia.
        rewrite Hb2. assumption.
      * unfold same_io in *.
        repeat match goal with H : _ /\ _ |- _ => destruct H end.
        repeat split; congruence.
    + inversion H; subst c'.
      split; [apply kept_refl; assumption|]. split; [lia|].
      split; [apply sub_all; apply Ok|].
      unfold same_io. auto 10.
Qed.

End Scratch.

Lemma sub_sub_gen (l : list byte) (n off m : Z) :
  0 <= off -> 0 <= m -> off + m <= n ->
  sub (sub l 0 n) off m = sub l off m.
Proof.
  intros Ho Hm Hn. unfold sub. simpl skipn at 2.
  rewrite skipn_firstn_comm, firstn_firstn. f_equal. lia.
Qed.

Lemma sub_eq_inside (l l' : list byte) (n off m : Z) :
  sub l 0 n = sub l' 0 n -> 0 <= off -> 0 <= m -> off + m <= n ->
  sub l off m = sub l' off m.
Proof.
  intros H Ho Hm Hn.
  rewrite <- (sub_sub_gen l n off m), <- (sub_sub_gen l' n off m) by lia.
  rewrite H. reflexivity.
Qed.

Lemma len_cons (x : byte) (l : list byte) : len (x :: l) = len l + 1.
Proof. unfold len. simpl length. lia. Qed.

Section Strings.

Context {env : environment}.

Lemma read_zstr_loop_sound (fuel : nat) :
  forall c pos pos' c',
    wf_in c -> scratch_ok c -> 0 <= pos <= buf_size c ->
    read_zstr_loop fuel c pos = Ret (pos', c') ->
    exists s,
      no_nul s /\ rd_step c c' (s ++ [x00]) /\ pos' = pos + len s + 1 /\
      kept c c' pos /\ pos' <= buf_size c' /\
      sub (buf c') pos (len s + 1) = s ++ [x00].
Proof.
  induction fuel as [|fuel IH]; intros c pos pos' c' W Ok Hpos H;
    simpl in H; [discriminate|].
  assert (H1 : exists c1,
    (if pos =? buf_size c then resize_buf c else Ret c) = Ret c1).
  { destruct (if pos =? buf_size c then resize_buf c else Ret c)
      as [c1| | |]; try discriminate. eauto. }
  destruct H1 as [c1 H1]. rewrite H1 in H. cbn [bind] in H.
  assert (S1 : kept c c1 pos /\ same_io c c1 /\ pos < buf_size c1).
  { destruct (pos =? buf_size c) eqn:E.
    - apply Z.eqb_eq in E. pose proof (scratch_ok_pos c Ok).
      apply resize_buf_sound in H1; [|assumption].
      destruct H1 as (K & Hs & _ & Io & _). subst pos.
      split; [assumption|]. split; [assumption|]. lia.
    - apply Z.eqb_neq in E. inversion H1; subst c1.
      split; [apply kept_refl; assumption|].
      split; [unfold same_io; auto 10|]. lia. }
  destruct S1 as (K1 & Io1 & Hlt).
  pose proof (same_io_rd_step c c1 W Io1) as R1.
  assert (W1 : wf_in c1) by apply R1.
  destruct (cgetc fuel c1) as [[ch c2]| | |] eqn:Eg; cbn [bind] in H;
    try discriminate.
  apply cgetc_sound in Eg; [|assumption].
  destruct Eg as (R2 & (Sb & Ss & Sk)).
  destruct (memcpy (buf c2) pos [ch]) as [b| | |] eqn:Em; cbn [bind] in H;
    try discriminate.
  apply memcpy_inv in Em. destruct Em as (Hp0 & Hin & ->).
  change (len [ch]) with 1 in Hin.
  set (c3 := set_buf c2 (blit (buf c2) pos [ch])) in *.
  assert (W3 : wf_in c3) by (unfold c3; apply R2).
  assert (R3 : rd_step c2 c3 []).
  { apply same_io_rd_step; [apply R2|]. unfold c3, same_io. simpl. auto 10. }
  assert (Ok1 : scratch_ok c1) by apply K1.
  assert (Hl3 : len (buf c3) = len (buf c2)).
  { unfold c3. chan. apply len_blit; [lia|]. change (len [ch]) with 1. lia. }
  assert (Ok3 : scratch_ok c3).
  { destruct Ok1 as (A & B & C). unfold scratch_ok.
    rewrite Hl3. unfold c3. chan. rewrite Sb, Ss. auto. }
  assert (K3 : kept c1 c3 pos).
  { unfold kept. split; [assumption|]. unfold c3. chan.
    split; [lia|]. split; [|lia].
    rewrite sub_blit_below by (change (len [ch]) with 1; lia).
    rewrite Sb. reflexivity. }
  assert (Hch : sub (buf c3) pos 1 = [ch]).
  { unfold c3. chan. change 1 with (len [ch]).
    apply sub_blit_at; [lia|]. change (len [ch]) with 1. lia. }
  assert (Hsz : buf_size c3 = buf_size c1) by (unfold c3; chan; assumption).
  assert (Rall : rd_step c c3 [ch]).
  { apply (rd_step_trans c c1 c3 [] [ch] R1).
    rewrite <- (app_nil_r [ch]).
    apply (rd_step_trans c1 c2 c3 [ch] [] R2 R3). }
  assert (Kall : kept c c3 pos).
  { eapply kept_trans; [|exact K1|exact K3]. lia. }
  destruct (Byte.eqb ch x00) eqn:Ez; cbn [negb] in H.
  - inversion H; subst pos' c'; clear H.
    apply Byte.byte_dec_bl in Ez. subst ch.
    exists []. change (len []) with 0.
    split; [constructor|]. split; [exact Rall|]. split; [lia|].
    split; [assumption|]. split; [lia|]. exact Hch.
  - apply IH in H; auto; [|lia].
    destruct H as (s & Hs & R4 & Hp' & K4 & Hb' & Hstr).
    exists (ch :: s). rewrite len_cons.
    split; [|split; [|split; [|split; [|split]]]].
    + constructor; [|assumption]. intros ->. discriminate.
    + apply (rd_step_trans c c3 c' [ch] (s ++ [x00]) Rall R4).
    + lia.
    + apply (kept_trans c c3 c' pos pos); [lia|exact Kall|].
      apply (kept_weaken c3 c' (pos + 1)); [lia|exact K4].
    + assumption.
    + pose proof (len_nonneg s).
      replace (len s + 1 + 1) with (1 + (len s + 1)) by lia.
      rewrite sub_split by lia. rewrite Hstr.
      destruct K4 as (_ & _ & Hk & _).
      rewrite (sub_eq_inside _ _ (pos + 1) pos 1 Hk) by lia.
      rewrite Hch. reflexivity.
Qed.

End Strings.

Lemma zstr_unique (s s' r r' : list byte) :
  no_nul s -> no_nul s' -> s ++ x00 :: r = s' ++ x00 :: r' ->
  s = s' /\ r = r'.
Proof.
  intros Hs. revert s'. induction Hs as [|x s Hx Hs IH]; intros s' Hs' H.
  - destruct Hs' as [|y s' Hy Hs']; simpl in H.
    + inversion H. auto.
    + inversion H. subst y. congruence.
  - destruct Hs' as [|y s' Hy Hs']; simpl in H.
    + inversion H. subst x. congruence.
    + inversion H. subst y. destruct (IH s' Hs') as [-> ->]; auto.
Qed.

Section StringsRun.

Context {env : environment}.

Lemma read_zstr_loop_runs (fuel : nat) :
  forall c pos s rest,
    wf_in c -> scratch_ok c -> rbenign (fd c) = true ->
    0 <= pos <= buf_size c ->
    unread c = s ++ x00 :: rest -> no_nul s ->
    pos + len s + 1 <= 2 ^ 30 ->
    (length (rsched (fd c)) + length s + 1 < fuel)%nat ->
    exists pos' c', read_zstr_loop fuel c pos = Ret (pos', c').
Proof.
  induction fuel as [|fuel IH]; intros c pos s rest W Ok Hb Hpos Hu Hs Hmax Hf;
    [lia|].
  simpl. pose proof (len_nonneg s) as Hls.
  assert (H1 : exists c1,
    (if pos =? buf_size c then resize_buf c else Ret c) = Ret c1 /\
    kept c c1 pos /\ same_io c c1 /\ pos < buf_size c1).
  { destruct (pos =? buf_size c) eqn:E.
    - apply Z.eqb_eq in E. pose proof (scratch_ok_pos c Ok).
      destruct (resize_buf_runs c) as [c1 Hr]; [assumption|lia|].
      exists c1. split; [assumption|].
      apply resize_buf_sound in Hr; [|assumption].
      destruct Hr as (K & Hsz & _ & Io & _). subst pos.
      split; [assumption|]. split; [assumption|]. lia.
    - apply Z.eqb_neq in E. exists c. split; [reflexivity|].
      split; [apply kept_refl; assumption|].
      split; [unfold same_io; auto 10|]. lia. }
  destruct H1 as (c1 & H1 & K1 & Io1 & Hlt). rewrite H1. cbn [bind].
  pose proof (same_io_rd_step c c1 W Io1) as R1.
  assert (W1 : wf_in c1) by apply R1.
  assert (Hfd : fd c1 = fd c) by apply Io1.
  assert (Hu1 : unread c1 = s ++ x00 :: rest).
  { destruct R1 as (_ & U & _). simpl in U. congruence. }
  destruct (cgetc_runs fuel c1) as (ch & c2 & Eg); auto.
  { rewrite Hfd. assumption. }
  { rewrite Hu1, len_app, len_cons. pose proof (len_nonneg rest). lia. }
  { rewrite Hfd. lia. }
  rewrite Eg. cbn [bind].
  apply cgetc_sound in Eg; [|assumption].
  destruct Eg as (R2 & (Sb & Ss & Sk)).
  assert (Ok1 : scratch_ok c1) by apply K1.
  assert (Hl2 : len (buf c2) = buf_size c1).
  { rewrite Sb. apply Ok1. }
  rewrite memcpy_Ret by (change (len [ch]) with 1; lia). cbn [bind].
  set (c3 := set_buf c2 (blit (buf c2) pos [ch])).
  destruct (Byte.eqb ch x00) eqn:Ez; cbn [negb]; [eauto|].
  assert (Hch : ch <> x00).
  { intros ->. discriminate. }
  assert (U2 : ch :: unread c2 = s ++ x00 :: rest).
  { destruct R2 as (_ & U & _). rewrite Hu1 in U. simpl in U. congruence. }
  destruct s as [|x s']; simpl in U2; inversion U2 as [[Hx Hrest]];
    [congruence|].
  subst x. inversion Hs as [|? ? _ Hs']; subst.
  rewrite len_cons in Hmax.
  assert (W3 : wf_in c3) by (unfold c3; apply R2).
  apply (IH c3 (pos + 1) s' rest); auto.
  - destruct Ok1 as (A & B & C). unfold scratch_ok, c3. chan.
    rewrite len_blit by (change (len [ch]) with 1; lia).
    rewrite Ss, Hl2. auto.
  - unfold c3. chan. apply R2. rewrite Hfd. assumption.
  - unfold c3. chan. lia.
  - pose proof (len_nonneg s'). lia.
  - unfold c3. chan. destruct R2 as (_ & _ & _ & _ & L2).
    rewrite Hfd in L2. simpl length in Hf. lia.
Qed.

(** With enough fuel [read_zstr] consumes the next string and its
    terminator, stores them from [pos] on and keeps what lies below. *)
Lemma read_zstr_spec (fuel : nat) (c : channel) (pos : Z)
    (s rest : list byte) :
  wf_in c -> scratch_ok c -> rbenign (fd c) = true ->
  0 <= pos <= buf_size c ->
  unread c = s ++ x00 :: rest -> no_nul s ->
  pos + len s + 1 <= 2 ^ 30 ->
  (length (rsched (fd c)) + length s + 1 < fuel)%nat ->
  exists c',
    read_zstr fuel c pos = Ret (pos, pos + len s + 1, c') /\
    rd_step c c' (s ++ [x00]) /\ unread c' = rest /\
    kept c c' pos /\ pos + len s + 1 <= buf_size c' /\
    sub (buf c') pos (len s + 1) = s ++ [x00].
Proof.
  intros W Ok Hb Hpos Hu Hs Hmax Hf.
  destruct (read_zstr_loop_runs fuel c pos s rest) as (pos' & c' & H); auto.
  unfold read_zstr. rewrite H. cbn [bind].
  apply read_zstr_loop_sound in H; auto.
  destruct H as (s' & Hs' & R & Hp' & K & Hb' & Hstr).
  assert (Heq : s' = s /\ unread c' = rest).
  { destruct R as (_ & U & _). rewrite Hu in U.
    rewrite <- app_assoc in U. simpl in U. symmetry in U.
    apply zstr_unique in U; auto. }
  destruct Heq as [-> Hr]. subst pos'.
  exists c'. auto 10.
Qed.

End StringsRun.

(** ** Blobs *)

Lemma read_all_loop_sound (fuel : nat) :
  forall fd got size data fd',
    read_all_loop fuel fd got size = Ret (data, fd') ->
    exists more,
      data = got ++ more /\ fd_step fd fd' more /\ len more = Z.max 0 size.
Proof.
  induction fuel as [|fuel IH]; intros fd got size data fd' H; simpl in H.
  - destruct (size >? 0) eqn:E; [discriminate|].
    inversion H; subst. exists []. rewrite app_nil_r.
    split; [reflexivity|]. split; [apply fd_step_refl|].
    change (len []) with 0. lia.
  - destruct (size >? 0) eqn:E.
    2:{ inversion H; subst. exists []. rewrite app_nil_r.
        split; [reflexivity|]. split; [apply fd_step_refl|].
        change (len []) with 0. lia. }
    destruct (read fd size) as [[e|d] fd1] eqn:Er.
    + destruct e; [|discriminate].
      apply read_Err in Er. destruct Er as (S1 & _).
      apply IH in H. destruct H as (more & -> & S2 & Hl).
      exists more. split; [reflexivity|]. split; [|assumption].
      apply (fd_step_trans fd fd1 fd' [] more S1 S2).
    + apply read_Ok in Er. destruct Er as (S1 & Hd & _).
      destruct (len d =? 0) eqn:E0; [discriminate|].
      apply IH in H. destruct H as (more & -> & S2 & Hl).
      exists (d ++ more). rewrite app_assoc.
      split; [reflexivity|]. split.
      * eapply fd_step_trans; eassumption.
      * rewrite len_app. lia.
Qed.

Lemma read_all_loop_runs (fuel : nat) :
  forall fd got size,
    rbenign fd = true -> size <= len (incoming fd) ->
    (length (rsched fd) < fuel)%nat ->
    exists data fd', read_all_loop fuel fd got size = Ret (data, fd').
Proof.
  induction fuel as [|fuel IH]; intros fd got size Hb Hs Hf; [lia|].
  simpl. destruct (size >? 0) eqn:E; [|eauto].
  destruct (read fd size) as [[e|d] fd1] eqn:Er.
  - apply read_Err in Er. destruct Er as (S1 & L1 & He).
    rewrite (He Hb). destruct S1 as (I1 & _ & _ & B1 & _). simpl in I1.
    apply IH; auto; [congruence|lia].
  - apply read_Ok in Er. destruct Er as (S1 & Hd & Hnil & Hcons).
    destruct S1 as (I1 & _ & _ & B1 & _).
    destruct (rsched fd) as [|ev r] eqn:Es.
    + specialize (Hnil eq_refl).
      assert (Hn : len d = size) by lia. rewrite Hn.
      destruct (size =? 0) eqn:E0; [lia|].
      rewrite Z.sub_diag. destruct fuel; simpl; eauto.
    + destruct Hcons as [L1 Hpos]; [discriminate|].
      assert (Hne : incoming fd <> []).
      { intros Hn. rewrite Hn in Hs. change (len []) with 0 in Hs. lia. }
      assert (0 < len d) by (apply Hpos; [lia|assumption]).
      destruct (len d =? 0) eqn:E0; [lia|].
      apply IH; auto.
      * rewrite I1, len_app in Hs. lia.
      * simpl in *. lia.
Qed.

Lemma sub_blit_before (dst : list byte) (off : Z) (src : list byte)
    (off' n : Z) :
  0 <= off -> off + len src <= len dst ->
  0 <= off' -> 0 <= n -> off' + n <= off ->
  sub (blit dst off src) off' n = sub dst off' n.
Proof.
  intros Ho Hl Ho' Hn Hle.
  apply (sub_eq_inside _ _ off); try lia.
  apply sub_blit_below; lia.
Qed.

Section Blobs.

Context {env : environment}.

Lemma read_bytes_sound (fuel : nat) (c c' : channel) (pos size : Z) :
  wf_in c -> scratch_ok c -> 0 <= pos <= buf_size c ->
  - 2 ^ 31 <= size -> pos + size < 2 ^ 31 ->
  read_bytes fuel c pos size = Ret c' ->
  0 <= size /\
  exists data,
    len data = size /\ rd_step c c' data /\ kept c c' pos /\
    pos + size <= buf_size c' /\ sub (buf c') pos size = data.
Proof.
  intros W Ok Hpos Hlo Hhi H. unfold read_bytes in H.
  rewrite (wrap_int_small (pos + size)) in H by lia.
  destruct (grow_buf fuel c (pos + size)) as [c1| | |] eqn:Eg;
    cbn [bind] in H; try discriminate.
  apply grow_buf_sound in Eg; [|assumption].
  destruct Eg as (K1 & Hneed & _ & Io1).
  pose proof (same_io_rd_step c c1 W Io1) as R1.
  assert (W1 : wf_in c1) by apply R1.
  assert (Ok1 : scratch_ok c1) by apply K1.
  pose proof W1 as (Hp1 & Hl1 & Hb1).
  pose proof Ok1 as (_ & Hmax1 & Hlen1).
  apply (kept_weaken c c1 (buf_size c) pos) in K1; [|lia].
  unfold BUF_SIZE in Hl1.
  rewrite (wrap_int_small (input_pos c1 + size)) in H by lia.
  destruct (input_pos c1 + size <=? input_len c1) eqn:E.
  - destruct (size <? 0) eqn:En; [discriminate|].
    apply Z.ltb_ge in En. split; [assumption|].
    assert (Hls : len (sub (input_buffer c1) (input_pos c1) size) = size).
    { apply len_sub; unfold BUF_SIZE in *; lia. }
    rewrite memcpy_Ret in H by lia. cbn [bind] in H.
    inversion H; subst c'; clear H.
    set (data := sub (input_buffer c1) (input_pos c1) size) in *.
    set (c2 := set_buf c1 (blit (buf c1) pos data)).
    assert (R2 : rd_step c1 c2 []).
    { apply same_io_rd_step; [assumption|].
      unfold c2, same_io. simpl. auto 10. }
    destruct (advance c2 size) as [R3 _]; [apply R2|unfold c2; chan; lia|].
    exists data. split; [assumption|]. split.
    { apply (rd_step_trans c c1 _ [] data R1).
      apply (rd_step_trans c1 c2 _ [] data R2). exact R3. }
    assert (Ok2 : scratch_ok c2).
    { destruct Ok1 as (A & B & C). unfold scratch_ok, c2. chan.
      rewrite len_blit by lia. auto. }
    split; [|split].
    + apply (kept_trans c c1 _ pos pos); [lia|assumption|].
      unfold kept. split; [exact Ok2|]. unfold c2. chan.
      split; [lia|]. split; [|lia].
      apply sub_blit_below; lia.
    + unfold c2. chan. assumption.
    + unfold c2. chan.
      pose proof (sub_blit_at (buf c1) pos data) as X.
      rewrite Hls in X. apply X; lia.
  - apply Z.leb_gt in E.
    set (isize := input_len c1 - input_pos c1) in *.
    assert (Hsz : 0 <= size) by lia. split; [assumption|].
    assert (Hlp : len (sub (input_buffer c1) (input_pos c1) isize) = isize).
    { apply len_sub; unfold BUF_SIZE in *; lia. }
    rewrite memcpy_Ret in H by lia. cbn [bind] in H.
    set (p := sub (input_buffer c1) (input_pos c1) isize) in *.
    set (b := blit (buf c1) pos p) in *.
    chan.
    destruct (read_all fuel (fd c1) (size - isize)) as [[data fd']| | |]
      eqn:Er; cbn [bind] in H; try discriminate.
    apply read_all_loop_sound in Er.
    destruct Er as (more & Hd & St & Hlm). simpl in Hd. subst more.
    rewrite Z.max_r in Hlm by lia.
    assert (Hlb : len b = len (buf c1)) by (apply len_blit; lia).
    rewrite memcpy_Ret in H by lia. cbn [bind] in H.
    inversion H; subst c'; clear H.
    exists (p ++ data). split; [rewrite len_app; lia|].
    split; [|split; [|split]].
    + destruct R1 as (_ & U1 & O1 & B1 & L1).
      destruct St as (I & Ws & D & Bs & Ls).
      unfold rd_step. split; [|split; [|split; [|split]]].
      * unfold wf_in. chan. unfold BUF_SIZE in *. lia.
      * rewrite U1. simpl. unfold unread, pending. chan.
        fold isize. fold p. rewrite I, sub_nil, <- app_assoc. reflexivity.
      * unfold same_output in *. chan.
        destruct O1 as (A1 & A2 & A3 & A4).
        repeat split; congruence.
      * chan. intros Hc. apply Bs. apply B1. assumption.
      * chan. lia.
    + apply (kept_trans c c1 _ pos pos); [lia|assumption|].
      unfold kept. chan. split; [|split; [lia|split; [|lia]]].
      * destruct Ok1 as (A & B & C). unfold scratch_ok. chan.
        rewrite len_blit by lia. rewrite Hlb. auto.
      * rewrite sub_blit_below by lia. apply sub_blit_below; lia.
    + chan. assumption.
    + chan. replace size with (isize + (size - isize)) at 1 by lia.
      rewrite sub_split by lia. f_equal.
      * rewrite sub_blit_before by lia.
        pose proof (sub_blit_at (buf c1) pos p) as X.
        rewrite Hlp in X. apply X; lia.
      * pose proof (sub_blit_at b (pos + isize) data) as X.
        rewrite Hlm in X. apply X; lia.
Qed.

End Blobs.

(** ** Words on the wire *)

Lemma byte_to_Z_of_Z (z : Z) : byte_to_Z (byte_of_Z z) = z mod 256.
Proof.
  unfold byte_to_Z, byte_of_Z.
  assert (Hr : 0 <= z mod 256 < 256) by (apply Z.mod_pos_bound; lia).
  destruct (Byte.of_N (Z.to_N (z mod 256))) as [b|] eqn:E.
  - apply Byte.to_of_N in E. rewrite E. lia.
  - apply Byte.of_N_None_iff in E. lia.
Qed.

Lemma u32_roundtrip (u : Z) :
  0 <= u < 2 ^ 32 -> u32_of_bytes (bytes_of_u32 u) = u.
Proof.
  intros H. unfold u32_of_bytes, bytes_of_u32.
  rewrite !byte_to_Z_of_Z, !Z.shiftr_div_pow2 by lia.
  change (2 ^ 8) with 256. change (2 ^ 16) with 65536.
  change (2 ^ 24) with 16777216. change (2 ^ 32) with 4294967296 in H.
  replace (u / 65536) with (u / 256 / 256)
    by (rewrite Z.div_div by lia; reflexivity).
  replace (u / 16777216) with (u / 256 / 256 / 256)
    by (rewrite !Z.div_div by lia; reflexivity).
  generalize (Z.div_mod u 256 ltac:(lia)).
  generalize (Z.mod_pos_bound u 256 ltac:(lia)).
  generalize (u mod 256). generalize (u / 256). intros a r0 Hr0 Hu.
  generalize (Z.div_mod a 256 ltac:(lia)).
  generalize (Z.mod_pos_bound a 256 ltac:(lia)).
  generalize (a mod 256). generalize (a / 256). intros b r1 Hr1 Ha.
  generalize (Z.div_mod b 256 ltac:(lia)).
  generalize (Z.mod_pos_bound b 256 ltac:(lia)).
  generalize (b mod 256). generalize (b / 256). intros c r2 Hr2 Hb.
  rewrite (Z.mod_small c) by lia. lia.
Qed.

Lemma u32_range (z : Z) : 0 <= u32 z < 2 ^ 32.
Proof. unfold u32. apply Z.mod_pos_bound. lia. Qed.

Lemma wrap_int_range (z : Z) : - 2 ^ 31 <= wrap_int z < 2 ^ 31.
Proof.
  unfold wrap_int.
  pose proof (Z.mod_pos_bound (z + 2 ^ 31) (2 ^ 32) ltac:(lia)). lia.
Qed.

Lemma byte_to_Z_range (b : byte) : 0 <= byte_to_Z b < 256.
Proof.
  unfold byte_to_Z. pose proof (Byte.to_N_bounded b). lia.
Qed.

Lemma u32_of_bytes_range (bs : list byte) : 0 <= u32_of_bytes bs < 2 ^ 32.
Proof.
  unfold u32_of_bytes.
  destruct bs as [|b0 [|b1 [|b2 [|b3 [|b4 r]]]]]; try lia.
  pose proof (byte_to_Z_range b0). pose proof (byte_to_Z_range b1).
  pose proof (byte_to_Z_range b2). pose proof (byte_to_Z_range b3).
  lia.
Qed.

(** ** The query decoder *)

Lemma wrap_int_nonneg (z : Z) :
  0 <= z < 2 ^ 32 -> 0 <= wrap_int z -> wrap_int z = z.
Proof.
  intros Hz Hw. unfold wrap_int in *.
  assert (Hc : z < 2 ^ 31 \/ 2 ^ 31 <= z) by lia.
  destruct Hc as [Hc|Hc].
  - rewrite Z.mod_small; lia.
  - replace (z + 2 ^ 31) with (z - 2 ^ 31 + 1 * 2 ^ 32) in Hw by lia.
    rewrite Z.mod_add in Hw by lia.
    rewrite Z.mod_small in Hw; lia.
Qed.

Lemma same_scratch_ok (c c' : channel) :
  scratch_ok c -> same_scratch c c' -> scratch_ok c'.
Proof.
  intros (A & B & C) (S1 & S2 & S3). unfold scratch_ok.
  rewrite S1, S2. auto.
Qed.

Lemma zstr_at_same_scratch (c c' : channel) (p : ptr) (s : list byte) :
  zstr_at c p s -> same_scratch c c' -> zstr_at c' p s.
Proof.
  intros (A & B & C & D & E) (S1 & S2 & S3). unfold zstr_at.
  rewrite S1, S2, S3. auto.
Qed.

(** Take the leading call of a chain that has returned. *)
Ltac bind1 H t E :=
  match type of H with
  | bind ?m _ = Ret _ =>
      destruct m as [t| | |] eqn:E; cbn [bind] in H; [|discriminate..]
  end.

Ltac bind2 H v t E :=
  match type of H with
  | bind ?m _ = Ret _ =>
      destruct m as [[v t]| | |] eqn:E; cbn [bind] in H; [|discriminate..]
  end.

Ltac bind3 H a b t E :=
  match type of H with
  | bind ?m _ = Ret _ =>
      destruct m as [[[a b] t]| | |] eqn:E; cbn [bind] in H;
      [|discriminate..]
  end.

Section Decoder.

Context {env : environment}.

Lemma read_u32_step (fuel : nat) (c c' : channel) (v : Z) :
  wf_in c -> scratch_ok c ->
  read_u32 fuel c = Ret (v, c') ->
  exists bs, len bs = 4 /\ v = u32_of_bytes bs /\ rd_step c c' bs /\
             same_scratch c c' /\ wf_in c' /\ scratch_ok c'.
Proof.
  intros W Ok H. apply read_u32_sound in H; [|assumption].
  destruct H as (bs & Hl & Hv & R & Sc). exists bs.
  split; [assumption|]. split; [assumption|]. split; [assumption|].
  split; [assumption|]. split; [apply R|].
  eapply same_scratch_ok; eassumption.
Qed.

Lemma read_zstr_step (fuel : nat) (c c' : channel) (pos p0 pos' : Z) :
  wf_in c -> scratch_ok c -> 0 <= pos <= buf_size c ->
  read_zstr fuel c pos = Ret (p0, pos', c') ->
  p0 = pos /\
  exists s,
    no_nul s /\ rd_step c c' (s ++ [x00]) /\ pos' = pos + len s + 1 /\
    kept c c' pos /\ pos' <= buf_size c' /\
    sub (buf c') pos (len s + 1) = s ++ [x00] /\
    wf_in c' /\ scratch_ok c'.
Proof.
  intros W Ok Hpos H. unfold read_zstr in H.
  destruct (read_zstr_loop fuel c pos) as [[q t]| | |] eqn:E;
    cbn [bind] in H; try discriminate.
  inversion H; subst; clear H. split; [reflexivity|].
  apply read_zstr_loop_sound in E; auto.
  destruct E as (s & Hs & R & Hp & K & Hb & Hstr). exists s.
  split; [assumption|]. split; [assumption|]. split; [assumption|].
  split; [assumption|]. split; [assumption|]. split; [assumption|].
  split; [apply R|apply K].
Qed.

(** One string at the start of the scratch buffer, then words that leave
    the scratch buffer alone. *)
Lemma zstr_then_words (c1 c2 : channel) (s : list byte) (pos' : Z) :
  pos' = 0 + len s + 1 -> pos' <= buf_size c1 ->
  sub (buf c1) 0 (len s + 1) = s ++ [x00] -> no_nul s ->
  same_scratch c1 c2 ->
  zstr_at c2 (buf_at c1 0) s.
Proof.
  intros Hp Hb Hstr Hs Sc.
  apply (zstr_at_same_scratch c1); [|assumption].
  unfold zstr_at, buf_at. simpl. pose proof (len_nonneg s).
  repeat split; auto; lia.
Qed.

Lemma read_query_fields_sound (fuel : nat) (c c' : channel) (tag : Z)
    (u : query_union) :
  wf_in c -> scratch_ok c ->
  read_query_fields fuel c tag = Ret (u, c') ->
  exists body,
    rd_step c c' body /\ scratch_ok c' /\ buf_size c <= buf_size c' /\
    scratch_fields c' u body.
Proof.
  intros W Ok H. unfold read_query_fields in H.
  pose proof (scratch_ok_pos c Ok) as Hpos.
  destruct (tag =? u32 Q_OPEN).
  { bind2 H fid t1 E. apply read_u32_step in E; auto.
    destruct E as (w & Hw & _ & R1 & S1 & W1 & Ok1).
    assert (Hs1 : buf_size t1 = buf_size c) by apply S1.
    bind3 H p1 q1 t2 E. apply read_zstr_step in E; auto; [|lia].
    destruct E as (-> & s1 & N1 & R2 & Hp1 & K2 & Hb1 & Hstr1 & W2 & Ok2).
    pose proof (len_nonneg s1).
    bind3 H p2 q2 t3 E. apply read_zstr_step in E; auto; [|lia].
    destruct E as (-> & s2 & N2 & R3 & Hp2 & K3 & Hb2 & Hstr2 & W3 & Ok3).
    pose proof (len_nonneg s2).
    inversion H; subst u c'; clear H.
    exists (w ++ (s1 ++ [x00]) ++ (s2 ++ [x00])).
    split; [|split; [assumption|split]].
    - apply (rd_step_trans c t1 t3 _ _ R1).
      apply (rd_step_trans t1 t2 t3 _ _ R2 R3).
    - destruct K2 as (_ & L2 & _). destruct K3 as (_ & L3 & _). lia.
    - simpl. exists w, s1, s2.
      split; [assumption|]. split; [reflexivity|].
      destruct K3 as (_ & _ & Hk3 & _).
      split; [|split; [|split; [reflexivity|lia]]].
      + unfold zstr_at, buf_at. simpl.
        split; [reflexivity|]. split; [lia|]. split; [lia|].
        split; [|assumption].
        rewrite (sub_eq_inside _ _ q1 0 (len s1 + 1) Hk3) by lia.
        assumption.
      + unfold zstr_at, buf_at. simpl.
        split; [reflexivity|]. split; [lia|]. split; [lia|].
        split; assumption. }
  destruct (tag =? u32 Q_READ).
  { bind2 H v1 t1 E. apply read_u32_step in E; auto.
    destruct E as (w1 & _ & _ & R1 & S1 & W1 & Ok1).
    bind2 H v2 t2 E. apply read_u32_step in E; auto.
    destruct E as (w2 & _ & _ & R2 & S2 & W2 & Ok2).
    bind2 H v3 t3 E. apply read_u32_step in E; auto.
    destruct E as (w3 & _ & _ & R3 & S3 & W3 & Ok3).
    inversion H; subst u c'; clear H.
    exists (w1 ++ w2 ++ w3).
    split; [|split; [assumption|split; [|exact I]]].
    - apply (rd_step_trans c t1 t3 _ _ R1).
      apply (rd_step_trans t1 t2 t3 _ _ R2 R3).
    - destruct S1 as (_ & A1 & _). destruct S2 as (_ & A2 & _).
      destruct S3 as (_ & A3 & _). lia. }
  destruct (tag =? u32 Q_WRIT).
  { bind2 H v1 t1 E. apply read_u32_step in E; auto.
    destruct E as (w1 & L1 & _ & R1 & S1 & W1 & Ok1).
    bind2 H v2 t2 E. apply read_u32_step in E; auto.
    destruct E as (w2 & L2 & _ & R2 & S2 & W2 & Ok2).
    bind2 H v3 t3 E. apply read_u32_step in E; auto.
    destruct E as (w3 & L3 & Hv & R3 & S3 & W3 & Ok3).
    bind1 H t4 E.
    pose proof (wrap_int_range v3) as Hr.
    pose proof (scratch_ok_pos t3 Ok3).
    apply read_bytes_sound in E; auto; try lia.
    destruct E as (Hn & d & Hd & R4 & K4 & Hb4 & Hsub).
    inversion H; subst u c'; clear H.
    assert (Hz : wrap_int v3 = v3).
    { apply wrap_int_nonneg; [|assumption].
      rewrite Hv. apply u32_of_bytes_range. }
    rewrite Hz in *.
    exists ((w1 ++ w2 ++ w3) ++ d).
    split; [|split; [apply K4|split]].
    - apply (rd_step_trans c t3 t4 _ _); [|exact R4].
      apply (rd_step_trans c t1 t3 _ _ R1).
      apply (rd_step_trans t1 t2 t3 _ _ R2 R3).
    - destruct S1 as (_ & A1 & _). destruct S2 as (_ & A2 & _).
      destruct S3 as (_ & A3 & _). destruct K4 as (_ & A4 & _). lia.
    - simpl. exists (w1 ++ w2 ++ w3), d.
      split; [rewrite !len_app; lia|]. split; [reflexivity|].
      split; [assumption|]. split; [|reflexivity].
      unfold blob_at, buf_at. simpl. rewrite Hd.
      repeat split; auto; lia. }
  destruct (tag =? u32 Q_CLOS).
  { bind2 H v1 t1 E. apply read_u32_step in E; auto.
    destruct E as (w1 & _ & _ & R1 & S1 & W1 & Ok1).
    inversion H; subst u c'; clear H.
    exists w1. split; [assumption|]. split; [assumption|].
    split; [|exact I]. destruct S1 as (_ & A1 & _). lia. }
  destruct (tag =? u32 Q_SIZE).
  { bind2 H v1 t1 E. apply read_u32_step in E; auto.
    destruct E as (w1 & _ & _ & R1 & S1 & W1 & Ok1).
    inversion H; subst u c'; clear H.
    exists w1. split; [assumption|]. split; [assumption|].
    split; [|exact I]. destruct S1 as (_ & A1 & _). lia. }
  destruct (tag =? u32 Q_SEEN).
  { bind2 H v1 t1 E. apply read_u32_step in E; auto.
    destruct E as (w1 & _ & _ & R1 & S1 & W1 & Ok1).
    bind2 H v2 t2 E. apply read_u32_step in E; auto.
    destruct E as (w2 & _ & _ & R2 & S2 & W2 & Ok2).
    inversion H; subst u c'; clear H.
    exists (w1 ++ w2).
    split; [|split; [assumption|split; [|exact I]]].
    - apply (rd_step_trans c t1 t2 _ _ R1 R2).
    - destruct S1 as (_ & A1 & _). destruct S2 as (_ & A2 & _). lia. }
  destruct (tag =? u32 Q_CHLD).
  { bind2 H v1 t1 E. apply read_u32_step in E; auto.
    destruct E as (w1 & _ & _ & R1 & S1 & W1 & Ok1).
    inversion H; subst u c'; clear H.
    exists w1. split; [assumption|]. split; [assumption|].
    split; [|exact I]. destruct S1 as (_ & A1 & _). lia. }
  destruct (tag =? u32 Q_BACK).
  { bind2 H v1 t1 E. apply read_u32_step in E; auto.
    destruct E as (w1 & _ & _ & R1 & S1 & W1 & Ok1).
    bind2 H v2 t2 E. apply read_u32_step in E; auto.
    destruct E as (w2 & _ & _ & R2 & S2 & W2 & Ok2).
    bind2 H v3 t3 E. apply read_u32_step in E; auto.
    destruct E as (w3 & _ & _ & R3 & S3 & W3 & Ok3).
    inversion H; subst u c'; clear H.
    exists (w1 ++ w2 ++ w3).
    split; [|split; [assumption|split; [|exact I]]].
    - apply (rd_step_trans c t1 t3 _ _ R1).
      apply (rd_step_trans t1 t2 t3 _ _ R2 R3).
    - destruct S1 as (_ & A1 & _). destruct S2 as (_ & A2 & _).
      destruct S3 as (_ & A3 & _). lia. }
  destruct (tag =? u32 Q_ACCS).
  { bind3 H p1 q1 t1 E. apply read_zstr_step in E; auto; [|lia].
    destruct E as (-> & s1 & N1 & R1 & Hp1 & K1 & Hb1 & Hstr1 & W1 & Ok1).
    bind2 H v1 t2 E. apply read_u32_step in E; auto.
    destruct E as (w1 & L1 & _ & R2 & S2 & W2 & Ok2).
    inversion H; subst u c'; clear H.
    exists ((s1 ++ [x00]) ++ w1).
    split; [|split; [assumption|split]].
    - apply (rd_step_trans c t1 t2 _ _ R1 R2).
    - destruct K1 as (_ & A1 & _). destruct S2 as (_ & A2 & _). lia.
    - simpl. exists s1, w1. split; [assumption|]. split; [reflexivity|].
      split; [|reflexivity].
      apply (zstr_then_words t1 t2 s1 q1); assumption. }
  destruct (tag =? u32 Q_STAT).
  { bind3 H p1 q1 t1 E. apply read_zstr_step in E; auto; [|lia].
    destruct E as (-> & s1 & N1 & R1 & Hp1 & K1 & Hb1 & Hstr1 & W1 & Ok1).
    inversion H; subst u c'; clear H.
    exists (s1 ++ [x00]).
    split; [assumption|]. split; [assumption|]. split; [apply K1|].
    simpl. exists s1. split; [reflexivity|]. split; [|reflexivity].
    apply (zstr_then_words t1 t1 s1 q1); auto using same_scratch_refl. }
  destruct (tag =? u32 Q_GPIC).
  { bind3 H p1 q1 t1 E. apply read_zstr_step in E; auto; [|lia].
    destruct E as (-> & s1 & N1 & R1 & Hp1 & K1 & Hb1 & Hstr1 & W1 & Ok1).
    bind2 H v1 t2 E. apply read_u32_step in E; auto.
    destruct E as (w1 & L1 & _ & R2 & S2 & W2 & Ok2).
    bind2 H v2 t3 E. apply read_u32_step in E; auto.
    destruct E as (w2 & L2 & _ & R3 & S3 & W3 & Ok3).
    inversion H; subst u c'; clear H.
    exists ((s1 ++ [x00]) ++ w1 ++ w2).
    split; [|split; [assumption|split]].
    - apply (rd_step_trans c t1 t3 _ _ R1).
      apply (rd_step_trans t1 t2 t3 _ _ R2 R3).
    - destruct K1 as (_ & A1 & _). destruct S2 as (_ & A2 & _).
      destruct S3 as (_ & A3 & _). lia.
    - simpl. exists s1, (w1 ++ w2).
      split; [rewrite len_app; lia|]. split; [reflexivity|].
      split; [|reflexivity].
      apply (zstr_then_words t1 t3 s1 q1); auto.
      eapply same_scratch_trans; eassumption. }
  destruct (tag =? u32 Q_SPIC); [|discriminate].
  bind3 H p1 q1 t1 E. apply read_zstr_step in E; auto; [|lia].
  destruct E as (-> & s1 & N1 & R1 & Hp1 & K1 & Hb1 & Hstr1 & W1 & Ok1).
  bind2 H v1 t2 E. apply read_u32_step in E; auto.
  destruct E as (w1 & L1 & _ & R2 & S2 & W2 & Ok2).
  bind2 H v2 t3 E. apply read_u32_step in E; auto.
  destruct E as (w2 & L2 & _ & R3 & S3 & W3 & Ok3).
  bind2 H v3 t4 E. rewrite read_f32_is_read_u32 in E.
  apply read_u32_step in E; auto.
  destruct E as (w3 & L3 & _ & R4 & S4 & W4 & Ok4).
  bind2 H v4 t5 E. rewrite read_f32_is_read_u32 in E.
  apply read_u32_step in E; auto.
  destruct E as (w4 & L4 & _ & R5 & S5 & W5 & Ok5).
  bind2 H v5 t6 E. rewrite read_f32_is_read_u32 in E.
  apply read_u32_step in E; auto.
  destruct E as (w5 & L5 & _ & R6 & S6 & W6 & Ok6).
  bind2 H v6 t7 E. rewrite read_f32_is_read_u32 in E.
  apply read_u32_step in E; auto.
  destruct E as (w6 & L6 & _ & R7 & S7 & W7 & Ok7).
  inversion H; subst u c'; clear H.
  exists ((s1 ++ [x00]) ++ w1 ++ w2 ++ w3 ++ w4 ++ w5 ++ w6).
  split; [|split; [assumption|split]].
  - apply (rd_step_trans c t1 t7 _ _ R1).
    apply (rd_step_trans t1 t2 t7 _ _ R2).
    apply (rd_step_trans t2 t3 t7 _ _ R3).
    apply (rd_step_trans t3 t4 t7 _ _ R4).
    apply (rd_step_trans t4 t5 t7 _ _ R5).
    apply (rd_step_trans t5 t6 t7 _ _ R6 R7).
  - destruct K1 as (_ & A1 & _). destruct S2 as (_ & A2 & _).
    destruct S3 as (_ & A3 & _). destruct S4 as (_ & A4 & _).
    destruct S5 as (_ & A5 & _). destruct S6 as (_ & A6 & _).
    destruct S7 as (_ & A7 & _). lia.
  - simpl. exists s1, (w1 ++ w2 ++ w3 ++ w4 ++ w5 ++ w6).
    split; [rewrite !len_app; lia|]. split; [reflexivity|].
    split; [|reflexivity].
    apply (zstr_then_words t1 t7 s1 q1); auto.
    apply (same_scratch_trans t1 t2 t7 S2).
    apply (same_scratch_trans t2 t3 t7 S3).
    apply (same_scratch_trans t3 t4 t7 S4).
    apply (same_scratch_trans t4 t5 t7 S5).
    apply (same_scratch_trans t5 t6 t7 S6 S7).
Qed.

End Decoder.

Lemma read_all_loop_eof (fuel : nat) :
  forall fd got size,
    incoming fd = [] -> rbenign fd = true -> 0 < size ->
    (length (rsched fd) < fuel)%nat ->
    read_all_loop fuel fd got size = Abort.
Proof.
  induction fuel as [|fuel IH]; intros fd got size Hi Hb Hs Hf; [lia|].
  simpl. destruct (size >? 0) eqn:E; [|lia].
  destruct (read fd size) as [[e|d] fd1] eqn:Er.
  - apply read_Err in Er. destruct Er as ((I1 & _ & _ & B1 & _) & L1 & He).
    rewrite (He Hb). simpl in I1. apply IH; auto; [congruence|lia].
  - apply read_Ok in Er. destruct Er as ((I1 & _) & _).
    rewrite Hi in I1. symmetry in I1. apply app_eq_nil in I1.
    destruct I1 as [-> _]. reflexivity.
Qed.

Section Queries.

Context {env : environment}.

Lemma read_query_fields_unknown (fuel : nat) (t : channel) (tag : Z) :
  known_query_tag tag = false -> read_query_fields fuel t tag = Abort.
Proof.
  unfold known_query_tag, query_tags. cbn [existsb].
  intros H. repeat (apply orb_false_iff in H; destruct H as [? H]).
  unfold read_query_fields.
  repeat match goal with
  | E : (tag =? ?q) = false |- _ => rewrite E; clear E
  end.
  reflexivity.
Qed.

Lemma read_query_fields_known (fuel : nat) (t t' : channel) (tag : Z)
    (u : query_union) :
  read_query_fields fuel t tag = Ret (u, t') -> known_query_tag tag = true.
Proof.
  intros H. destruct (known_query_tag tag) eqn:E; [reflexivity|].
  rewrite read_query_fields_unknown in H by assumption. discriminate.
Qed.

Lemma channel_read_query_sound (fuel : nat) (c c' : channel) (r r' : query_t)
    (b : bool) :
  wf_in c -> scratch_ok c ->
  channel_read_query fuel c r = Ret (b, c', r') ->
  wf_in c' /\ scratch_ok c' /\ buf_size c <= buf_size c' /\
  (b = false ->
   r' = r /\ rd_step c c' [] /\ same_scratch c c' /\
   input_pos c = input_len c /\ incoming (fd c) = []) /\
  (b = true ->
   exists tb mb body,
     len tb = 4 /\ len mb = 4 /\ q_tag r' = u32_of_bytes tb /\
     q_time r' = u32_of_bytes mb /\ rd_step c c' (tb ++ mb ++ body) /\
     scratch_fields c' (q_u r') body /\ known_query_tag (q_tag r') = true).
Proof.
  intros W Ok H. unfold channel_read_query in H.
  bind2 H o t1 E. apply try_read_u32_sound in E; [|assumption].
  destruct E as (S1 & Ho).
  pose proof (same_scratch_ok c t1 Ok S1) as Ok1.
  assert (Hs1 : buf_size t1 = buf_size c) by apply S1.
  destruct o as [tag|].
  - destruct Ho as (tb & Ltb & Htag & R1).
    assert (W1 : wf_in t1) by apply R1.
    bind2 H time t2 E. apply read_u32_step in E; auto.
    destruct E as (mb & Lmb & Htime & R2 & S2 & W2 & Ok2).
    assert (Hs2 : buf_size t2 = buf_size t1) by apply S2.
    bind2 H u t3 E. pose proof (read_query_fields_known _ _ _ _ _ E) as Hk.
    apply read_query_fields_sound in E; auto.
    destruct E as (body & R3 & Ok3 & Hb3 & Hf).
    inversion H; subst b c' r'; clear H.
    split; [apply R3|]. split; [assumption|]. split; [lia|].
    split; [discriminate|]. intros _.
    exists tb, mb, body. simpl.
    split; [assumption|]. split; [assumption|]. split; [assumption|].
    split; [assumption|]. split; [|split; assumption].
    apply (rd_step_trans c t1 t3 _ _ R1).
    apply (rd_step_trans t1 t2 t3 _ _ R2 R3).
  - destruct Ho as (Hp & Hi & R1).
    inversion H; subst b c' r'; clear H.
    split; [apply R1|]. split; [assumption|]. split; [lia|].
    split; [|discriminate]. intros _. auto.
Qed.

End Queries.

(** ** Decoding a given input *)

Section Next.

Context {env : environment}.

Lemma read_u32_next (fuel : nat) (c : channel) (bs rest : list byte) :
  wf_in c -> scratch_ok c -> rbenign (fd c) = true ->
  unread c = bs ++ rest -> len bs = 4 ->
  (length (rsched (fd c)) < fuel)%nat ->
  exists c',
    read_u32 fuel c = Ret (u32_of_bytes bs, c') /\
    wf_in c' /\ scratch_ok c' /\ rbenign (fd c') = true /\
    unread c' = rest /\
    (length (rsched (fd c')) <= length (rsched (fd c)))%nat /\
    same_scratch c c'.
Proof.
  intros W Ok Hb Hu Hl Hf.
  destruct (read_u32_spec fuel c bs rest) as (c' & H & R & S & U); auto.
  exists c'. split; [assumption|]. split; [apply R|].
  split; [eapply same_scratch_ok; eassumption|].
  split; [apply R; assumption|]. split; [assumption|].
  split; [apply R|assumption].
Qed.

Lemma try_read_u32_next (fuel : nat) (c : channel) (bs rest : list byte) :
  wf_in c -> scratch_ok c -> rbenign (fd c) = true ->
  unread c = bs ++ rest -> len bs = 4 ->
  (length (rsched (fd c)) < fuel)%nat ->
  exists c',
    try_read_u32 fuel c = Ret (Some (u32_of_bytes bs), c') /\
    wf_in c' /\ scratch_ok c' /\ rbenign (fd c') = true /\
    unread c' = rest /\
    (length (rsched (fd c')) <= length (rsched (fd c)))%nat /\
    same_scratch c c'.
Proof.
  intros W Ok Hb Hu Hl Hf.
  destruct (try_read_u32_spec fuel c W Hb Hf) as (_ & Hsome).
  destruct (Hsome bs rest Hu Hl) as (c' & H & R & S & U).
  exists c'. split; [assumption|]. split; [apply R|].
  split; [eapply same_scratch_ok; eassumption|].
  split; [apply R; assumption|]. split; [assumption|].
  split; [apply R|assumption].
Qed.

Lemma read_zstr_next (fuel : nat) (c : channel) (pos : Z)
    (s rest : list byte) :
  wf_in c -> scratch_ok c -> rbenign (fd c) = true ->
  0 <= pos <= buf_size c ->
  unread c = s ++ x00 :: rest -> no_nul s ->
  pos + len s + 1 <= 2 ^ 30 ->
  (length (rsched (fd c)) + length s + 1 < fuel)%nat ->
  exists c',
    read_zstr fuel c pos = Ret (pos, pos + len s + 1, c') /\
    wf_in c' /\ scratch_ok c' /\ rbenign (fd c') = true /\
    unread c' = rest /\
    (length (rsched (fd c')) <= length (rsched (fd c)))%nat /\
    kept c c' pos /\ pos + len s + 1 <= buf_size c' /\
    sub (buf c') pos (len s + 1) = s ++ [x00].
Proof.
  intros W Ok Hb Hpos Hu Hs Hmax Hf.
  destruct (read_zstr_spec fuel c pos s rest)
    as (c' & H & R & U & K & Hle & Hstr); auto.
  exists c'. split; [assumption|]. split; [apply R|].
  split; [apply K|].
  split; [apply R; assumption|]. split; [assumption|].
  split; [apply R|]. auto.
Qed.

(** A whole Q_OPEN frame, however it is divided between the staging
    buffer and the stream. *)
Lemma channel_read_query_open (fuel : nat) (c : channel) (r : query_t)
    (wt wf path mode rest : list byte) :
  wf_in c -> scratch_ok c -> rbenign (fd c) = true ->
  unread c = bytes_of_u32 (u32 Q_OPEN) ++ wt ++ wf
             ++ path ++ x00 :: mode ++ x00 :: rest ->
  len wt = 4 -> len wf = 4 -> no_nul path -> no_nul mode ->
  len path + len mode + 2 <= 2 ^ 30 ->
  (length (rsched (fd c)) + length path + length mode + 2 <= fuel)%nat ->
  exists c' p m,
    channel_read_query fuel c r
      = Ret (true, c',
             mkQuery (u32_of_bytes wt) (u32 Q_OPEN)
               (U_open (u32_of_bytes wf) p m)) /\
    zstr_at c' p path /\ zstr_at c' m mode /\ unread c' = rest.
Proof.
  intros W Ok Hb Hu Lt Lf Np Nm Hmax Hf.
  pose proof (len_nonneg path) as Hlp. pose proof (len_nonneg mode) as Hlm.
  unfold channel_read_query.
  destruct (try_read_u32_next fuel c _ _ W Ok Hb Hu eq_refl)
    as (c1 & E1 & W1 & Ok1 & B1 & U1 & L1 & _); [lia|].
  rewrite E1. cbn [bind].
  rewrite (u32_roundtrip _ (u32_range Q_OPEN)).
  destruct (read_u32_next fuel c1 _ _ W1 Ok1 B1 U1 Lt)
    as (c2 & E2 & W2 & Ok2 & B2 & U2 & L2 & _); [lia|].
  rewrite E2. cbn [bind].
  unfold read_query_fields. rewrite Z.eqb_refl.
  destruct (read_u32_next fuel c2 _ _ W2 Ok2 B2 U2 Lf)
    as (c3 & E3 & W3 & Ok3 & B3 & U3 & L3 & _); [lia|].
  rewrite E3. cbn [bind].
  pose proof (scratch_ok_pos c3 Ok3) as Hp3.
  destruct (read_zstr_next fuel c3 0 _ _ W3 Ok3 B3 ltac:(lia) U3 Np)
    as (c4 & E4 & W4 & Ok4 & B4 & U4 & L4 & K4 & Hle4 & Hs4); [lia|lia|].
  rewrite E4. cbn [bind].
  destruct (read_zstr_next fuel c4 (0 + len path + 1) _ _ W4 Ok4 B4
              ltac:(lia) U4 Nm)
    as (c5 & E5 & W5 & Ok5 & B5 & U5 & L5 & K5 & Hle5 & Hs5); [lia|lia|].
  rewrite E5. cbn [bind].
  exists c5, (buf_at c5 0), (buf_at c5 (0 + len path + 1)).
  split; [reflexivity|]. split; [|split; [|assumption]].
  - unfold zstr_at, buf_at. cbn [blk off].
    split; [reflexivity|]. split; [lia|]. split; [lia|].
    split; [|assumption].
    destruct K5 as (_ & _ & Hk & _).
    rewrite (sub_eq_inside _ _ (0 + len path + 1) 0 (len path + 1) Hk)
      by lia.
    exact Hs4.
  - unfold zstr_at, buf_at. cbn [blk off].
    split; [reflexivity|]. split; [lia|]. split; [lia|].
    split; assumption.
Qed.

End Next.

(** ** Handshake *)

Lemma byte_to_Z_inj (a b : byte) : byte_to_Z a = byte_to_Z b -> a = b.
Proof.
  unfold byte_to_Z. intros H. apply N2Z.inj in H.
  pose proof (Byte.of_to_N a) as Ha. pose proof (Byte.of_to_N b) as Hb'.
  rewrite H in Ha. congruence.
Qed.

Lemma strncmp_zero (n : nat) :
  forall s1 s2,
    length s2 = n -> (n <= length s1)%nat -> no_nul (firstn n s1) ->
    (strncmp s1 s2 n = 0 <-> firstn n s1 = s2).
Proof.
  induction n as [|n IH]; intros s1 s2 H2 H1 Hn.
  - destruct s2; [|discriminate]. simpl. split; reflexivity.
  - destruct s1 as [|c1 r1]; [simpl in H1; lia|].
    destruct s2 as [|c2 r2]; [discriminate|].
    simpl in *. inversion Hn as [|? ? Hc Hr]; subst.
    destruct (Byte.eqb c1 c2) eqn:E.
    + apply Byte.byte_dec_bl in E. subst c2.
      destruct (Byte.eqb c1 x00) eqn:E0.
      { apply Byte.byte_dec_bl in E0. congruence. }
      rewrite (IH r1 r2) by (auto; lia).
      split; [intros ->; reflexivity|intros H; inversion H; reflexivity].
    + apply Byte.eqb_false in E. split.
      * intros H. exfalso. apply E. apply byte_to_Z_inj. lia.
      * intros H. inversion H. congruence.
Qed.

Section Handshake.

Context {env : environment}.

Lemma handshake_compare (answer : list byte) :
  len answer = 12 ->
  ((strncmp HND_CLIENT answer (Z.to_nat (LEN HND_CLIENT)) =? 0) = true <->
   answer = String.list_byte_of_string "TEXPRESSOC01").
Proof.
  intros Hl. rewrite Z.eqb_eq.
  change (Z.to_nat (LEN HND_CLIENT)) with 12%nat.
  rewrite strncmp_zero.
  - change (firstn 12 HND_CLIENT)
      with (String.list_byte_of_string "TEXPRESSOC01").
    split; congruence.
  - unfold len in Hl. lia.
  - simpl. lia.
  - change (firstn 12 HND_CLIENT)
      with (String.list_byte_of_string "TEXPRESSOC01").
    repeat constructor; discriminate.
Qed.

End Handshake.

(** * Properties of the specification: the output side *)

Section OutputClaims.

Context {env : environment}.

(** C2. For an A_STAT answer [channel_write_answer] writes the tag and the
    flag [a->stat.flag], then the 13 members of the stat record exactly when
    the flag it tests, [a->accs.flag], equals [ACCS_OK]; otherwise nothing
    more is written and the frame counts 8 bytes.  Where the two flag
    members name the same storage, the record follows exactly when the flag
    written says success.  The call returns on a stream whose writes do not
    fail. *)
Theorem stat_answer_frame (fuel : nat) (t : channel) (a : answer_t) :
  a_tag a = A_STAT ->
  A_STAT <> A_DONE -> A_STAT <> A_PASS -> A_STAT <> A_FORK ->
  A_STAT <> A_READ -> A_STAT <> A_ACCS ->
  wf_out t ->
  let head := bytes_of_u32 (u32 A_STAT) ++ bytes_of_u32 (u32 (stat_flag a)) in
  let frame :=
    head ++ (if accs_flag a =? ACCS_OK then stat_record (stat_stat a) else [])
  in
  (forall t', channel_write_answer fuel t a = Ret t' ->
              sent t' = sent t ++ frame) /\
  (wbenign (fd t) = true -> (length (wsched (fd t)) < fuel)%nat ->
   exists t', channel_write_answer fuel t a = Ret t') /\
  len head = 8 /\
  (accs_flag a <> ACCS_OK -> frame = head /\ len frame = 8) /\
  (accs_flag a = ACCS_OK ->
   frame = head ++ stat_record (stat_stat a) /\ len frame = 72) /\
  (accs_flag a = stat_flag a ->
   (stat_flag a = ACCS_OK -> frame = head ++ stat_record (stat_stat a)) /\
   (stat_flag a <> ACCS_OK -> frame = head)).
Proof.
  intros Ht H1 H2 H3 H4 H5 W head frame.
  assert (Hc : answer_calls (buf t) a =
               Some (u32_call A_STAT :: u32_call (stat_flag a)
                     :: (if accs_flag a =? ACCS_OK
                         then stat_calls (stat_stat a) else []))).
  { unfold answer_calls. rewrite Ht.
    rewrite (proj2 (Z.eqb_neq _ _) H1), (proj2 (Z.eqb_neq _ _) H2),
      (proj2 (Z.eqb_neq _ _) H3), (proj2 (Z.eqb_neq _ _) H4),
      (proj2 (Z.eqb_neq _ _) H5), Z.eqb_refl. reflexivity. }
  assert (Hok : Forall wcall_ok
                  (u32_call A_STAT :: u32_call (stat_flag a)
                   :: (if accs_flag a =? ACCS_OK
                       then stat_calls (stat_stat a) else []))).
  { constructor; [apply u32_call_ok|]. constructor; [apply u32_call_ok|].
    destruct (accs_flag a =? ACCS_OK); [apply stat_calls_ok|constructor]. }
  assert (Hb : concat (map wcall_bytes
                  (u32_call A_STAT :: u32_call (stat_flag a)
                   :: (if accs_flag a =? ACCS_OK
                       then stat_calls (stat_stat a) else []))) = frame).
  { unfold frame, head. destruct (accs_flag a =? ACCS_OK); reflexivity. }
  rewrite channel_write_answer_calls, Hc.
  split; [|split; [|split; [|split; [|split]]]].
  - intros t' H. apply write_seq_sound in H; auto.
    rewrite <- Hb. apply H.
  - intros Hw Hf. apply write_seq_runs; auto.
  - reflexivity.
  - intros Hn. unfold frame.
    rewrite (proj2 (Z.eqb_neq _ _) Hn), app_nil_r. auto.
  - intros He. unfold frame. rewrite He, Z.eqb_refl.
    split; [reflexivity|]. rewrite len_app, len_stat_record. reflexivity.
  - intros Hs. unfold frame. rewrite Hs. split.
    + intros ->. rewrite Z.eqb_refl. reflexivity.
    + intros Hn. rewrite (proj2 (Z.eqb_neq _ _) Hn), app_nil_r. reflexivity.
Qed.

(** C7, amended. Encoding an A_READ answer of size 5 whose payload
    1,2,3,4,5 lies at the start of the scratch buffer, then flushing,
    delivers after what was staged before (nothing on a channel with an
    empty staging area) the frame u32(A_READ), u32(5), payload, in that
    order; the frame counts 13 bytes (4 + 4 + 5).  On a stream whose writes
    do not fail both calls return. *)
Theorem read_answer_frame (fuel : nat) (t : channel) (a : answer_t) :
  a_tag a = A_READ ->
  A_READ <> A_DONE -> A_READ <> A_PASS -> A_READ <> A_FORK ->
  read_size a = 5 ->
  sub (buf t) 0 5 = [x01; x02; x03; x04; x05] ->
  wf_out t ->
  let frame :=
    bytes_of_u32 (u32 A_READ) ++ bytes_of_u32 (u32 5)
    ++ [x01; x02; x03; x04; x05] in
  len frame = 13 /\
  (forall t',
      (t1 <- channel_write_answer fuel t a;; channel_flush fuel t1) = Ret t' ->
      delivered (fd t') = delivered (fd t) ++ staged t ++ frame /\
      (output_pos t = 0 -> delivered (fd t') = delivered (fd t) ++ frame)) /\
  (wbenign (fd t) = true -> (length (wsched (fd t)) < fuel)%nat ->
   exists t',
     (t1 <- channel_write_answer fuel t a;; channel_flush fuel t1) = Ret t').
Proof.
  intros Ht H1 H2 H3 Hs Hp W frame.
  assert (Hc : answer_calls (buf t) a =
               Some [u32_call A_READ; u32_call 5; (buf t, 5)]).
  { unfold answer_calls. rewrite Ht, Hs.
    rewrite (proj2 (Z.eqb_neq _ _) H1), (proj2 (Z.eqb_neq _ _) H2),
      (proj2 (Z.eqb_neq _ _) H3), Z.eqb_refl. reflexivity. }
  assert (Hl : 5 <= len (buf t)).
  { assert (Hn : length (sub (buf t) 0 5) = 5%nat) by (rewrite Hp; reflexivity).
    unfold sub in Hn. rewrite length_firstn, length_skipn in Hn.
    unfold len. lia. }
  assert (Hok : Forall wcall_ok [u32_call A_READ; u32_call 5; (buf t, 5)]).
  { repeat (constructor; [apply u32_call_ok|]).
    constructor; [|constructor].
    unfold wcall_ok, INT_MAX, BUF_SIZE. simpl. lia. }
  assert (Hb : concat (map wcall_bytes
                 [u32_call A_READ; u32_call 5; (buf t, 5)]) = frame).
  { unfold frame. cbn [map concat]. unfold wcall_bytes. cbn [fst snd].
    rewrite Hp. reflexivity. }
  rewrite channel_write_answer_calls, Hc. unfold channel_flush.
  split; [reflexivity|]. split.
  - intros t' H. apply write_seq_flush_sound in H; auto.
    destruct H as [H _]. rewrite Hb in H. split; [exact H|].
    intros H0. rewrite H. unfold staged. rewrite H0, sub_nil. reflexivity.
  - intros Hw Hf. apply write_seq_flush_runs; auto.
Qed.

(** C8. Whatever calls of the output writer a series of message encodings
    makes, the series followed by [channel_flush] delivers to the stream,
    after what was staged before, the concatenation in call order of the
    byte sequences passed to the writer: however the calls fall on the
    4096-byte staging buffer, and also for a sequence above 4096 bytes,
    which goes to the stream directly after the staged bytes.  On a stream
    whose writes do not fail the series returns.  [channel_write_answer] and
    [channel_write_ask] reach the stream through these writer calls only. *)
Theorem flush_delivers_concat (fuel : nat) (t : channel) :
  wf_out t ->
  (forall ws,
      Forall wcall_ok ws ->
      (forall t',
          (t1 <- write_seq fuel t ws;; channel_flush fuel t1) = Ret t' ->
          delivered (fd t') =
            delivered (fd t) ++ staged t ++ concat (map wcall_bytes ws) /\
          output_pos t' = 0) /\
      (wbenign (fd t) = true -> (length (wsched (fd t)) < fuel)%nat ->
       exists t',
         (t1 <- write_seq fuel t ws;; channel_flush fuel t1) = Ret t')) /\
  (forall ms ws,
      messages_calls (buf t) ms = Some ws ->
      write_messages fuel t ms = write_seq fuel t ws).
Proof.
  intros W. split.
  - intros ws Hok. unfold channel_flush. split.
    + intros t' H. eapply write_seq_flush_sound; eauto.
    + intros Hb Hf. apply write_seq_flush_runs; auto.
  - intros ms ws H. apply write_messages_calls. assumption.
Qed.

End OutputClaims.

(** * Properties of the specification: the input side *)

Section InputClaims.

Context {env : environment}.

(** C1. On a channel in order whose unread input starts with the frame
    u32(Q_OPEN), u32(42), u32(3), "/tmp/a\0", "r\0", and whose reads do
    not fail, [channel_read_query] returns true with tag Q_OPEN (as 32-bit
    pattern), time 42 and fid 3; the path pointer is into the scratch buffer
    where the string "/tmp/a" lies, the mode pointer where "r" lies, and
    the input after the frame is left unread.  However the reads are cut
    or interrupted, fuel for the bytes of the frame is enough. *)
Theorem decode_open_frame (fuel : nat) (c : channel) (r : query_t)
    (rest : list byte) :
  wf_in c -> scratch_ok c -> rbenign (fd c) = true ->
  unread c = open_frame ++ rest ->
  (length (rsched (fd c)) + 9 <= fuel)%nat ->
  exists c' path mode,
    channel_read_query fuel c r
      = Ret (true, c', mkQuery 42 (u32 Q_OPEN) (U_open 3 path mode)) /\
    zstr_at c' path (String.list_byte_of_string "/tmp/a") /\
    zstr_at c' mode (String.list_byte_of_string "r") /\
    unread c' = rest.
Proof.
  intros W Ok Hb Hu Hf.
  unfold open_frame in Hu. rewrite <- !app_assoc in Hu.
  destruct (channel_read_query_open fuel c r (bytes_of_u32 42)
              (bytes_of_u32 3) (String.list_byte_of_string "/tmp/a")
              (String.list_byte_of_string "r") rest W Ok Hb Hu)
    as (c' & p & m & E & Hp & Hm & Hr);
    try reflexivity; try (repeat constructor; discriminate).
  - change (length (String.list_byte_of_string "/tmp/a")) with 6%nat.
    change (length (String.list_byte_of_string "r")) with 1%nat. lia.
  - exists c', p, m. split; [exact E|]. auto.
Qed.

(** C3. [channel_read_query] returns false only when no input byte is
    available at all: none staged and the stream at its end; in that case
    it does return false.  When at least the four bytes of a tag are still
    to come, however few of them are staged (one to three, or none), the tag
    is read once they have arrived: [try_read_u32] returns true with the
    word they represent, and the decode does not return false.  It then
    goes on to the end of the message: a Q_OPEN frame that arrives in full
    is decoded and true is returned. *)
Theorem false_only_without_input (fuel : nat) (c : channel) (r : query_t) :
  wf_in c -> scratch_ok c ->
  (forall c' r',
      channel_read_query fuel c r = Ret (false, c', r') ->
      input_pos c = input_len c /\ incoming (fd c) = [] /\ unread c = []) /\
  (rbenign (fd c) = true -> (length (rsched (fd c)) < fuel)%nat ->
   unread c = [] ->
   exists c', channel_read_query fuel c r = Ret (false, c', r)) /\
  (rbenign (fd c) = true -> (length (rsched (fd c)) < fuel)%nat ->
   forall bs rest,
     unread c = bs ++ rest -> len bs = 4 ->
     (exists c', try_read_u32 fuel c = Ret (Some (u32_of_bytes bs), c') /\
                 unread c' = rest) /\
     (forall c' r', channel_read_query fuel c r <> Ret (false, c', r')) /\
     (forall wt wf path mode rest',
         bs = bytes_of_u32 (u32 Q_OPEN) ->
         rest = wt ++ wf ++ path ++ x00 :: mode ++ x00 :: rest' ->
         len wt = 4 -> len wf = 4 -> no_nul path -> no_nul mode ->
         len path + len mode + 2 <= 2 ^ 30 ->
         (length (rsched (fd c)) + length path + length mode + 2
          <= fuel)%nat ->
         exists c' p m,
           channel_read_query fuel c r
             = Ret (true, c',
                    mkQuery (u32_of_bytes wt) (u32 Q_OPEN)
                      (U_open (u32_of_bytes wf) p m)) /\
           zstr_at c' p path /\ zstr_at c' m mode /\ unread c' = rest')).
Proof.
  intros W Ok.
  assert (Hfalse : forall c' r',
    channel_read_query fuel c r = Ret (false, c', r') ->
    input_pos c = input_len c /\ incoming (fd c) = [] /\ unread c = []).
  { intros c' r' H.
    apply channel_read_query_sound in H; auto.
    destruct H as (_ & _ & _ & Hf & _).
    destruct (Hf eq_refl) as (_ & _ & _ & Hp & Hi).
    split; [assumption|]. split; [assumption|].
    unfold unread, pending. rewrite Hi, Hp, Z.sub_diag, sub_nil.
    reflexivity. }
  split; [exact Hfalse|]. split.
  - intros Hb Hf Hu.
    destruct (try_read_u32_spec fuel c W Hb Hf) as (Hnone & _).
    destruct (Hnone Hu) as (c' & E & _).
    exists c'. unfold channel_read_query. rewrite E. reflexivity.
  - intros Hb Hf bs rest Hu Hl. split; [|split].
    + destruct (try_read_u32_next fuel c bs rest W Ok Hb Hu Hl Hf)
        as (c' & E & _ & _ & _ & U & _).
      exists c'. auto.
    + intros c' r' H. apply Hfalse in H. destruct H as (_ & _ & Hn).
      rewrite Hn in Hu. destruct bs; [discriminate|discriminate].
    + intros wt wf path mode rest' -> -> Lt Lf Np Nm Hmax Hfuel.
      apply channel_read_query_open; auto.
Qed.

(** C9. When the four bytes that come first represent no Query tag,
    [channel_read_query] never returns, whatever the fuel and however the
    reads turn out; and where tag and timestamp can be read, both are read
    and the [switch] then takes its [default] branch, which aborts. *)
Theorem unknown_tag_aborts (c : channel) (r : query_t)
    (tb rest : list byte) :
  wf_in c -> scratch_ok c ->
  unread c = tb ++ rest -> len tb = 4 ->
  known_query_tag (u32_of_bytes tb) = false ->
  (forall fuel res, channel_read_query fuel c r <> Ret res) /\
  (forall fuel mb rest',
      rbenign (fd c) = true -> rest = mb ++ rest' -> len mb = 4 ->
      (length (rsched (fd c)) < fuel)%nat ->
      exists c1 c2,
        try_read_u32 fuel c = Ret (Some (u32_of_bytes tb), c1) /\
        read_u32 fuel c1 = Ret (u32_of_bytes mb, c2) /\
        read_query_fields fuel c2 (u32_of_bytes tb) = Abort /\
        channel_read_query fuel c r = Abort).
Proof.
  intros W Ok Hu Hl Hk. split.
  - intros fuel [[b c'] r'] H.
    apply channel_read_query_sound in H; auto.
    destruct H as (_ & _ & _ & Hf & Ht). destruct b.
    + destruct (Ht eq_refl) as (tb' & mb & body & L1 & _ & Htag & _ & R & _
                                & Hkn).
      destruct R as (_ & U & _). rewrite Hu in U.
      rewrite <- app_assoc in U.
      apply app_eq_len in U; [|unfold len in *; lia].
      destruct U as [<- _]. rewrite Htag in Hkn. congruence.
    + destruct (Hf eq_refl) as (_ & _ & _ & Hp & Hi).
      pose proof (len_unread c W) as Hlu.
      rewrite Hu, len_app, Hi, Hp in Hlu. change (len []) with 0 in Hlu.
      pose proof (len_nonneg rest). lia.
  - intros fuel mb rest' Hb Hr Hlm Hf. subst rest.
    destruct (try_read_u32_next fuel c _ _ W Ok Hb Hu Hl Hf)
      as (c1 & E1 & W1 & Ok1 & B1 & U1 & L1 & _).
    destruct (read_u32_next fuel c1 _ _ W1 Ok1 B1 U1 Hlm)
      as (c2 & E2 & _); [lia|].
    exists c1, c2. split; [exact E1|]. split; [exact E2|].
    split; [apply read_query_fields_unknown; assumption|].
    unfold channel_read_query. rewrite E1. cbn [bind].
    rewrite E2. cbn [bind].
    rewrite read_query_fields_unknown by assumption. reflexivity.
Qed.

(** C10. When [channel_read_query] returns false the query structure of
    the caller is as it was, and so is the unread input (there was none):
    nothing has been consumed, the scratch buffer and the output side are
    untouched, and the channel is still in order for the next call. *)
Theorem false_leaves_all_unchanged (fuel : nat) (c c' : channel)
    (r r' : query_t) :
  wf_in c -> scratch_ok c ->
  channel_read_query fuel c r = Ret (false, c', r') ->
  r' = r /\ unread c' = unread c /\ same_scratch c c' /\
  same_output c c' /\ wf_in c' /\ scratch_ok c'.
Proof.
  intros W Ok H. apply channel_read_query_sound in H; auto.
  destruct H as (W' & Ok' & _ & Hf & _).
  destruct (Hf eq_refl) as (Hr & R & S & _).
  destruct R as (_ & U & O & _). simpl in U.
  split; [assumption|]. split; [congruence|]. auto.
Qed.

(** C4 (what the code does). [crefill] asked for at least one more byte
    on a stream at its end, where every [read] returns 0, is still in its
    loop whatever the fuel: it neither aborts nor returns.  [read_all], the
    sibling loop, aborts on the same stream. *)
Theorem refill_at_eof_never_ends (fuel : nat) (c : channel) (at_least : Z) :
  wf_in c -> incoming (fd c) = [] -> rbenign (fd c) = true ->
  1 <= at_least -> input_len c - input_pos c + at_least <= BUF_SIZE ->
  crefill fuel c at_least = Spin /\
  (forall n fuel', 0 < n -> (length (rsched (fd c)) < fuel')%nat ->
                   read_all fuel' (fd c) n = Abort).
Proof.
  intros W Hi Hb Ha Hs. split.
  - pose proof (len_pending c W) as Hlp. destruct W as (Hp & Hl & Hbuf).
    unfold crefill. fold (pending c).
    rewrite memcpy_Ret by lia. cbn [bind].
    unfold buffered_read_at_least.
    destruct (BUF_SIZE - (input_len c - input_pos c) <? at_least) eqn:E;
      [lia|].
    rewrite buffered_read_loop_spins; auto.
    change (len []) with 0. lia.
  - intros n fuel' Hn Hf. unfold read_all.
    apply read_all_loop_eof; auto.
Qed.

End InputClaims.

Section InputClaims2.

Context {env : environment}.

Lemma read_queries_inv (fuel : nat) (n : nat) :
  forall t0 q t q',
    wf_in t0 -> scratch_ok t0 ->
    read_queries fuel n t0 q = Ret (t, q') ->
    wf_in t /\ scratch_ok t /\ buf_size t0 <= buf_size t.
Proof.
  induction n as [|n IH]; intros t0 q t q' W Ok H; simpl in H.
  - inversion H; subst. auto with zarith.
  - destruct (channel_read_query fuel t0 q) as [[[b t1] q1]| | |] eqn:E;
      cbn [bind] in H; try discriminate.
    apply channel_read_query_sound in E; auto.
    destruct E as (W1 & Ok1 & L1 & _).
    apply IH in H; auto. destruct H as (W2 & Ok2 & L2).
    split; [assumption|]. split; [assumption|]. lia.
Qed.


End InputClaims2.

(** * The theorems at work on concrete input *)

Ltac evaluate :=
  unfold wf_in, wf_out, scratch_ok;
  repeat match goal with
  | |- _ /\ _ => split
  | |- exists k : nat, _ => exists O
  end;
  try reflexivity; try (vm_compute; discriminate);
  try (vm_compute; intro; discriminate).

Lemma decode_open_frame_witness :
  exists c' path mode,
    channel_read_query (env := packed_env) 20
      (channel_new (env := packed_env) open_stream) q0
    = Ret (true, c',
           mkQuery 42 (u32 (Q_OPEN (environment := packed_env)))
             (U_open 3 path mode)) /\
    zstr_at c' path (String.list_byte_of_string "/tmp/a") /\
    zstr_at c' mode (String.list_byte_of_string "r") /\
    unread c' = [x07].
Proof.
  apply (decode_open_frame (env := packed_env) 20
           (channel_new (env := packed_env) open_stream) q0 [x07]).
  - evaluate.
  - evaluate.
  - reflexivity.
  - reflexivity.
  - vm_compute. lia.
Defined.

Lemma stat_answer_frame_witness :
  exists t',
    channel_write_answer (env := packed_env) 5 slow_writer stat_refused
    = Ret t' /\
    sent t' = bytes_of_u32 (u32 (A_STAT (environment := packed_env)))
              ++ bytes_of_u32 2.
Proof.
  pose proof (stat_answer_frame (env := packed_env) 5 slow_writer
                stat_refused) as H.
  simpl in H. specialize (H eq_refl).
  destruct H as (Hs & Hr & _); try (vm_compute; discriminate).
  - evaluate.
  - destruct Hr as [t' Ht]; [reflexivity|vm_compute; lia|].
    exists t'. split; [exact Ht|]. rewrite (Hs t' Ht). reflexivity.
Defined.

Lemma false_only_without_input_witness :
  exists c',
    channel_read_query (env := packed_env) 5
      (channel_new (env := packed_env) closed_stream) q0
    = Ret (false, c', q0).
Proof.
  destruct (false_only_without_input (env := packed_env) 5
              (channel_new (env := packed_env) closed_stream) q0)
    as (_ & H & _).
  - evaluate.
  - evaluate.
  - apply H; [reflexivity|vm_compute; lia|reflexivity].
Defined.

Lemma refill_at_eof_never_ends_witness :
  crefill 1000 (channel_new (env := packed_env) closed_stream) 1 = Spin.
Proof.
  apply (refill_at_eof_never_ends 1000
           (channel_new (env := packed_env) closed_stream) 1).
  - evaluate.
  - reflexivity.
  - reflexivity.
  - lia.
  - vm_compute. discriminate.
Defined.


Lemma read_answer_frame_witness :
  exists t',
    (t1 <- channel_write_answer (env := packed_env) 5 payload_channel
             read_answer;;
     channel_flush 5 t1) = Ret t' /\
    delivered (fd t') =
      bytes_of_u32 (u32 (A_READ (environment := packed_env)))
      ++ bytes_of_u32 (u32 5) ++ [x01; x02; x03; x04; x05].
Proof.
  pose proof (read_answer_frame (env := packed_env) 5 payload_channel
                read_answer) as H.
  simpl in H. specialize (H eq_refl).
  destruct H as (_ & Hs & Hr); try (vm_compute; discriminate);
    try reflexivity.
  - evaluate.
  - destruct Hr as [t' Ht]; [reflexivity|vm_compute; lia|].
    exists t'. split; [exact Ht|].
    destruct (Hs t' Ht) as [_ H0]. apply H0. reflexivity.
Defined.

(** C7 as stated fails: on this input the frame delivered counts 13
    bytes, not 12. *)
Lemma read_answer_frame_is_not_12_bytes :
  exists t',
    (t1 <- channel_write_answer (env := packed_env) 5 payload_channel
             read_answer;;
     channel_flush 5 t1) = Ret t' /\
    delivered (fd t') =
      bytes_of_u32 (u32 (A_READ (environment := packed_env)))
      ++ bytes_of_u32 (u32 5) ++ [x01; x02; x03; x04; x05] /\
    len (delivered (fd t')) = 13 /\ len (delivered (fd t')) <> 12.
Proof.
  vm_compute. eexists. split; [reflexivity|]. split; [reflexivity|].
  split; [reflexivity|discriminate].
Qed.

Lemma flush_delivers_concat_witness :
  exists t',
    (t1 <- write_seq 10 slow_writer some_calls;; channel_flush 10 t1)
    = Ret t' /\
    delivered (fd t') = concat (map wcall_bytes some_calls).
Proof.
  destruct (flush_delivers_concat (env := packed_env) 10 slow_writer)
    as (H & _).
  - evaluate.
  - destruct (H some_calls) as (Hs & Hr).
    + unfold some_calls. repeat constructor; vm_compute; discriminate.
    + destruct Hr as [t' Ht]; [reflexivity|vm_compute; lia|].
      exists t'. split; [exact Ht|].
      destruct (Hs t' Ht) as [Hd _]. rewrite Hd. reflexivity.
Defined.

Lemma unknown_tag_aborts_witness :
  channel_read_query (env := packed_env) 5
    (channel_new (env := packed_env) junk_stream) q0 = Abort.
Proof.
  destruct (unknown_tag_aborts (env := packed_env)
              (channel_new (env := packed_env) junk_stream) q0
              (bytes_of_u32 0) (bytes_of_u32 9 ++ [x01]))
    as (_ & H).
  - evaluate.
  - evaluate.
  - reflexivity.
  - reflexivity.
  - reflexivity.
  - destruct (H 5%nat (bytes_of_u32 9) [x01]) as (c1 & c2 & _ & _ & _ & E);
      [reflexivity|reflexivity|reflexivity|vm_compute; lia|exact E].
Defined.

Lemma false_leaves_all_unchanged_witness :
  exists c' r',
    channel_read_query (env := packed_env) 5
      (channel_new (env := packed_env) closed_stream) q0
    = Ret (false, c', r') /\
    r' = q0 /\
    unread c' = unread (channel_new (env := packed_env) closed_stream).
Proof.
  assert (E : exists c' r',
    channel_read_query (env := packed_env) 5
      (channel_new (env := packed_env) closed_stream) q0
    = Ret (false, c', r')).
  { vm_compute. eexists. eexists. reflexivity. }
  destruct E as (c' & r' & E). exists c', r'. split; [exact E|].
  destruct (false_leaves_all_unchanged (env := packed_env) 5
              (channel_new (env := packed_env) closed_stream) c' q0 r')
    as (H1 & H2 & _).
  - evaluate.
  - evaluate.
  - exact E.
  - split; assumption.
Defined.

(** * Further properties of the code *)

(** ** Labels *)

Lemma all_distinct_nth (l : list Z) :
  all_distinct l = true ->
  forall i j, (i < j < length l)%nat -> (nth j l 0 =? nth i l 0) = false.
Proof.
  induction l as [|x r IH]; intros H i j Hij; [simpl in Hij; lia|].
  simpl in H. apply andb_prop in H. destruct H as [Hx Hr].
  apply negb_true_iff in Hx.
  destruct j as [|j]; [lia|]. simpl in Hij.
  destruct i as [|i]; simpl.
  - rewrite Z.eqb_sym.
    destruct (x =? nth j r 0) eqn:E; [|reflexivity].
    assert (Hex : existsb (Z.eqb x) r = true).
    { apply existsb_exists. exists (nth j r 0).
      split; [apply nth_In; lia|assumption]. }
    congruence.
  - apply IH; [assumption|lia].
Qed.

(** The label [j] differs from the label [i] before it. *)
Ltac skip_label D i j :=
  let E := fresh "E" in
  pose proof (all_distinct_nth _ D i j ltac:(cbn; lia)) as E;
  cbn [nth map query_tags answer_tags] in E; rewrite E; clear E.

(** The label [j] differs from all the labels from [i] on before it: the
    [switch] reaches label [j]. *)
Ltac skip_from D i j :=
  first [ skip_label D i j; let i' := constr:(S i) in skip_from D i' j
        | idtac ].

Ltac reach D j := skip_from D O j; rewrite Z.eqb_refl.

(** ** Words in a row *)

Section Ready.

Context {env : environment}.

Lemma ready_try_read_u32 (n fuel : nat) (c : channel) (bs rest : list byte) :
  ready n c (bs ++ rest) -> len bs = 4 -> (n <= fuel)%nat ->
  exists c',
    try_read_u32 fuel c = Ret (Some (u32_of_bytes bs), c') /\
    ready n c' rest /\ same_scratch c c'.
Proof.
  intros (W & Ok & B & U & L) Lb Hf.
  destruct (try_read_u32_next fuel c bs rest W Ok B U Lb)
    as (c' & E & W' & Ok' & B' & U' & L' & S'); [lia|].
  exists c'. split; [assumption|]. split; [|assumption].
  split; [assumption|]. split; [assumption|]. split; [assumption|].
  split; [assumption|lia].
Qed.

Lemma ready_read_u32 (n fuel : nat) (c : channel) (bs rest : list byte) :
  ready n c (bs ++ rest) -> len bs = 4 -> (n <= fuel)%nat ->
  exists c',
    read_u32 fuel c = Ret (u32_of_bytes bs, c') /\
    ready n c' rest /\ same_scratch c c'.
Proof.
  intros (W & Ok & B & U & L) Lb Hf.
  destruct (read_u32_next fuel c bs rest W Ok B U Lb)
    as (c' & E & W' & Ok' & B' & U' & L' & S'); [lia|].
  exists c'. split; [assumption|]. split; [|assumption].
  split; [assumption|]. split; [assumption|]. split; [assumption|].
  split; [assumption|lia].
Qed.

Lemma ready_read_f32 (n fuel : nat) (c : channel) (bs rest : list byte) :
  ready n c (bs ++ rest) -> len bs = 4 -> (n <= fuel)%nat ->
  exists c',
    read_f32 fuel c = Ret (u32_of_bytes bs, c') /\
    ready n c' rest /\ same_scratch c c'.
Proof.
  rewrite read_f32_is_read_u32. apply ready_read_u32.
Qed.

Lemma ready_read_zstr (n fuel : nat) (c : channel) (pos : Z)
    (s rest : list byte) :
  ready n c (s ++ x00 :: rest) -> no_nul s ->
  0 <= pos <= buf_size c -> pos + len s + 1 <= 2 ^ 30 ->
  (n + length s + 1 <= fuel)%nat ->
  exists c',
    read_zstr fuel c pos = Ret (pos, pos + len s + 1, c') /\
    ready n c' rest /\
    kept c c' pos /\ pos + len s + 1 <= buf_size c' /\
    sub (buf c') pos (len s + 1) = s ++ [x00].
Proof.
  intros (W & Ok & B & U & L) Ns Hp Hm Hf.
  destruct (read_zstr_next fuel c pos s rest W Ok B Hp U Ns Hm)
    as (c' & E & W' & Ok' & B' & U' & L' & K & Hle & Hs); [lia|].
  exists c'. split; [assumption|]. split; [|auto].
  split; [assumption|]. split; [assumption|]. split; [assumption|].
  split; [assumption|lia].
Qed.

(** The header of a frame: tag and timestamp. *)
Lemma ready_header (n fuel : nat) (c : channel) (r : query_t) (tag : Z)
    (wt rest : list byte) :
  ready n c (bytes_of_u32 (u32 tag) ++ wt ++ rest) -> len wt = 4 ->
  (n <= fuel)%nat ->
  exists c2,
    ready n c2 rest /\ same_scratch c c2 /\
    channel_read_query fuel c r =
      ('(u, t) <- read_query_fields fuel c2 (u32 tag);;
       Ret (true, t, mkQuery (u32_of_bytes wt) (u32 tag) u)).
Proof.
  intros R Lt Hf. unfold channel_read_query.
  destruct (ready_try_read_u32 n fuel c _ _ R eq_refl Hf)
    as (c1 & E1 & R1 & S1).
  rewrite E1. cbn [bind].
  rewrite (u32_roundtrip _ (u32_range tag)).
  destruct (ready_read_u32 n fuel c1 _ _ R1 Lt Hf) as (c2 & E2 & R2 & S2).
  rewrite E2. cbn [bind].
  exists c2. split; [assumption|].
  split; [exact (same_scratch_trans _ _ _ S1 S2)|reflexivity].
Qed.

End Ready.

(** Steps of a decode on a channel that is [ready]. *)
Ltac header R Lt Hf c2 R2 S2 :=
  let E := fresh "E" in
  match goal with
  | |- context [channel_read_query ?fuel ?c ?r] =>
      destruct (ready_header _ fuel c r _ _ _ R Lt Hf) as (c2 & R2 & S2 & E);
      rewrite E; clear E; unfold read_query_fields
  end.

Ltac word R Lw Hf c' R' S' :=
  let E := fresh "E" in
  match goal with
  | |- context [read_u32 ?fuel ?c] =>
      destruct (ready_read_u32 _ fuel c _ _ R Lw Hf) as (c' & E & R' & S');
      rewrite E; clear E; cbn [bind]
  end.

Ltac finish c' R' :=
  exists c'; split; [reflexivity|]; split; [apply R'|];
  repeat (eapply same_scratch_trans; [eassumption|]);
  apply same_scratch_refl.

Ltac text R Ns Hf c' R' K' Hle' Hs' :=
  let E := fresh "E" in
  match goal with
  | |- context [read_zstr ?fuel ?c ?pos] =>
      destruct (ready_read_zstr _ fuel c pos _ _ R Ns) as
        (c' & E & R' & K' & Hle' & Hs');
      [try lia ..|rewrite E; clear E; cbn [bind]]
  end.

Ltac float R Lw Hf c' R' S' :=
  let E := fresh "E" in
  match goal with
  | |- context [read_f32 ?fuel ?c] =>
      destruct (ready_read_f32 _ fuel c _ _ R Lw Hf) as (c' & E & R' & S');
      rewrite E; clear E; cbn [bind]
  end.

(** ** Queries made of words *)

Section WordQueries.

Context {env : environment}.

(** X1. The queries whose members are all words: READ, CLOS, SIZE, SEEN, CHLD
    and BACK.  From a frame made of the tag, the timestamp and the members
    in the order of the structure, on a channel in order whose reads do not
    fail, [channel_read_query] returns true with each member holding the
    word that came for it; the frame is consumed, what follows it is left
    unread, and the scratch buffer is not touched. *)
Theorem decode_word_queries (fuel : nat) (c : channel) (r : query_t)
    (wt w1 w2 w3 rest : list byte) :
  query_labels_distinct ->
  wf_in c -> scratch_ok c -> rbenign (fd c) = true ->
  (length (rsched (fd c)) < fuel)%nat ->
  len wt = 4 -> len w1 = 4 -> len w2 = 4 -> len w3 = 4 ->
  let time := u32_of_bytes wt in
  let a := u32_of_bytes w1 in
  let b := u32_of_bytes w2 in
  let d := u32_of_bytes w3 in
  let returns tag frame u :=
    unread c = bytes_of_u32 (u32 tag) ++ wt ++ frame ++ rest ->
    exists c',
      channel_read_query fuel c r = Ret (true, c', mkQuery time (u32 tag) u)
      /\ unread c' = rest /\ same_scratch c c' in
  returns Q_READ (w1 ++ w2 ++ w3) (U_read a b d) /\
  returns Q_CLOS w1 (U_clos a) /\
  returns Q_SIZE w1 (U_size a) /\
  returns Q_SEEN (w1 ++ w2) (U_seen a b) /\
  returns Q_CHLD w1 (U_chld a) /\
  returns Q_BACK (w1 ++ w2 ++ w3) (U_back a b d).
Proof.
  intros D W Ok B L Lt L1 L2 L3. cbv zeta.
  pose proof (le_n fuel) as Hf.
  assert (R : forall l, unread c = l -> ready fuel c l).
  { intros l U. unfold ready. auto. }
  unfold query_labels_distinct in D.
  split; [|split; [|split; [|split; [|split]]]]; intros U;
    apply R in U; rewrite <- ?app_assoc in U.
  - header U Lt Hf c2 R2 S2.
    reach D 1%nat.
    word R2 L1 Hf c3 R3 S3. word R3 L2 Hf c4 R4 S4.
    word R4 L3 Hf c5 R5 S5. finish c5 R5.
  - header U Lt Hf c2 R2 S2.
    reach D 3%nat.
    word R2 L1 Hf c3 R3 S3. finish c3 R3.
  - header U Lt Hf c2 R2 S2.
    reach D 4%nat.
    word R2 L1 Hf c3 R3 S3. finish c3 R3.
  - header U Lt Hf c2 R2 S2.
    reach D 5%nat.
    word R2 L1 Hf c3 R3 S3. word R3 L2 Hf c4 R4 S4. finish c4 R4.
  - header U Lt Hf c2 R2 S2.
    reach D 6%nat.
    word R2 L1 Hf c3 R3 S3. finish c3 R3.
  - header U Lt Hf c2 R2 S2.
    reach D 7%nat.
    word R2 L1 Hf c3 R3 S3. word R3 L2 Hf c4 R4 S4.
    word R4 L3 Hf c5 R5 S5. finish c5 R5.
Qed.

End WordQueries.

(** ** Queries that start with a path *)

Section PathQueries.

Context {env : environment}.

(** X2. The queries whose first member is a path: ACCS, STAT, GPIC and SPIC.
    From a frame made of the tag, the timestamp, the path with its NUL byte
    and the words of the other members, [channel_read_query] returns true;
    the path pointer is to the start of the scratch buffer, where the path
    lies with its terminator, the other members hold the words that came
    for them in the order of the wire (the four bounds of SPIC as the bit
    patterns of their [float]s), and what follows the frame is left
    unread. *)
Theorem decode_path_queries (fuel : nat) (c : channel) (r : query_t)
    (wt path w1 w2 w3 w4 w5 w6 rest : list byte) :
  query_labels_distinct ->
  wf_in c -> scratch_ok c -> rbenign (fd c) = true ->
  (length (rsched (fd c)) + length path + 2 <= fuel)%nat ->
  no_nul path -> len path + 1 <= 2 ^ 30 ->
  len wt = 4 -> len w1 = 4 -> len w2 = 4 -> len w3 = 4 -> len w4 = 4 ->
  len w5 = 4 -> len w6 = 4 ->
  let time := u32_of_bytes wt in
  let returns tag words u :=
    unread c = bytes_of_u32 (u32 tag) ++ wt ++ path ++ x00 :: words ++ rest ->
    exists c' p,
      channel_read_query fuel c r
        = Ret (true, c', mkQuery time (u32 tag) (u p)) /\
      zstr_at c' p path /\ off p = 0 /\ unread c' = rest in
  returns Q_ACCS w1 (fun p => U_accs p (u32_of_bytes w1)) /\
  returns Q_STAT [] (fun p => U_stat p) /\
  returns Q_GPIC (w1 ++ w2)
    (fun p => U_gpic p (u32_of_bytes w1) (u32_of_bytes w2)) /\
  returns Q_SPIC (w1 ++ w2 ++ w3 ++ w4 ++ w5 ++ w6)
    (fun p => U_spic p (u32_of_bytes w1) (u32_of_bytes w2)
                (u32_of_bytes w3) (u32_of_bytes w4) (u32_of_bytes w5)
                (u32_of_bytes w6)).
Proof.
  intros D W Ok B L Np Hmax Lt L1 L2 L3 L4 L5 L6. cbv zeta.
  set (n := S (length (rsched (fd c)))).
  assert (Hf : (n <= fuel)%nat) by (unfold n; lia).
  assert (Hfs : (n + length path + 1 <= fuel)%nat) by (unfold n; lia).
  assert (R : forall l, unread c = l -> ready n c l).
  { intros l U. unfold ready, n.
    split; [assumption|]. split; [assumption|]. split; [assumption|].
    split; [assumption|lia]. }
  unfold query_labels_distinct in D.
  assert (Hz : forall c3 c4,
             0 + len path + 1 <= buf_size c3 ->
             sub (buf c3) 0 (len path + 1) = path ++ [x00] ->
             same_scratch c3 c4 ->
             zstr_at c4 (buf_at c3 0) path).
  { intros c3 c4 Hle Hs S. eapply zstr_then_words; eauto. }
  split; [|split; [|split]]; intros U; apply R in U;
    rewrite <- ?app_assoc in U; cbn [app] in U.
  - header U Lt Hf c2 R2 S2. reach D 8%nat.
    pose proof (scratch_ok_pos c2 (proj1 (proj2 R2))).
    text R2 Np Hf c3 R3 K3 Hle3 Hs3.
    word R3 L1 Hf c4 R4 S4.
    exists c4, (buf_at c3 0). split; [reflexivity|].
    split; [apply Hz; assumption|]. split; [reflexivity|apply R4].
  - header U Lt Hf c2 R2 S2. reach D 9%nat.
    pose proof (scratch_ok_pos c2 (proj1 (proj2 R2))).
    text R2 Np Hf c3 R3 K3 Hle3 Hs3.
    exists c3, (buf_at c3 0). split; [reflexivity|].
    split; [apply Hz; auto using same_scratch_refl|].
    split; [reflexivity|apply R3].
  - header U Lt Hf c2 R2 S2. reach D 10%nat.
    pose proof (scratch_ok_pos c2 (proj1 (proj2 R2))).
    text R2 Np Hf c3 R3 K3 Hle3 Hs3.
    word R3 L1 Hf c4 R4 S4. word R4 L2 Hf c5 R5 S5.
    exists c5, (buf_at c3 0). split; [reflexivity|].
    split; [|split; [reflexivity|apply R5]].
    apply Hz; [assumption..|].
    exact (same_scratch_trans _ _ _ S4 S5).
  - header U Lt Hf c2 R2 S2. reach D 11%nat.
    pose proof (scratch_ok_pos c2 (proj1 (proj2 R2))).
    text R2 Np Hf c3 R3 K3 Hle3 Hs3.
    word R3 L1 Hf c4 R4 S4. word R4 L2 Hf c5 R5 S5.
    float R5 L3 Hf c6 R6 S6. float R6 L4 Hf c7 R7 S7.
    float R7 L5 Hf c8 R8 S8. float R8 L6 Hf c9 R9 S9.
    exists c9, (buf_at c3 0). split; [reflexivity|].
    split; [|split; [reflexivity|apply R9]].
    apply Hz; [assumption..|].
    repeat (eapply same_scratch_trans; [eassumption|]).
    apply same_scratch_refl.
Qed.

End PathQueries.

(** ** Blobs *)

Section BlobsRun.

Context {env : environment}.

(** Nothing is done when the capacity suffices. *)
Lemma grow_buf_enough (fuel : nat) (c : channel) (need : Z) :
  need <= buf_size c -> grow_buf fuel c need = Ret c.
Proof.
  intros H. destruct fuel; simpl;
    (destruct (buf_size c <? need) eqn:E;
     [apply Z.ltb_lt in E; lia|reflexivity]).
Qed.

Lemma grow_buf_steps (fuel : nat) :
  forall c need (k : nat),
    scratch_ok c -> buf_size c = 256 * 2 ^ Z.of_nat k -> need <= 2 ^ 30 ->
    (22 < k + fuel)%nat ->
    exists c', grow_buf fuel c need = Ret c'.
Proof.
  induction fuel as [|fuel IH]; intros c need k Ok Hk Hn Hf.
  - simpl. destruct (buf_size c <? need) eqn:E; [|eauto].
    apply Z.ltb_lt in E. exfalso.
    assert (2 ^ 23 <= 2 ^ Z.of_nat k) by (apply Z.pow_le_mono_r; lia).
    lia.
  - simpl. destruct (buf_size c <? need) eqn:E; [|eauto].
    apply Z.ltb_lt in E.
    destruct (resize_buf_runs c Ok) as [c1 E1]; [lia|].
    rewrite E1. cbn [bind].
    pose proof (resize_buf_sound c c1 Ok E1) as (K1 & Hs1 & _).
    apply (IH c1 need (S k)); [apply K1| |assumption|lia].
    rewrite Hs1, Hk, Nat2Z.inj_succ, Z.pow_succ_r by lia. ring.
Qed.

(** Twenty-two doublings lead from 256 to the largest capacity. *)
Lemma grow_buf_runs (fuel : nat) (c : channel) (need : Z) :
  scratch_ok c -> need <= 2 ^ 30 -> (22 < fuel)%nat ->
  exists c', grow_buf fuel c need = Ret c'.
Proof.
  intros Ok Hn Hf. pose proof Ok as ((k & Hk) & _).
  apply (grow_buf_steps fuel c need k); auto. lia.
Qed.

Lemma read_bytes_runs (fuel : nat) (c : channel) (pos size : Z) :
  wf_in c -> scratch_ok c -> rbenign (fd c) = true ->
  0 <= pos -> 0 <= size -> pos + size <= 2 ^ 30 ->
  size <= len (unread c) ->
  (length (rsched (fd c)) < fuel)%nat -> (22 < fuel)%nat ->
  exists c', read_bytes fuel c pos size = Ret c'.
Proof.
  intros W Ok B Hpos Hsz Hmax Hu Hf Hg. unfold read_bytes.
  rewrite (wrap_int_small (pos + size)) by lia.
  destruct (grow_buf_runs fuel c (pos + size) Ok Hmax Hg) as [c1 Eg].
  rewrite Eg. cbn [bind].
  apply grow_buf_sound in Eg; [|assumption].
  destruct Eg as (K1 & Hneed & _ & Io1).
  pose proof (same_io_rd_step c c1 W Io1) as R1.
  assert (W1 : wf_in c1) by apply R1.
  assert (Ok1 : scratch_ok c1) by apply K1.
  pose proof W1 as (Hp1 & Hl1 & Hb1).
  pose proof Ok1 as (_ & Hmax1 & Hlen1).
  assert (Hu1 : len (unread c1) = len (unread c)).
  { destruct R1 as (_ & U1 & _). rewrite U1. reflexivity. }
  rewrite len_unread in Hu1 by assumption.
  assert (Hfd : fd c1 = fd c) by apply Io1.
  unfold BUF_SIZE in *.
  rewrite (wrap_int_small (input_pos c1 + size)) by lia.
  destruct (input_pos c1 + size <=? input_len c1) eqn:E.
  - apply Z.leb_le in E.
    destruct (size <? 0) eqn:En; [apply Z.ltb_lt in En; lia|].
    assert (Hls : len (sub (input_buffer c1) (input_pos c1) size) = size).
    { apply len_sub; lia. }
    rewrite memcpy_Ret by lia. cbn [bind]. eauto.
  - apply Z.leb_gt in E.
    set (isize := input_len c1 - input_pos c1) in *.
    assert (Hlp : len (sub (input_buffer c1) (input_pos c1) isize) = isize).
    { apply len_sub; lia. }
    rewrite memcpy_Ret by lia. cbn [bind]. chan.
    set (b := blit (buf c1) pos _).
    assert (Hlb : len b = len (buf c1)) by (apply len_blit; lia).
    destruct (read_all_loop_runs fuel (fd c1) [] (size - isize))
      as (data & fd' & Er); [rewrite Hfd; assumption|lia|rewrite Hfd; lia|].
    unfold read_all. rewrite Er. cbn [bind].
    apply read_all_loop_sound in Er.
    destruct Er as (more & Hd & St & Hlm). simpl in Hd. subst more.
    rewrite Z.max_r in Hlm by lia.
    rewrite memcpy_Ret by lia. cbn [bind]. eauto.
Qed.

Lemma ready_read_bytes (n fuel : nat) (c : channel) (pos size : Z)
    (data rest : list byte) :
  ready n c (data ++ rest) -> len data = size ->
  0 <= pos <= buf_size c -> pos + size <= 2 ^ 30 ->
  (n <= fuel)%nat -> (22 < fuel)%nat ->
  exists c',
    read_bytes fuel c pos size = Ret c' /\
    ready n c' rest /\ kept c c' pos /\ pos + size <= buf_size c' /\
    sub (buf c') pos size = data.
Proof.
  intros (W & Ok & B & U & L) Ld Hpos Hmax Hf Hg.
  pose proof (len_nonneg data) as Hd0.
  destruct (read_bytes_runs fuel c pos size) as [c' E]; auto; try lia.
  { rewrite U, len_app. pose proof (len_nonneg rest). lia. }
  exists c'. split; [assumption|].
  apply read_bytes_sound in E; auto; try lia.
  destruct E as (_ & data' & Ld' & R & K & Hle & Hs).
  destruct R as (W' & U' & O' & B' & L').
  rewrite U in U'.
  apply app_eq_len in U'; [|unfold len in *; lia].
  destruct U' as [-> ->].
  split; [|auto].
  unfold ready. split; [assumption|]. split; [apply K|].
  split; [auto|]. split; [reflexivity|lia].
Qed.

End BlobsRun.

(** ** The WRIT query *)

Section WritQuery.

Context {env : environment}.

(** X3. A WRIT frame is the tag, the timestamp, the words fid, pos and size,
    and [size] bytes of data.  For a size up to 2^30, on a channel in order
    whose reads do not fail, [channel_read_query] returns true with the
    three words; the scratch buffer has grown to hold the data, which lie
    at its start, where the [buf] member points; what follows the frame is
    left unread, however much of the data was staged and however much still
    in the stream. *)
Theorem decode_writ_query (fuel : nat) (c : channel) (r : query_t)
    (wt w1 w2 ws data rest : list byte) :
  query_labels_distinct ->
  wf_in c -> scratch_ok c -> rbenign (fd c) = true ->
  (length (rsched (fd c)) < fuel)%nat -> (22 < fuel)%nat ->
  len wt = 4 -> len w1 = 4 -> len w2 = 4 -> len ws = 4 ->
  u32_of_bytes ws = len data -> len data <= 2 ^ 30 ->
  unread c = bytes_of_u32 (u32 Q_WRIT) ++ wt ++ w1 ++ w2 ++ ws
             ++ data ++ rest ->
  exists c' p,
    channel_read_query fuel c r
      = Ret (true, c',
             mkQuery (u32_of_bytes wt) (u32 Q_WRIT)
               (U_writ (u32_of_bytes w1) (u32_of_bytes w2) (len data) p)) /\
    blob_at c' p data /\ off p = 0 /\ len data <= buf_size c' /\
    unread c' = rest.
Proof.
  intros D W Ok B L Hg Lt L1 L2 Ls Hsz Hmax U.
  pose proof (le_n fuel) as Hf.
  assert (R : ready fuel c (unread c)) by (unfold ready; auto).
  rewrite U in R. unfold query_labels_distinct in D.
  pose proof (len_nonneg data) as Hd0.
  header R Lt Hf c2 R2 S2. reach D 2%nat.
  word R2 L1 Hf c3 R3 S3. word R3 L2 Hf c4 R4 S4.
  word R4 Ls Hf c5 R5 S5.
  rewrite Hsz, (wrap_int_small (len data)) by lia.
  pose proof (scratch_ok_pos c5 (proj1 (proj2 R5))).
  destruct (ready_read_bytes fuel fuel c5 0 (len data) data rest R5)
    as (c6 & E6 & R6 & K6 & Hle6 & Hs6); auto; try lia.
  rewrite E6. cbn [bind].
  exists c6, (buf_at c6 0). split; [reflexivity|].
  split; [|split; [reflexivity|split; [lia|apply R6]]].
  unfold blob_at, buf_at. cbn [blk off].
  split; [reflexivity|]. split; [lia|]. split; [lia|assumption].
Qed.

(** X4. A WRIT frame whose size word has its top bit set (2^31 or more): as an
    [int] the size is negative, no growth of the scratch buffer is asked
    for and the staged bytes seem to suffice, so [memcpy] is called with
    that size as its length, beyond the end of both blocks.  The decode
    leaves defined behaviour, whatever follows the size word. *)
Theorem writ_size_top_bit_faults (fuel : nat) (c : channel) (r : query_t)
    (wt w1 w2 ws rest : list byte) :
  query_labels_distinct ->
  wf_in c -> scratch_ok c -> rbenign (fd c) = true ->
  (length (rsched (fd c)) < fuel)%nat ->
  len wt = 4 -> len w1 = 4 -> len w2 = 4 -> len ws = 4 ->
  2 ^ 31 <= u32_of_bytes ws ->
  unread c = bytes_of_u32 (u32 Q_WRIT) ++ wt ++ w1 ++ w2 ++ ws ++ rest ->
  channel_read_query fuel c r = Fault.
Proof.
  intros D W Ok B L Lt L1 L2 Ls Hsz U.
  pose proof (le_n fuel) as Hf.
  assert (R : ready fuel c (unread c)) by (unfold ready; auto).
  rewrite U in R. unfold query_labels_distinct in D.
  header R Lt Hf c2 R2 S2. reach D 2%nat.
  word R2 L1 Hf c3 R3 S3. word R3 L2 Hf c4 R4 S4.
  word R4 Ls Hf c5 R5 S5.
  pose proof (u32_of_bytes_range ws) as Hr.
  set (size := u32_of_bytes ws) in *.
  assert (Hw : wrap_int size = size - 2 ^ 32).
  { unfold wrap_int.
    replace (size + 2 ^ 31) with (size - 2 ^ 31 + 1 * 2 ^ 32) by lia.
    rewrite Z.mod_add by lia. rewrite Z.mod_small by lia. lia. }
  pose proof (scratch_ok_pos c5 (proj1 (proj2 R5))) as Hp5.
  destruct R5 as ((Hp & Hl & Hb) & _). unfold BUF_SIZE in *.
  unfold read_bytes. rewrite Hw.
  rewrite (wrap_int_small (0 + (size - 2 ^ 32))) by lia.
  rewrite grow_buf_enough by lia. cbn [bind].
  rewrite (wrap_int_small (input_pos c5 + (size - 2 ^ 32))) by lia.
  destruct (input_pos c5 + (size - 2 ^ 32) <=? input_len c5) eqn:E;
    [|apply Z.leb_gt in E; lia].
  destruct (size - 2 ^ 32 <? 0) eqn:En; [reflexivity|].
  apply Z.ltb_ge in En. lia.
Qed.

End WritQuery.

(** ** The scratch buffer of the caller *)

Section WriteBuffer.

Context {env : environment}.

Lemma grow_buf_minimal (fuel : nat) :
  forall c c' need,
    scratch_ok c ->
    grow_buf fuel c need = Ret c' ->
    buf_size c' = buf_size c \/ buf_size c' < 2 * need.
Proof.
  induction fuel as [|fuel IH]; intros c c' need Ok H; simpl in H.
  - destruct (buf_size c <? need); [discriminate|].
    inversion H; subst c'. auto.
  - destruct (buf_size c <? need) eqn:E.
    + apply Z.ltb_lt in E.
      destruct (resize_buf c) as [c1| | |] eqn:Er; cbn [bind] in H;
        try discriminate.
      apply resize_buf_sound in Er; [|assumption].
      destruct Er as (K1 & Hs1 & _).
      apply IH in H; [|apply K1]. lia.
    + inversion H; subst c'. auto.
Qed.

Lemma grow_buf_aborts (fuel : nat) :
  forall c need (k : nat),
    scratch_ok c -> buf_size c = 256 * 2 ^ Z.of_nat k -> 2 ^ 30 < need ->
    (22 < k + fuel)%nat ->
    grow_buf fuel c need = Abort.
Proof.
  induction fuel as [|fuel IH]; intros c need k Ok Hk Hn Hf.
  - exfalso. destruct Ok as (_ & Hmax & _).
    assert (2 ^ 23 <= 2 ^ Z.of_nat k) by (apply Z.pow_le_mono_r; lia).
    lia.
  - pose proof Ok as (_ & Hmax & _).
    simpl. destruct (buf_size c <? need) eqn:E;
      [|apply Z.ltb_ge in E; lia].
    destruct (Z.eq_dec (buf_size c) (2 ^ 30)) as [He|Hne].
    + unfold resize_buf. rewrite He. reflexivity.
    + destruct (resize_buf_runs c Ok) as [c1 E1]; [lia|].
      rewrite E1. cbn [bind].
      pose proof (resize_buf_sound c c1 Ok E1) as (K1 & Hs1 & _).
      apply (IH c1 need (S k)); [apply K1| |assumption|lia].
      rewrite Hs1, Hk, Nat2Z.inj_succ, Z.pow_succ_r by lia. ring.
Qed.

(** X5. [channel_write_buffer(t, n)] gives the caller the scratch buffer with
    room for [n] bytes.  When the capacity suffices nothing changes.
    Otherwise the capacity doubles until it does, and no further: the
    pointer returned is to the start of the block then current, which
    begins with the old content; input and output sides are as they were.
    Up to 2^30 bytes the call returns; above, no capacity will do (the
    doubling of 2^30 is no [int] any more) and the call aborts. *)
Theorem write_buffer_grows_to_fit (fuel : nat) (t : channel) (n : Z) :
  scratch_ok t ->
  (n <= buf_size t -> channel_write_buffer fuel t n = Ret (buf_at t 0, t)) /\
  (forall p t',
      channel_write_buffer fuel t n = Ret (p, t') ->
      p = buf_at t' 0 /\ n <= buf_size t' /\ scratch_ok t' /\
      sub (buf t') 0 (buf_size t) = buf t /\ same_io t t' /\
      (buf_size t' = buf_size t \/ buf_size t' < 2 * n)) /\
  (n <= 2 ^ 30 -> (22 < fuel)%nat ->
   exists p t', channel_write_buffer fuel t n = Ret (p, t')) /\
  (2 ^ 30 < n -> (22 < fuel)%nat ->
   channel_write_buffer fuel t n = Abort).
Proof.
  intros Ok. unfold channel_write_buffer.
  split; [|split; [|split]].
  - intros H. rewrite grow_buf_enough by assumption. reflexivity.
  - intros p t' H.
    destruct (grow_buf fuel t n) as [t1| | |] eqn:E; cbn [bind] in H;
      try discriminate.
    inversion H; subst p t'; clear H.
    pose proof (grow_buf_minimal _ _ _ _ Ok E) as Hm.
    apply grow_buf_sound in E; [|assumption].
    destruct E as (K & Hn & Hb & Io).
    split; [reflexivity|]. split; [assumption|]. split; [apply K|].
    auto.
  - intros Hn Hf.
    destruct (grow_buf_runs fuel t n Ok Hn Hf) as [t1 E].
    rewrite E. cbn [bind]. eauto.
  - intros Hn Hf. pose proof Ok as ((k & Hk) & _).
    rewrite (grow_buf_aborts fuel t n k); auto. lia.
Qed.

End WriteBuffer.

(** ** Answers and asks on the wire *)

Section AnswerFrames.

Context {env : environment}.

Lemma answer_through_calls (fuel : nat) (t : channel) (a : answer_t)
    (ws : list wcall) :
  answer_calls (buf t) a = Some ws -> Forall wcall_ok ws -> wf_out t ->
  (forall t', channel_write_answer fuel t a = Ret t' ->
              out_step t t' (concat (map wcall_bytes ws))) /\
  (wbenign (fd t) = true -> (length (wsched (fd t)) < fuel)%nat ->
   exists t', channel_write_answer fuel t a = Ret t').
Proof.
  intros Hc Hok W. rewrite channel_write_answer_calls, Hc. split.
  - intros t' H. apply write_seq_sound in H; auto.
  - intros Hb Hf. apply write_seq_runs; auto.
Qed.

Lemma ask_through_calls (fuel : nat) (t : channel) (k : ask_t)
    (ws : list wcall) :
  ask_calls k = Some ws -> Forall wcall_ok ws -> wf_out t ->
  (forall t', channel_write_ask fuel t k = Ret t' ->
              out_step t t' (concat (map wcall_bytes ws))) /\
  (wbenign (fd t) = true -> (length (wsched (fd t)) < fuel)%nat ->
   exists t', channel_write_ask fuel t k = Ret t').
Proof.
  intros Hc Hok W. rewrite channel_write_ask_calls, Hc. split.
  - intros t' H. apply write_seq_sound in H; auto.
  - intros Hb Hf. apply write_seq_runs; auto.
Qed.

Ltac frame_of Hc :=
  match type of Hc with
  | answer_calls _ _ = Some ?ws =>
      let Hok := fresh "Hok" in
      assert (Hok : Forall wcall_ok ws)
        by (repeat (constructor;
                    [first [apply f32_call_ok | apply u32_call_ok]|]);
            constructor);
      let S := fresh "S" in let Rn := fresh "Rn" in
      match goal with
      | W : wf_out ?t |- context [channel_write_answer ?fuel ?t ?a] =>
          destruct (answer_through_calls fuel t a ws Hc Hok W) as [S Rn];
          split; [|split; [exact Rn|reflexivity]];
          let t' := fresh "t'" in let H := fresh "H" in
          intros t' H; apply S in H;
          split; [apply H|]; split; [apply H|apply H]
      end
  end.

(** X6. The answers that carry no bytes of the scratch buffer.  DONE, PASS and
    FORK are the tag alone, 4 bytes; ACCS is the tag and the flag, SIZE the
    tag and the size, 8 bytes; GPIC is the tag and the four bounds in
    order, as the bit patterns of their [float]s, 20 bytes.  Whenever
    [channel_write_answer] returns, these bytes have been added to what the
    channel has sent, the staging area is in order and the input side and
    the scratch buffer are as before; on a stream whose writes do not fail
    it does return. *)
Theorem plain_answer_frames (fuel : nat) (t : channel) (a : answer_t) :
  answer_labels_distinct -> wf_out t ->
  let tag := bytes_of_u32 (u32 (a_tag a)) in
  let word u := bytes_of_u32 (u32 u) in
  let bound i := bytes_of_u32 (nth i (gpic_bounds a) 0) in
  let writes frame n :=
    (forall t', channel_write_answer fuel t a = Ret t' ->
                wf_out t' /\ sent t' = sent t ++ frame /\ same_input t t') /\
    (wbenign (fd t) = true -> (length (wsched (fd t)) < fuel)%nat ->
     exists t', channel_write_answer fuel t a = Ret t') /\
    len frame = n in
  (a_tag a = A_DONE \/ a_tag a = A_PASS \/ a_tag a = A_FORK ->
   writes tag 4) /\
  (a_tag a = A_ACCS -> writes (tag ++ word (accs_flag a)) 8) /\
  (a_tag a = A_SIZE -> writes (tag ++ word (size_size a)) 8) /\
  (a_tag a = A_GPIC ->
   writes (tag ++ bound 0%nat ++ bound 1%nat ++ bound 2%nat ++ bound 3%nat)
     20).
Proof.
  intros D W. cbv zeta. unfold answer_labels_distinct in D.
  split; [|split; [|split]].
  - intros Ht.
    assert (Hc : answer_calls (buf t) a = Some [u32_call (a_tag a)]).
    { unfold answer_calls.
      destruct (a_tag a =? A_DONE) eqn:E0; [reflexivity|].
      destruct (a_tag a =? A_PASS) eqn:E1; [reflexivity|].
      destruct (a_tag a =? A_FORK) eqn:E2; [reflexivity|].
      apply Z.eqb_neq in E0, E1, E2. tauto. }
    frame_of Hc.
  - intros Ht.
    assert (Hc : answer_calls (buf t) a
                 = Some [u32_call (a_tag a); u32_call (accs_flag a)]).
    { unfold answer_calls. rewrite Ht. reach D 4%nat. reflexivity. }
    frame_of Hc.
  - intros Ht.
    assert (Hc : answer_calls (buf t) a
                 = Some [u32_call (a_tag a); u32_call (size_size a)]).
    { unfold answer_calls. rewrite Ht. reach D 6%nat. reflexivity. }
    frame_of Hc.
  - intros Ht.
    assert (Hc : answer_calls (buf t) a
                 = Some [u32_call (a_tag a);
                         f32_call (nth 0 (gpic_bounds a) 0);
                         f32_call (nth 1 (gpic_bounds a) 0);
                         f32_call (nth 2 (gpic_bounds a) 0);
                         f32_call (nth 3 (gpic_bounds a) 0)]).
    { unfold answer_calls. rewrite Ht. reach D 8%nat. reflexivity. }
    frame_of Hc.
Qed.

End AnswerFrames.

Section BlobAnswers.

Context {env : environment}.

(** A call of the output writer for more bytes than its block holds, or
    for a negative number of them, reads outside the block. *)
Lemma write_bytes_overrun (fuel : nat) (t : channel) (mem : list byte)
    (size : Z) :
  wf_out t -> size < 0 \/ len mem < size ->
  wbenign (fd t) = true -> (length (wsched (fd t)) < fuel)%nat ->
  write_bytes fuel t mem size = Fault.
Proof.
  intros W Hs Hb Hf. pose proof (len_nonneg mem) as Hm.
  assert (Hn : memcpy_n (output_buffer t) (output_pos t) mem size = Fault
               /\ forall b, memcpy_n b 0 mem size = Fault).
  { unfold memcpy_n.
    assert (E : (size <? 0) || (len mem <? size) = true).
    { apply orb_true_iff. destruct Hs; [left|right]; apply Z.ltb_lt; lia. }
    rewrite E. auto. }
  destruct Hn as [Hn1 Hn2].
  unfold write_bytes.
  destruct (wrap_int (output_pos t + size) <=? BUF_SIZE).
  - rewrite Hn1. reflexivity.
  - destruct (cflush_runs fuel t W Hb Hf) as [t1 E1]. rewrite E1.
    cbn [bind].
    destruct (size >? BUF_SIZE) eqn:E.
    + apply Z.gtb_lt in E. unfold BUF_SIZE in E.
      destruct (len mem <? size) eqn:El; [reflexivity|].
      apply Z.ltb_ge in El. lia.
    + rewrite Hn2. reflexivity.
Qed.

(** X7. READ and OPEN answers carry the first [size] bytes of the scratch
    buffer after the tag and the size word.  With a size within the
    capacity the frame counts 8 + size bytes and the call behaves as for the
    other answers.  With a size beyond the capacity, or a negative one, the
    tag and the size word are written and the writer is then called for
    bytes outside the scratch block: the call leaves defined behaviour
    (nothing in [channel_write_answer] compares the size with the
    capacity). *)
Theorem blob_answer_frames (fuel : nat) (t : channel) (a : answer_t) :
  answer_labels_distinct -> wf_out t -> scratch_ok t ->
  let tag := bytes_of_u32 (u32 (a_tag a)) in
  let carries n :=
    (0 <= n <= buf_size t ->
     let frame := tag ++ bytes_of_u32 (u32 n) ++ sub (buf t) 0 n in
     (forall t', channel_write_answer fuel t a = Ret t' ->
                 wf_out t' /\ sent t' = sent t ++ frame /\ same_input t t') /\
     (wbenign (fd t) = true -> (length (wsched (fd t)) < fuel)%nat ->
      exists t', channel_write_answer fuel t a = Ret t') /\
     len frame = 8 + n) /\
    (n < 0 \/ buf_size t < n ->
     wbenign (fd t) = true -> (length (wsched (fd t)) < fuel)%nat ->
     channel_write_answer fuel t a = Fault) in
  (a_tag a = A_READ -> carries (read_size a)) /\
  (a_tag a = A_OPEN -> carries (open_size a)).
Proof.
  intros D W Ok. cbv zeta. unfold answer_labels_distinct in D.
  pose proof Ok as (_ & Hmax & Hlen).
  assert (G : forall n,
             answer_calls (buf t) a
               = Some [u32_call (a_tag a); u32_call n; (buf t, n)] ->
             (0 <= n <= buf_size t ->
              (forall t', channel_write_answer fuel t a = Ret t' ->
                 wf_out t' /\
                 sent t' = sent t ++ bytes_of_u32 (u32 (a_tag a))
                           ++ bytes_of_u32 (u32 n) ++ sub (buf t) 0 n /\
                 same_input t t') /\
              (wbenign (fd t) = true -> (length (wsched (fd t)) < fuel)%nat ->
               exists t', channel_write_answer fuel t a = Ret t') /\
              len (bytes_of_u32 (u32 (a_tag a)) ++ bytes_of_u32 (u32 n)
                   ++ sub (buf t) 0 n) = 8 + n) /\
             (n < 0 \/ buf_size t < n ->
              wbenign (fd t) = true -> (length (wsched (fd t)) < fuel)%nat ->
              channel_write_answer fuel t a = Fault)).
  { intros n Hc. split.
    - intros Hn.
      assert (Hok : Forall wcall_ok
                      [u32_call (a_tag a); u32_call n; (buf t, n)]).
      { repeat (constructor; [apply u32_call_ok|]).
        constructor; [|constructor].
        unfold wcall_ok, INT_MAX, BUF_SIZE. cbn [fst snd]. lia. }
      destruct (answer_through_calls fuel t a _ Hc Hok W) as [S Rn].
      split; [|split; [exact Rn|]].
      + intros t' H. apply S in H.
        split; [apply H|]. split; [|apply H].
        destruct H as (_ & H & _). rewrite H.
        cbn [map concat]. unfold wcall_bytes at 3. cbn [fst snd].
        rewrite app_nil_r. reflexivity.
      + rewrite !len_app, len_sub by lia.
        change (len (bytes_of_u32 (u32 (a_tag a)))) with 4.
        change (len (bytes_of_u32 (u32 n))) with 4. lia.
    - intros Hn Hb Hf.
      rewrite channel_write_answer_calls, Hc.
      change [u32_call (a_tag a); u32_call n; (buf t, n)]
        with ([u32_call (a_tag a); u32_call n] ++ [(buf t, n)]).
      rewrite write_seq_app.
      assert (Hok : Forall wcall_ok [u32_call (a_tag a); u32_call n]).
      { repeat (constructor; [apply u32_call_ok|]). constructor. }
      destruct (write_seq_runs fuel _ t W Hok Hb Hf) as [t1 E1].
      rewrite E1. cbn [bind write_seq fst snd].
      pose proof (write_seq_buf _ _ _ _ E1) as Hbuf.
      apply write_seq_sound in E1; auto.
      destruct E1 as (W1 & _ & _ & B1 & L1).
      rewrite <- Hbuf.
      rewrite write_bytes_overrun; [reflexivity|assumption| |auto|lia].
      rewrite Hbuf. lia. }
  split; intros Ht; apply G; unfold answer_calls; rewrite Ht.
  - reach D 3%nat. reflexivity.
  - reach D 7%nat. reflexivity.
Qed.

(** X8. A tag that is none of the nine labels: the tag is written and the
    [switch] takes its [default] branch.  [channel_write_answer] never
    returns, and aborts on a stream whose writes do not fail. *)
Theorem unknown_answer_tag_aborts (fuel : nat) (t : channel) (a : answer_t) :
  wf_out t -> (forall x, In x answer_tags -> a_tag a <> x) ->
  (forall t', channel_write_answer fuel t a <> Ret t') /\
  (wbenign (fd t) = true -> (length (wsched (fd t)) < fuel)%nat ->
   channel_write_answer fuel t a = Abort).
Proof.
  intros W Hx.
  assert (Hc : answer_calls (buf t) a = None).
  { unfold answer_calls.
    repeat match goal with
    | |- context [a_tag a =? ?x] =>
        let E := fresh "E" in
        destruct (a_tag a =? x) eqn:E;
        [apply Z.eqb_eq in E; exfalso; apply (Hx x);
         [unfold answer_tags; simpl; tauto|assumption]|]
    end.
    reflexivity. }
  rewrite channel_write_answer_calls, Hc. split.
  - intros t' H. destruct (write_u32 fuel t (a_tag a)); discriminate.
  - intros Hb Hf. unfold write_u32.
    destruct (write_bytes_runs fuel t (bytes_of_u32 (u32 (a_tag a))) 4)
      as [t1 E1]; auto; try (cbn; unfold INT_MAX, BUF_SIZE; lia).
    rewrite E1. reflexivity.
Qed.

(** X9. The asks.  TERM is the tag and the pid, 8 bytes; FLSH is the tag
    alone, 4 bytes; with any other tag [channel_write_ask] never returns,
    and aborts on a stream whose writes do not fail. *)
Theorem ask_frames (fuel : nat) (t : channel) (k : ask_t) :
  wf_out t ->
  let tag := bytes_of_u32 (u32 (k_tag k)) in
  let writes frame n :=
    (forall t', channel_write_ask fuel t k = Ret t' ->
                wf_out t' /\ sent t' = sent t ++ frame /\ same_input t t') /\
    (wbenign (fd t) = true -> (length (wsched (fd t)) < fuel)%nat ->
     exists t', channel_write_ask fuel t k = Ret t') /\
    len frame = n in
  (k_tag k = C_TERM ->
   writes (tag ++ bytes_of_u32 (u32 (term_pid k))) 8) /\
  (k_tag k = C_FLSH -> C_FLSH <> C_TERM -> writes tag 4) /\
  (k_tag k <> C_TERM -> k_tag k <> C_FLSH ->
   (forall t', channel_write_ask fuel t k <> Ret t') /\
   (wbenign (fd t) = true -> (length (wsched (fd t)) < fuel)%nat ->
    channel_write_ask fuel t k = Abort)).
Proof.
  intros W. cbv zeta.
  assert (G : forall ws,
             ask_calls k = Some ws -> Forall wcall_ok ws ->
             (forall t', channel_write_ask fuel t k = Ret t' ->
                wf_out t' /\ sent t' = sent t ++ concat (map wcall_bytes ws)
                /\ same_input t t') /\
             (wbenign (fd t) = true -> (length (wsched (fd t)) < fuel)%nat ->
              exists t', channel_write_ask fuel t k = Ret t')).
  { intros ws Hc Hok.
    destruct (ask_through_calls fuel t k ws Hc Hok W) as [S Rn].
    split; [|exact Rn]. intros t' H. apply S in H.
    split; [apply H|]. split; [apply H|apply H]. }
  split; [|split].
  - intros Ht.
    destruct (G [u32_call (k_tag k); u32_call (term_pid k)]) as [S Rn].
    { unfold ask_calls. rewrite Ht, Z.eqb_refl. reflexivity. }
    { repeat (constructor; [apply u32_call_ok|]). constructor. }
    split; [exact S|]. split; [exact Rn|reflexivity].
  - intros Ht Hne.
    destruct (G [u32_call (k_tag k)]) as [S Rn].
    { unfold ask_calls. rewrite Ht, (proj2 (Z.eqb_neq _ _) Hne), Z.eqb_refl.
      reflexivity. }
    { repeat (constructor; [apply u32_call_ok|]). constructor. }
    split; [exact S|]. split; [exact Rn|reflexivity].
  - intros H1 H2.
    assert (Hc : ask_calls k = None).
    { unfold ask_calls.
      rewrite (proj2 (Z.eqb_neq _ _) H1), (proj2 (Z.eqb_neq _ _) H2).
      reflexivity. }
    rewrite channel_write_ask_calls, Hc. split.
    + intros t' H. destruct (write_u32 fuel t (k_tag k)); discriminate.
    + intros Hb Hf. unfold write_u32.
      destruct (write_bytes_runs fuel t (bytes_of_u32 (u32 (k_tag k))) 4)
        as [t1 E1]; auto; try (cbn; unfold INT_MAX, BUF_SIZE; lia).
      rewrite E1. reflexivity.
Qed.

End BlobAnswers.

(** ** The staging area of the output *)

Section Staging.

Context {env : environment}.

(** X10. Where the bytes of one call of the output writer go.  When they fit
    the free part of the staging area they are staged and no system call is
    made, whatever the stream would do.  When they do not fit but are no
    more than 4096, what was staged is delivered and they are staged in its
    place.  When they are more than 4096, what was staged and then they are
    delivered, and the staging area is left empty. *)
Theorem write_bytes_staging (fuel : nat) (t : channel) (mem : list byte)
    (size : Z) :
  wf_out t -> 0 <= size <= len mem -> size <= INT_MAX - BUF_SIZE ->
  let data := sub mem 0 size in
  (output_pos t + size <= BUF_SIZE ->
   exists t',
     write_bytes fuel t mem size = Ret t' /\ fd t' = fd t /\
     staged t' = staged t ++ data /\ output_pos t' = output_pos t + size) /\
  (BUF_SIZE < output_pos t + size -> size <= BUF_SIZE ->
   forall t',
     write_bytes fuel t mem size = Ret t' ->
     delivered (fd t') = sent t /\ staged t' = data /\
     output_pos t' = size) /\
  (BUF_SIZE < size ->
   forall t',
     write_bytes fuel t mem size = Ret t' ->
     delivered (fd t') = sent t ++ data /\ staged t' = [] /\
     output_pos t' = 0).
Proof.
  intros W Hs Hm. cbv zeta.
  pose proof W as [Wp Wl].
  assert (Hw : wrap_int (output_pos t + size) = output_pos t + size).
  { apply wrap_int_small. unfold INT_MAX, BUF_SIZE in *. lia. }
  assert (Hl : len (sub mem 0 size) = size) by (apply len_sub; lia).
  assert (Hsent : forall t',
             write_bytes fuel t mem size = Ret t' ->
             delivered (fd t') ++ staged t' = sent t ++ sub mem 0 size).
  { intros t' H. apply write_bytes_sound in H; auto. apply H. }
  split; [|split].
  - intros Hfit. unfold write_bytes. rewrite Hw.
    rewrite (proj2 (Z.leb_le _ _) Hfit).
    rewrite memcpy_n_Ret by lia. cbn [bind].
    eexists. split; [reflexivity|]. chan.
    split; [reflexivity|]. split; [|reflexivity].
    unfold staged. chan. apply staged_blit; lia.
  - intros Hover Hsmall t' H. pose proof (Hsent t' H) as Hs'.
    unfold write_bytes in H. rewrite Hw in H.
    rewrite (proj2 (Z.leb_gt _ _) Hover) in H.
    destruct (cflush fuel t) as [t1| | |] eqn:Ef; cbn [bind] in H;
      try discriminate.
    apply cflush_sound in Ef; [|assumption].
    destruct Ef as (_ & Hp0 & Hdel).
    destruct (size >? BUF_SIZE) eqn:Eb; [apply Z.gtb_lt in Eb; lia|].
    destruct (memcpy_n (output_buffer t1) 0 mem size) as [b| | |] eqn:Em;
      cbn [bind] in H; try discriminate.
    inversion H; subst t'; clear H. chan.
    rewrite Hdel in Hs'. apply app_inv_head in Hs'. auto.
  - intros Hbig t' H. pose proof (Hsent t' H) as Hs'.
    unfold write_bytes in H. rewrite Hw in H.
    rewrite (proj2 (Z.leb_gt (output_pos t + size) BUF_SIZE)) in H by lia.
    destruct (cflush fuel t) as [t1| | |] eqn:Ef; cbn [bind] in H;
      try discriminate.
    apply cflush_sound in Ef; [|assumption].
    destruct Ef as (_ & Hp0 & Hdel).
    rewrite (proj2 (Z.gtb_lt size BUF_SIZE)) in H by lia.
    destruct (len mem <? size); [discriminate|].
    destruct (write_all fuel (fd t1) mem size) as [fd'| | |] eqn:Ew;
      cbn [bind] in H; try discriminate.
    inversion H; subst t'; clear H. chan.
    assert (Hst : staged (set_fd t1 fd') = []).
    { unfold staged. chan. rewrite Hp0. apply sub_nil. }
    rewrite Hst, app_nil_r in Hs'. chan. auto.
Qed.

(** X11. Flushing an empty staging area makes no system call and changes
    nothing; so a flush that has returned leaves a channel on which every
    further flush is without effect, whatever the stream would do. *)
Theorem flush_twice_is_flush_once (fuel fuel' : nat) (t : channel) :
  wf_out t ->
  (output_pos t = 0 -> channel_flush fuel t = Ret t) /\
  (forall t',
      channel_flush fuel t = Ret t' ->
      delivered (fd t') = sent t /\ staged t' = [] /\
      channel_flush fuel' t' = Ret t').
Proof.
  intros W. unfold channel_flush. split.
  - intros H. unfold cflush. rewrite H. reflexivity.
  - intros t' H. apply cflush_sound in H; [|assumption].
    destruct H as (_ & Hp & Hd).
    split; [assumption|]. split.
    + unfold staged. rewrite Hp. apply sub_nil.
    + unfold cflush. rewrite Hp. reflexivity.
Qed.

End Staging.

(** ** The loops over [write] and [read] *)

Lemma write_all_fails (k : nat) :
  forall fuel fd data size e rest,
    0 < size -> wsched fd = repeat Wintr k ++ e :: rest ->
    e = Wfail \/ e = Wshort 0 -> (k < fuel)%nat ->
    write_all fuel fd data size = Abort.
Proof.
  induction k as [|k IH]; intros fuel fd data size e rest Hs Hw He Hf;
    (destruct fuel as [|fuel]; [lia|]); simpl;
    (destruct (size >? 0) eqn:E; [|lia]); unfold write; rewrite Hw; simpl.
  - destruct He as [-> | ->]; reflexivity.
  - apply (IH fuel _ data size e rest); auto. lia.
Qed.

(** X12. [write_all] returns only when all [size] bytes have been taken by the
    stream, in their order, and the calls of [write] have not touched the
    input; interrupted calls are repeated, and calls that take a part only
    are followed by calls for the rest.  On a stream whose writes do not
    fail it returns.  A [write] that fails otherwise than by interruption,
    or that takes no byte, aborts. *)
Theorem write_all_delivers_all (fuel : nat) (s : stream) (data : list byte)
    (size : Z) :
  0 <= size <= len data ->
  (forall s',
      write_all fuel s data size = Ret s' ->
      delivered s' = delivered s ++ sub data 0 size /\
      incoming s' = incoming s /\ rsched s' = rsched s) /\
  (wbenign s = true -> (length (wsched s) < fuel)%nat ->
   exists s', write_all fuel s data size = Ret s') /\
  (forall k e rest,
      0 < size -> wsched s = repeat Wintr k ++ e :: rest ->
      e = Wfail \/ e = Wshort 0 -> (k < fuel)%nat ->
      write_all fuel s data size = Abort).
Proof.
  intros Hs. split; [|split].
  - intros s' H. apply write_all_sound in H; [|assumption].
    destruct H as (H1 & H2 & H3 & _). auto.
  - intros Hb Hf. apply write_all_runs; assumption.
  - intros k e rest H0 Hw He Hf. eapply write_all_fails; eauto.
Qed.

Lemma read_all_loop_fails (k : nat) :
  forall fuel fd got size rest,
    0 < size -> rsched fd = repeat Rintr k ++ Rfail :: rest ->
    (k < fuel)%nat ->
    read_all_loop fuel fd got size = Abort.
Proof.
  induction k as [|k IH]; intros fuel fd got size rest Hs Hr Hf;
    (destruct fuel as [|fuel]; [lia|]); simpl;
    (destruct (size >? 0) eqn:E; [|lia]); unfold read; rewrite Hr; simpl.
  - reflexivity.
  - apply (IH fuel _ got size rest); auto. lia.
Qed.

Lemma read_all_loop_short (fuel : nat) :
  forall fd got size,
    rbenign fd = true -> len (incoming fd) < size ->
    (length (rsched fd) + 1 < fuel)%nat ->
    read_all_loop fuel fd got size = Abort.
Proof.
  induction fuel as [|fuel IH]; intros fd got size Hb Hs Hf; [lia|].
  pose proof (len_nonneg (incoming fd)) as Hi.
  simpl. destruct (size >? 0) eqn:E; [|lia].
  destruct (read fd size) as [[e|d] fd1] eqn:Er.
  - apply read_Err in Er. destruct Er as ((I1 & _ & _ & B1 & _) & L1 & He).
    rewrite (He Hb). simpl in I1. apply IH; auto; [congruence|lia].
  - apply read_Ok in Er. destruct Er as ((I1 & _ & _ & B1 & L1) & _ & He & Hn).
    destruct (len d =? 0) eqn:Ed; [reflexivity|].
    apply Z.eqb_neq in Ed. pose proof (len_nonneg d) as Hd.
    assert (Hl : len (incoming fd) = len d + len (incoming fd1)).
    { rewrite I1, len_app. reflexivity. }
    destruct (rsched fd) as [|ev sch] eqn:Es.
    + specialize (He eq_refl).
      rewrite Z.max_r, Z.min_r in He by lia.
      assert (Hnil : incoming fd1 = []).
      { destruct (incoming fd1) as [|b l]; [reflexivity|].
        rewrite len_cons in Hl. pose proof (len_nonneg l). lia. }
      simpl in L1, Hf.
      apply read_all_loop_eof; [assumption|auto|lia|lia].
    + destruct Hn as [Hlt _]; [discriminate|].
      simpl in Hlt, Hf.
      apply IH; [auto|lia|lia].
Qed.

(** X13. [read_all] returns only with exactly [size] bytes, the next ones of
    the stream in their order; where that many are to come and no read
    fails it returns.  When the peer closes before (fewer than [size] bytes
    are left), or a [read] fails otherwise than by interruption, it
    aborts. *)
Theorem read_all_exact_or_abort (fuel : nat) (s : stream) (size : Z) :
  (forall data s',
      read_all fuel s size = Ret (data, s') ->
      len data = Z.max 0 size /\ incoming s = data ++ incoming s' /\
      delivered s' = delivered s) /\
  (rbenign s = true -> size <= len (incoming s) ->
   (length (rsched s) < fuel)%nat ->
   exists data s', read_all fuel s size = Ret (data, s')) /\
  (rbenign s = true -> len (incoming s) < size ->
   (length (rsched s) + 1 < fuel)%nat ->
   read_all fuel s size = Abort) /\
  (forall k rest,
      0 < size -> rsched s = repeat Rintr k ++ Rfail :: rest ->
      (k < fuel)%nat ->
      read_all fuel s size = Abort).
Proof.
  unfold read_all. split; [|split; [|split]].
  - intros data s' H. apply read_all_loop_sound in H.
    destruct H as (more & Hd & St & Hl). simpl in Hd. subst more.
    split; [assumption|]. split; apply St.
  - intros Hb Hs Hf. apply read_all_loop_runs; assumption.
  - intros Hb Hs Hf. apply read_all_loop_short; assumption.
  - intros k rest Hs Hr Hf. eapply read_all_loop_fails; eauto.
Qed.

Section HandshakeShort.

Context {env : environment}.


End HandshakeShort.

(** ** Refilling the input *)

Lemma buffered_read_loop_fails (k : nat) :
  forall fuel fd got atleast size rest,
    rsched fd = repeat Rintr k ++ Rfail :: rest -> (k < fuel)%nat ->
    buffered_read_loop fuel fd got atleast size = Abort.
Proof.
  induction k as [|k IH]; intros fuel fd got atleast size rest Hr Hf;
    (destruct fuel as [|fuel]; [lia|]); simpl; unfold read; rewrite Hr;
    simpl.
  - reflexivity.
  - apply (IH fuel _ got atleast size rest); auto. lia.
Qed.

Section Refill.

Context {env : environment}.

(** X15. [crefill] loses nothing and keeps the order: when it returns, the
    staged input starts at the beginning of the staging buffer and is what
    was staged before followed by the next bytes of the stream, at least
    [at_least] of them and no more than the buffer holds; the unread input
    as a whole is what it was, and scratch buffer and output side are
    untouched.  A request for more than the free part of the buffer, or a
    [read] that fails otherwise than by interruption, aborts. *)
Theorem refill_keeps_unread (fuel : nat) (c : channel) (at_least : Z) :
  wf_in c ->
  (forall c',
      crefill fuel c at_least = Ret c' ->
      wf_in c' /\ input_pos c' = 0 /\ unread c' = unread c /\
      (exists more,
          pending c' = pending c ++ more /\
          incoming (fd c) = more ++ incoming (fd c')) /\
      len (pending c) + at_least <= len (pending c') <= BUF_SIZE /\
      same_scratch c c' /\ same_output c c') /\
  (BUF_SIZE - len (pending c) < at_least ->
   crefill fuel c at_least = Abort) /\
  (forall k rest,
      rsched (fd c) = repeat Rintr k ++ Rfail :: rest -> (k < fuel)%nat ->
      crefill fuel c at_least = Abort).
Proof.
  intros W. pose proof (len_pending c W) as Hlp.
  pose proof W as (Hp & Hl & Hb).
  assert (Hm : memcpy (input_buffer c) 0
                 (sub (input_buffer c) (input_pos c)
                    (input_len c - input_pos c))
               = Ret (blit (input_buffer c) 0
                        (sub (input_buffer c) (input_pos c)
                           (input_len c - input_pos c)))).
  { apply memcpy_Ret; [lia|]. rewrite len_sub by lia. lia. }
  split; [|split].
  - intros c' H. apply crefill_sound in H; [|assumption].
    destruct H as (R & S & Hp0 & Hal & more & Hmore & St).
    pose proof R as (W' & U & O & _).
    pose proof (len_pending c' W') as Hlp'.
    split; [assumption|]. split; [assumption|].
    split; [symmetry; exact U|].
    split; [exists more; split; [assumption|apply St]|].
    split; [|split; assumption].
    destruct W' as (_ & Hl' & _). lia.
  - intros Hbig. unfold crefill. rewrite Hm. cbn [bind].
    unfold buffered_read_at_least.
    destruct (BUF_SIZE - (input_len c - input_pos c) <? at_least) eqn:E;
      [reflexivity|].
    apply Z.ltb_ge in E. lia.
  - intros k rest Hr Hf. unfold crefill. rewrite Hm. cbn [bind].
    unfold buffered_read_at_least.
    destruct (BUF_SIZE - (input_len c - input_pos c) <? at_least);
      [reflexivity|].
    rewrite (buffered_read_loop_fails k fuel _ _ _ _ rest Hr Hf).
    reflexivity.
Qed.

End Refill.

(** ** Readiness *)

Lemma poll_loop_first (k : nat) :
  forall fuel e rest timeout,
    e <> Pintr -> (k < fuel)%nat ->
    poll_loop fuel (repeat Pintr k ++ e :: rest) timeout
    = Ret (match e with
           | Pfail => -1
           | Ptimeout => 0
           | _ => 1
           end, rest).
Proof.
  induction k as [|k IH]; intros fuel e rest timeout He Hf;
    (destruct fuel as [|fuel]; [lia|]); simpl.
  - destruct e; try reflexivity. congruence.
  - apply IH; [assumption|lia].
Qed.

Section Pending.

Context {env : environment}.

(** X16. [channel_has_pending_query] answers true at once, without a call of
    [poll], when input is staged.  Otherwise it calls [poll], again after
    each interruption, and the first call that is not interrupted decides:
    an error aborts, a timeout gives false, readiness gives true. *)
Theorem pending_query_from_poll (fuel : nat) (t : channel) (ps : list pev)
    (timeout : Z) :
  (input_pos t <> input_len t ->
   channel_has_pending_query fuel t ps timeout = Ret (true, ps)) /\
  (input_pos t = input_len t ->
   forall k e rest,
     ps = repeat Pintr k ++ e :: rest -> e <> Pintr -> (k < fuel)%nat ->
     channel_has_pending_query fuel t ps timeout
     = match e with
       | Pfail => Abort
       | Ptimeout => Ret (false, rest)
       | _ => Ret (true, rest)
       end).
Proof.
  unfold channel_has_pending_query. split.
  - intros H. rewrite (proj2 (Z.eqb_neq _ _) H). reflexivity.
  - intros H k e rest -> He Hf. rewrite (proj2 (Z.eqb_eq _ _) H).
    cbn [negb]. rewrite poll_loop_first by assumption. cbn [bind].
    destruct e; reflexivity.
Qed.

(** X17. What the answer true is worth to the decode that follows.  When it was
    given for staged input, [channel_read_query] does not return false.
    When it was given because [poll] found the descriptor ready, the decode
    can still return false: a stream at its end is ready. *)
Theorem pending_then_decode (fuel : nat) (t : channel) (r : query_t)
    (ps : list pev) (timeout : Z) :
  wf_in t -> scratch_ok t ->
  (input_pos t <> input_len t ->
   channel_has_pending_query fuel t ps timeout = Ret (true, ps) /\
   forall fuel' c' r', channel_read_query fuel' t r <> Ret (false, c', r')) /\
  (unread t = [] -> rbenign (fd t) = true ->
   (length (rsched (fd t)) < fuel)%nat ->
   forall rest,
     ps = Pready :: rest ->
     channel_has_pending_query fuel t ps timeout = Ret (true, rest) /\
     exists c', channel_read_query fuel t r = Ret (false, c', r)).
Proof.
  intros W Ok. split.
  - intros H. split.
    + unfold channel_has_pending_query.
      rewrite (proj2 (Z.eqb_neq _ _) H). reflexivity.
    + intros fuel' c' r' E.
      apply channel_read_query_sound in E; auto.
      destruct E as (_ & _ & _ & Hf & _).
      destruct (Hf eq_refl) as (_ & _ & _ & Hp & _). contradiction.
  - intros U B L rest ->.
    assert (Hp : input_pos t = input_len t).
    { pose proof (len_unread t W) as Hl. rewrite U in Hl.
      pose proof (len_nonneg (incoming (fd t))). destruct W as (? & _).
      change (len []) with 0 in Hl. lia. }
    split.
    + unfold channel_has_pending_query. rewrite (proj2 (Z.eqb_eq _ _) Hp).
      destruct fuel; [lia|]. reflexivity.
    + destruct (try_read_u32_spec fuel t W B L) as [Hnone _].
      destruct (Hnone U) as (c' & E & _).
      exists c'. unfold channel_read_query. rewrite E. reflexivity.
Qed.

(** X18. Every decode starts at the beginning of the scratch buffer: the
    pointer to the first string or blob of a decoded query is to offset 0 of
    the block current when the call returns.  So of two queries decoded one
    after the other, the first field of the first is not kept: unless the
    buffer has moved to a new block in between, the two pointers are equal,
    and what lies there is the field of the second query. *)
Theorem next_decode_reuses_scratch (fuel fuel' : nat) (c c1 c2 : channel)
    (r q1 q2 : query_t) (p1 p2 : ptr) :
  wf_in c -> scratch_ok c ->
  channel_read_query fuel c r = Ret (true, c1, q1) ->
  channel_read_query fuel' c1 q1 = Ret (true, c2, q2) ->
  first_field (q_u q1) = Some p1 ->
  first_field (q_u q2) = Some p2 ->
  p1 = buf_at c1 0 /\ p2 = buf_at c2 0 /\
  (buf_blk c2 = buf_blk c1 -> p1 = p2) /\
  exists hdr body, len hdr = 8 /\ unread c1 = hdr ++ body ++ unread c2 /\
                   scratch_fields c2 (q_u q2) body.
Proof.
  intros W Ok E1 E2 F1 F2.
  assert (G : forall u c' body p,
             scratch_fields c' u body -> first_field u = Some p ->
             p = buf_at c' 0).
  { intros u c' body [b o] Hs Hf. unfold buf_at.
    destruct u; simpl in Hf; try discriminate; inversion Hf; subst;
      simpl in Hs.
    - destruct Hs as (w & s1 & s2 & _ & _ & (Hb & _) & _ & Ho & _).
      simpl in *. congruence.
    - destruct Hs as (w & d & _ & _ & _ & (Hb & _) & Ho).
      simpl in *. congruence.
    - destruct Hs as (s & w & _ & _ & (Hb & _) & Ho). simpl in *. congruence.
    - destruct Hs as (s & _ & (Hb & _) & Ho). simpl in *. congruence.
    - destruct Hs as (s & w & _ & _ & (Hb & _) & Ho). simpl in *. congruence.
    - destruct Hs as (s & w & _ & _ & (Hb & _) & Ho). simpl in *. congruence. }
  apply channel_read_query_sound in E1; auto.
  destruct E1 as (W1 & Ok1 & _ & _ & Ht1).
  destruct (Ht1 eq_refl) as (tb1 & mb1 & body1 & _ & _ & _ & _ & _ & Hs1 & _).
  apply channel_read_query_sound in E2; auto.
  destruct E2 as (W2 & Ok2 & _ & _ & Ht2).
  destruct (Ht2 eq_refl)
    as (tb2 & mb2 & body2 & L1 & L2 & _ & _ & R2 & Hs2 & _).
  pose proof (G _ _ _ _ Hs1 F1) as ->.
  pose proof (G _ _ _ _ Hs2 F2) as ->.
  split; [reflexivity|]. split; [reflexivity|].
  split; [intros H; unfold buf_at; rewrite H; reflexivity|].
  exists (tb2 ++ mb2), body2.
  split; [rewrite len_app; lia|]. split; [|assumption].
  destruct R2 as (_ & U & _). rewrite U, <- !app_assoc. reflexivity.
Qed.

End Pending.

(** ** Tags of four characters *)

Lemma lor_low (hi lo n : Z) :
  0 <= n -> 0 <= lo < 2 ^ n -> Z.lor (hi * 2 ^ n) lo = hi * 2 ^ n + lo.
Proof.
  intros Hn Hlo.
  enough (E : Z.land (hi * 2 ^ n) lo = 0).
  { pose proof (Z.add_lor_land (hi * 2 ^ n) lo) as H. rewrite E in H. lia. }
  apply Z.bits_inj'. intros i Hi.
  rewrite Z.land_spec, Z.bits_0.
  destruct (Z.lt_ge_cases i n) as [Hlt|Hge].
  - rewrite Z.mul_pow2_bits_low by lia. reflexivity.
  - assert (Hb : Z.testbit lo i = false).
    { destruct (Z.eq_dec lo 0) as [->|Hne]; [apply Z.bits_0|].
      apply Z.bits_above_log2; [lia|].
      apply Z.log2_lt_pow2; [lia|].
      assert (2 ^ n <= 2 ^ i) by (apply Z.pow_le_mono_r; lia). lia. }
    rewrite Hb. apply andb_false_r.
Qed.

Lemma PACK_sum (a b c d : Z) :
  0 <= a < 256 -> 0 <= b < 256 -> 0 <= c < 256 -> 0 <= d < 256 ->
  PACK a b c d = a + 2 ^ 8 * b + 2 ^ 16 * c + 2 ^ 24 * d.
Proof.
  intros Ha Hb Hc Hd. unfold PACK.
  rewrite !Z.shiftl_mul_pow2 by lia.
  rewrite (lor_low d (c * 2 ^ 16) 24) by lia.
  replace (d * 2 ^ 24 + c * 2 ^ 16) with ((d * 2 ^ 8 + c) * 2 ^ 16) by ring.
  rewrite (lor_low (d * 2 ^ 8 + c) (b * 2 ^ 8) 16) by lia.
  replace ((d * 2 ^ 8 + c) * 2 ^ 16 + b * 2 ^ 8)
    with ((d * 2 ^ 16 + c * 2 ^ 8 + b) * 2 ^ 8) by ring.
  rewrite (lor_low _ a 8) by lia. ring.
Qed.

Lemma byte_of_Z_to_Z (b : byte) : byte_of_Z (byte_to_Z b) = b.
Proof. destruct b; reflexivity. Qed.

Lemma byte_of_Z_mod (z : Z) : byte_of_Z (z mod 256) = byte_of_Z z.
Proof. unfold byte_of_Z. rewrite Z.mod_mod by lia. reflexivity. Qed.

Lemma bytes_of_u32_of_bytes (a b c d : byte) :
  bytes_of_u32 (u32_of_bytes [a; b; c; d]) = [a; b; c; d].
Proof.
  pose proof (byte_to_Z_range a) as Ha. pose proof (byte_to_Z_range b) as Hb.
  pose proof (byte_to_Z_range c) as Hc. pose proof (byte_to_Z_range d) as Hd.
  unfold bytes_of_u32, u32_of_bytes.
  rewrite !Z.shiftr_div_pow2 by lia.
  set (x := byte_to_Z a) in *. set (y := byte_to_Z b) in *.
  set (z := byte_to_Z c) in *. set (w := byte_to_Z d) in *.
  assert (E0 : (x + 2 ^ 8 * y + 2 ^ 16 * z + 2 ^ 24 * w) mod 256 = x).
  { replace (x + 2 ^ 8 * y + 2 ^ 16 * z + 2 ^ 24 * w)
      with (x + (y + 2 ^ 8 * z + 2 ^ 16 * w) * 256) by ring.
    rewrite Z.mod_add by lia. apply Z.mod_small. lia. }
  assert (E1 : (x + 2 ^ 8 * y + 2 ^ 16 * z + 2 ^ 24 * w) / 2 ^ 8
               = y + 2 ^ 8 * z + 2 ^ 16 * w).
  { replace (x + 2 ^ 8 * y + 2 ^ 16 * z + 2 ^ 24 * w)
      with (x + (y + 2 ^ 8 * z + 2 ^ 16 * w) * 2 ^ 8) by ring.
    rewrite Z.div_add by lia. rewrite Z.div_small by lia. lia. }
  assert (E2 : (x + 2 ^ 8 * y + 2 ^ 16 * z + 2 ^ 24 * w) / 2 ^ 16
               = z + 2 ^ 8 * w).
  { replace (x + 2 ^ 8 * y + 2 ^ 16 * z + 2 ^ 24 * w)
      with (x + 2 ^ 8 * y + (z + 2 ^ 8 * w) * 2 ^ 16) by ring.
    rewrite Z.div_add by lia. rewrite Z.div_small by lia. lia. }
  assert (E3 : (x + 2 ^ 8 * y + 2 ^ 16 * z + 2 ^ 24 * w) / 2 ^ 24 = w).
  { replace (x + 2 ^ 8 * y + 2 ^ 16 * z + 2 ^ 24 * w)
      with (x + 2 ^ 8 * y + 2 ^ 16 * z + w * 2 ^ 24) by ring.
    rewrite Z.div_add by lia. rewrite Z.div_small by lia. lia. }
  rewrite E1, E2, E3.
  rewrite <- (byte_of_Z_mod (x + _ + _ + _)), E0.
  rewrite <- (byte_of_Z_mod (y + _ + _)).
  replace (y + 2 ^ 8 * z + 2 ^ 16 * w) with (y + (z + 2 ^ 8 * w) * 256)
    by ring.
  rewrite Z.mod_add by lia. rewrite (Z.mod_small y) by lia.
  rewrite <- (byte_of_Z_mod (z + _)).
  replace (z + 2 ^ 8 * w) with (z + w * 256) by ring.
  rewrite Z.mod_add by lia. rewrite (Z.mod_small z) by lia.
  unfold x, y, z, w. rewrite !byte_of_Z_to_Z. reflexivity.
Qed.

Section Wire.

Context {env : environment}.

(** X19. A tag made with [PACK] from four characters goes over the wire as
    these four characters in their order, and four characters that arrive
    are read as the tag that [PACK] makes of them.  (The last character is
    below 128, so that the shift stays inside [int].) *)
Theorem packed_tag_on_wire (fuel : nat) (t : channel) (a b c d : byte) :
  byte_to_Z d < 128 ->
  let tag := PACK (byte_to_Z a) (byte_to_Z b) (byte_to_Z c) (byte_to_Z d) in
  0 <= tag <= INT_MAX /\
  u32_of_bytes [a; b; c; d] = tag /\
  (wf_out t ->
   forall t',
     (t1 <- write_u32 fuel t tag;; channel_flush fuel t1) = Ret t' ->
     delivered (fd t') = delivered (fd t) ++ staged t ++ [a; b; c; d]) /\
  (forall c0 rest,
      wf_in c0 -> scratch_ok c0 -> rbenign (fd c0) = true ->
      (length (rsched (fd c0)) < fuel)%nat ->
      unread c0 = [a; b; c; d] ++ rest ->
      exists c', try_read_u32 fuel c0 = Ret (Some tag, c') /\
                 unread c' = rest).
Proof.
  intros Hd. cbv zeta.
  pose proof (byte_to_Z_range a) as Ha. pose proof (byte_to_Z_range b) as Hb.
  pose proof (byte_to_Z_range c) as Hc. pose proof (byte_to_Z_range d) as Hd'.
  rewrite PACK_sum by assumption.
  assert (Hu : u32_of_bytes [a; b; c; d]
               = byte_to_Z a + 2 ^ 8 * byte_to_Z b + 2 ^ 16 * byte_to_Z c
                 + 2 ^ 24 * byte_to_Z d) by reflexivity.
  rewrite <- Hu.
  split; [rewrite Hu; unfold INT_MAX; lia|]. split; [reflexivity|]. split.
  - intros W t' H.
    assert (Hw : write_u32 fuel t (u32_of_bytes [a; b; c; d])
                 = write_seq fuel t [u32_call (u32_of_bytes [a; b; c; d])])
      by (cbn [write_seq]; rewrite bind_ret_r; reflexivity).
    rewrite Hw in H.
    apply write_seq_flush_sound in H; auto;
      [|constructor; [apply u32_call_ok|constructor]].
    destruct H as [H _]. rewrite H. do 2 f_equal.
    cbn [map concat]. rewrite app_nil_r.
    unfold wcall_bytes, u32_call. cbn [fst snd].
    unfold u32. rewrite Z.mod_small by (rewrite Hu; lia).
    rewrite bytes_of_u32_of_bytes. reflexivity.
  - intros c0 rest W Ok B L U.
    destruct (try_read_u32_next fuel c0 [a; b; c; d] rest W Ok B U eq_refl L)
      as (c' & E & _ & _ & _ & U' & _).
    exists c'. auto.
Qed.

(** X20. What [write_u32] and [write_f32] put on the wire, [read_u32] and
    [read_f32] read back: after a flush the stream has received four bytes
    more, and a channel whose unread input starts with these four bytes
    reads from them the word that was written (reduced to 32 bits), leaving
    unread what follows. *)
Theorem words_round_trip (fuel : nat) (t t' : channel) (u : Z) :
  wf_out t ->
  let reads_back (rd : nat -> channel -> outcome (Z * channel)) v :=
    exists w,
      len w = 4 /\
      delivered (fd t') = delivered (fd t) ++ staged t ++ w /\
      forall fuel' c rest,
        wf_in c -> scratch_ok c -> rbenign (fd c) = true ->
        (length (rsched (fd c)) < fuel')%nat ->
        unread c = w ++ rest ->
        exists c', rd fuel' c = Ret (v, c') /\ unread c' = rest in
  ((t1 <- write_u32 fuel t u;; channel_flush fuel t1) = Ret t' ->
   reads_back read_u32 (u32 u)) /\
  (0 <= u < 2 ^ 32 ->
   (t1 <- write_f32 fuel t u;; channel_flush fuel t1) = Ret t' ->
   reads_back read_f32 u).
Proof.
  intros W. cbv zeta.
  assert (G : forall v,
             0 <= v < 2 ^ 32 ->
             (t1 <- write_bytes fuel t (bytes_of_u32 v) 4;;
              channel_flush fuel t1) = Ret t' ->
             exists w,
               len w = 4 /\
               delivered (fd t') = delivered (fd t) ++ staged t ++ w /\
               forall fuel' c rest,
                 wf_in c -> scratch_ok c -> rbenign (fd c) = true ->
                 (length (rsched (fd c)) < fuel')%nat ->
                 unread c = w ++ rest ->
                 exists c', read_u32 fuel' c = Ret (v, c') /\
                            unread c' = rest).
  { intros v Hv H.
    assert (Hw : write_bytes fuel t (bytes_of_u32 v) 4
                 = write_seq fuel t [(bytes_of_u32 v, 4)])
      by (cbn [write_seq fst snd]; rewrite bind_ret_r; reflexivity).
    rewrite Hw in H.
    apply write_seq_flush_sound in H; auto;
      [|constructor; [apply (f32_call_ok v)|constructor]].
    destruct H as [H _].
    exists (bytes_of_u32 v). split; [reflexivity|]. split.
    - rewrite H. reflexivity.
    - intros fuel' c rest Wc Okc B L U.
      destruct (read_u32_next fuel' c _ rest Wc Okc B U eq_refl L)
        as (c' & E & _ & _ & _ & U' & _).
      rewrite u32_roundtrip in E by assumption.
      exists c'. auto. }
  split.
  - intros H. apply G; [apply u32_range|exact H].
  - intros Hu H. destruct (G u Hu H) as (w & Lw & Hd & Hr).
    exists w. split; [assumption|]. split; [assumption|].
    intros fuel' c rest. rewrite read_f32_is_read_u32. apply Hr.
Qed.

(** X21. The same for a run of bytes: what [write_bytes] is given reaches the
    stream after a flush, and [read_bytes] on a channel whose unread input
    starts with these bytes places them in its scratch buffer at the
    position asked for, grown as needed, leaving unread what follows. *)
Theorem bytes_round_trip (fuel : nat) (t t' : channel) (mem : list byte)
    (size : Z) :
  wf_out t -> 0 <= size <= len mem -> size <= 2 ^ 30 ->
  (t1 <- write_bytes fuel t mem size;; channel_flush fuel t1) = Ret t' ->
  delivered (fd t') = delivered (fd t) ++ staged t ++ sub mem 0 size /\
  forall fuel' c pos rest,
    wf_in c -> scratch_ok c -> rbenign (fd c) = true ->
    (length (rsched (fd c)) < fuel')%nat -> (22 < fuel')%nat ->
    0 <= pos <= buf_size c -> pos + size <= 2 ^ 30 ->
    unread c = sub mem 0 size ++ rest ->
    exists c',
      read_bytes fuel' c pos size = Ret c' /\
      sub (buf c') pos size = sub mem 0 size /\ unread c' = rest.
Proof.
  intros W Hs Hmax H.
  assert (Hw : write_bytes fuel t mem size
               = write_seq fuel t [(mem, size)])
    by (cbn [write_seq fst snd]; rewrite bind_ret_r; reflexivity).
  rewrite Hw in H.
  apply write_seq_flush_sound in H; auto.
  2:{ constructor; [|constructor]. unfold wcall_ok, INT_MAX, BUF_SIZE.
      cbn [fst snd]. lia. }
  destruct H as [H _]. split.
  - rewrite H. cbn [map concat]. rewrite app_nil_r. reflexivity.
  - intros fuel' c pos rest Wc Okc B L Hg Hpos Hfit U.
    destruct (ready_read_bytes fuel' fuel' c pos size (sub mem 0 size) rest)
      as (c' & E & R & _ & _ & Hb); auto; try lia.
    + unfold ready. auto.
    + apply len_sub; lia.
    + exists c'. split; [assumption|]. split; [assumption|apply R].
Qed.

End Wire.

(** ** The two directions *)

Lemma write_all_keeps_input (fuel : nat) :
  forall fd data size fd',
    write_all fuel fd data size = Ret fd' ->
    incoming fd' = incoming fd /\ rsched fd' = rsched fd.
Proof.
  induction fuel as [|fuel IH]; intros fd data size fd' H; simpl in H.
  - destruct (size >? 0); [discriminate|]. inversion H; subst. auto.
  - destruct (size >? 0); [|inversion H; subst; auto].
    unfold write in H.
    destruct (wsched fd) as [|[| |k] w]; cbn [take_write] in H.
    + destruct (len (firstn (Z.to_nat size) data) =? 0); [discriminate|].
      apply IH in H. exact H.
    + apply IH in H. exact H.
    + discriminate.
    + destruct (len (firstn (Nat.min k (Z.to_nat size)) data) =? 0);
        [discriminate|].
      apply IH in H. exact H.
Qed.

Section Directions.

Context {env : environment}.

Lemma cflush_keeps_input (fuel : nat) (t t' : channel) :
  cflush fuel t = Ret t' -> same_input t t'.
Proof.
  unfold cflush. intros H.
  destruct (output_pos t =? 0).
  - inversion H; subst. apply same_input_refl.
  - destruct (write_all fuel (fd t) (output_buffer t) (output_pos t))
      as [fd'| | |] eqn:E; cbn [bind] in H; try discriminate.
    inversion H; subst. apply write_all_keeps_input in E.
    unfold same_input. chan. tauto.
Qed.

Lemma write_bytes_keeps_input (fuel : nat) (t t' : channel)
    (mem : list byte) (size : Z) :
  write_bytes fuel t mem size = Ret t' -> same_input t t'.
Proof.
  unfold write_bytes. intros H.
  destruct (wrap_int (output_pos t + size) <=? BUF_SIZE).
  - destruct (memcpy_n (output_buffer t) (output_pos t) mem size);
      cbn [bind] in H; try discriminate.
    inversion H; subst. unfold same_input. chan. tauto.
  - destruct (cflush fuel t) as [t1| | |] eqn:Ef; cbn [bind] in H;
      try discriminate.
    apply cflush_keeps_input in Ef.
    apply (same_input_trans t t1 t' Ef).
    destruct (size >? BUF_SIZE).
    + destruct (len mem <? size); [discriminate|].
      destruct (write_all fuel (fd t1) mem size) as [fd'| | |] eqn:E;
        cbn [bind] in H; try discriminate.
      inversion H; subst. apply write_all_keeps_input in E.
      unfold same_input. chan. tauto.
    + destruct (memcpy_n (output_buffer t1) 0 mem size);
        cbn [bind] in H; try discriminate.
      inversion H; subst. unfold same_input. chan. tauto.
Qed.

Lemma write_seq_keeps_input (fuel : nat) (ws : list wcall) :
  forall t t', write_seq fuel t ws = Ret t' -> same_input t t'.
Proof.
  induction ws as [|w ws IH]; intros t t' H; simpl in H.
  - inversion H; subst. apply same_input_refl.
  - destruct (write_bytes fuel t (fst w) (snd w)) as [t1| | |] eqn:E;
      cbn [bind] in H; try discriminate.
    apply write_bytes_keeps_input in E. apply IH in H.
    exact (same_input_trans _ _ _ E H).
Qed.

(** X22. Decoding and encoding do not touch each other's side of the channel.
    A decode that returns, with true or false, has written nothing: the
    staging area of the output and the bytes delivered are as before.  An
    encode or a flush that returns has read nothing: the staged input, the
    stream still to be read and the scratch buffer are as before, whatever
    the message and however the writes went. *)
Theorem codec_sides_independent (fuel : nat) (c : channel) :
  wf_in c -> scratch_ok c ->
  (forall r b c' r',
      channel_read_query fuel c r = Ret (b, c', r') -> same_output c c') /\
  (forall a c', channel_write_answer fuel c a = Ret c' -> same_input c c') /\
  (forall k c', channel_write_ask fuel c k = Ret c' -> same_input c c') /\
  (forall c', channel_flush fuel c = Ret c' -> same_input c c').
Proof.
  intros W Ok. split; [|split; [|split]].
  - intros r b c' r' H. apply channel_read_query_sound in H; auto.
    destruct H as (_ & _ & _ & Hf & Ht). destruct b.
    + destruct (Ht eq_refl) as (tb & mb & body & _ & _ & _ & _ & R & _).
      apply R.
    + destruct (Hf eq_refl) as (_ & R & _). apply R.
  - intros a c' H. rewrite channel_write_answer_calls in H.
    destruct (answer_calls (buf c) a) as [ws|].
    + apply write_seq_keeps_input in H. exact H.
    + destruct (write_u32 fuel c (a_tag a)); discriminate.
  - intros k c' H. rewrite channel_write_ask_calls in H.
    destruct (ask_calls k) as [ws|].
    + apply write_seq_keeps_input in H. exact H.
    + destruct (write_u32 fuel c (k_tag k)); discriminate.
  - intros c' H. apply cflush_keeps_input in H. exact H.
Qed.

End Directions.

(** ** Stores stay inside their blocks *)

Lemma buffered_read_loop_nofault (fuel : nat) :
  forall fd got atleast size,
    buffered_read_loop fuel fd got atleast size <> Fault.
Proof.
  induction fuel as [|fuel IH]; intros fd got atleast size; simpl;
    [discriminate|].
  destruct (read fd size) as [[[|]|d] fd1]; [apply IH|discriminate|].
  destruct (len (got ++ d) >=? atleast); [discriminate|apply IH].
Qed.

Lemma read_all_loop_nofault (fuel : nat) :
  forall fd got size, read_all_loop fuel fd got size <> Fault.
Proof.
  induction fuel as [|fuel IH]; intros fd got size; simpl;
    (destruct (size >? 0); [|discriminate]); [discriminate|].
  destruct (read fd size) as [[[|]|d] fd1]; [apply IH|discriminate|].
  destruct (len d =? 0); [discriminate|apply IH].
Qed.

Section NoFault.

Context {env : environment}.

Lemma crefill_nofault (fuel : nat) (c : channel) (at_least : Z) :
  wf_in c -> crefill fuel c at_least <> Fault.
Proof.
  intros W. pose proof W as (Hp & Hl & Hb). unfold crefill.
  rewrite memcpy_Ret; [|lia|rewrite len_sub by lia; lia]. cbn [bind].
  unfold buffered_read_at_least.
  destruct (BUF_SIZE - (input_len c - input_pos c) <? at_least);
    [discriminate|].
  destruct (buffered_read_loop fuel (fd c) [] at_least
              (BUF_SIZE - (input_len c - input_pos c)))
    as [[data fd']| | |] eqn:E; cbn [bind]; try discriminate.
  - apply buffered_read_loop_sound in E.
    destruct E as (more & Hd & _ & Hm & _). simpl in Hd. subst more.
    pose proof (len_nonneg data).
    rewrite memcpy_Ret; [discriminate|lia|].
    rewrite len_blit; [|lia|rewrite len_sub by lia; lia]. lia.
  - exfalso. revert E. apply buffered_read_loop_nofault.
Qed.

Lemma read_u32_nofault (fuel : nat) (c : channel) :
  wf_in c -> read_u32 fuel c <> Fault.
Proof.
  intros W. unfold read_u32.
  destruct (input_len c - input_pos c <? 4); [|discriminate].
  destruct (crefill fuel c (4 - (input_len c - input_pos c))) eqn:E;
    cbn [bind]; try discriminate.
  exfalso. revert E. apply crefill_nofault. assumption.
Qed.

Lemma try_read_u32_nofault (fuel : nat) (c : channel) :
  wf_in c -> try_read_u32 fuel c <> Fault.
Proof.
  intros W. unfold try_read_u32.
  assert (G : forall t, wf_in t ->
             (if input_len t - input_pos t =? 0 then Ret (None, t)
              else
                t0 <- (if input_len t - input_pos t <? 4
                       then crefill fuel t (4 - (input_len t - input_pos t))
                       else Ret t);;
                Ret (Some (u32_of_bytes (sub (input_buffer t0)
                                           (input_pos t0) 4)),
                     set_input_pos t0 (input_pos t0 + 4))) <> Fault).
  { intros t Wt. destruct (input_len t - input_pos t =? 0); [discriminate|].
    destruct (input_len t - input_pos t <? 4); [|discriminate].
    destruct (crefill fuel t (4 - (input_len t - input_pos t))) eqn:E;
      cbn [bind]; try discriminate.
    exfalso. revert E. apply crefill_nofault. assumption. }
  destruct (input_len c - input_pos c =? 0).
  - destruct (crefill fuel c 0) as [t| | |] eqn:E; cbn [bind];
      try discriminate.
    + apply G. apply crefill_sound in E; [|assumption]. apply E.
    + exfalso. revert E. apply crefill_nofault. assumption.
  - cbn [bind]. apply G. assumption.
Qed.

Lemma cgetc_nofault (fuel : nat) (c : channel) :
  wf_in c -> cgetc fuel c <> Fault.
Proof.
  intros W. unfold cgetc.
  destruct (input_pos c =? input_len c); [|discriminate].
  destruct (crefill fuel c 1) eqn:E; cbn [bind]; try discriminate.
  exfalso. revert E. apply crefill_nofault. assumption.
Qed.

Lemma resize_buf_nofault (c : channel) :
  scratch_ok c -> resize_buf c <> Fault.
Proof.
  intros Ok. pose proof Ok as (_ & Hmax & _).
  destruct (Z.eq_dec (buf_size c) (2 ^ 30)) as [He|Hne].
  - unfold resize_buf. rewrite He. discriminate.
  - destruct (resize_buf_runs c Ok) as [c1 E]; [lia|]. rewrite E.
    discriminate.
Qed.

Lemma grow_buf_nofault (fuel : nat) :
  forall c need, scratch_ok c -> grow_buf fuel c need <> Fault.
Proof.
  induction fuel as [|fuel IH]; intros c need Ok; simpl;
    (destruct (buf_size c <? need); [|discriminate]); [discriminate|].
  destruct (resize_buf c) as [c1| | |] eqn:E; cbn [bind]; try discriminate.
  - apply IH. apply resize_buf_sound in E; [|assumption]. apply E.
  - exfalso. revert E. apply resize_buf_nofault. assumption.
Qed.

Lemma read_zstr_loop_nofault (fuel : nat) :
  forall c pos,
    wf_in c -> scratch_ok c -> 0 <= pos <= buf_size c ->
    read_zstr_loop fuel c pos <> Fault.
Proof.
  induction fuel as [|fuel IH]; intros c pos W Ok Hpos; simpl;
    [discriminate|].
  destruct (if pos =? buf_size c then resize_buf c else Ret c)
    as [c1| | |] eqn:H1; cbn [bind]; try discriminate.
  2:{ destruct (pos =? buf_size c); [|discriminate].
      exfalso. revert H1. apply resize_buf_nofault. assumption. }
  assert (S1 : scratch_ok c1 /\ same_io c c1 /\ pos < buf_size c1).
  { destruct (pos =? buf_size c) eqn:E.
    - apply Z.eqb_eq in E. pose proof (scratch_ok_pos c Ok).
      apply resize_buf_sound in H1; [|assumption].
      destruct H1 as (K & Hs & _ & Io & _).
      split; [apply K|]. split; [assumption|]. lia.
    - apply Z.eqb_neq in E. inversion H1; subst c1.
      split; [assumption|]. split; [unfold same_io; auto 10|]. lia. }
  destruct S1 as (Ok1 & Io1 & Hlt).
  pose proof (same_io_rd_step c c1 W Io1) as R1.
  assert (W1 : wf_in c1) by apply R1.
  destruct (cgetc fuel c1) as [[ch c2]| | |] eqn:Eg; cbn [bind];
    try discriminate.
  2:{ exfalso. revert Eg. apply cgetc_nofault. assumption. }
  apply cgetc_sound in Eg; [|assumption].
  destruct Eg as (R2 & (Sb & Ss & Sk)).
  pose proof Ok1 as (A & B & C).
  rewrite memcpy_Ret; [|lia|change (len [ch]) with 1; rewrite Sb; lia].
  cbn [bind].
  destruct (negb (Byte.eqb ch x00)); [|discriminate].
  apply IH.
  - apply R2.
  - unfold scratch_ok. chan.
    rewrite len_blit; [|lia|change (len [ch]) with 1; rewrite Sb; lia].
    rewrite Sb, Ss. auto.
  - chan. lia.
Qed.

Lemma read_zstr_nofault (fuel : nat) (c : channel) (pos : Z) :
  wf_in c -> scratch_ok c -> 0 <= pos <= buf_size c ->
  read_zstr fuel c pos <> Fault.
Proof.
  intros W Ok Hpos. unfold read_zstr.
  destruct (read_zstr_loop fuel c pos) as [[p t]| | |] eqn:E; cbn [bind];
    try discriminate.
  exfalso. revert E. apply read_zstr_loop_nofault; assumption.
Qed.

(** [read_bytes] leaves its blocks only when the size is negative. *)
Lemma read_bytes_fault (fuel : nat) (c : channel) (pos size : Z) :
  wf_in c -> scratch_ok c -> 0 <= pos <= buf_size c ->
  - 2 ^ 31 <= size -> pos + size < 2 ^ 31 ->
  read_bytes fuel c pos size = Fault -> size < 0.
Proof.
  intros W Ok Hpos Hlo Hhi H.
  destruct (Z.lt_ge_cases size 0) as [|Hsz]; [assumption|exfalso].
  unfold read_bytes in H.
  rewrite (wrap_int_small (pos + size)) in H by lia.
  destruct (grow_buf fuel c (pos + size)) as [c1| | |] eqn:Eg;
    cbn [bind] in H; try discriminate.
  2:{ revert Eg. apply grow_buf_nofault. assumption. }
  apply grow_buf_sound in Eg; [|assumption].
  destruct Eg as (K1 & Hneed & _ & Io1).
  pose proof (same_io_rd_step c c1 W Io1) as R1.
  assert (W1 : wf_in c1) by apply R1.
  assert (Ok1 : scratch_ok c1) by apply K1.
  pose proof W1 as (Hp1 & Hl1 & Hb1).
  pose proof Ok1 as (_ & Hmax1 & Hlen1).
  unfold BUF_SIZE in *.
  rewrite (wrap_int_small (input_pos c1 + size)) in H by lia.
  destruct (input_pos c1 + size <=? input_len c1) eqn:E.
  - apply Z.leb_le in E.
    destruct (size <? 0) eqn:En; [apply Z.ltb_lt in En; lia|].
    rewrite memcpy_Ret in H; [discriminate|lia|].
    rewrite len_sub by lia. lia.
  - apply Z.leb_gt in E.
    set (isize := input_len c1 - input_pos c1) in *.
    assert (Hlp : len (sub (input_buffer c1) (input_pos c1) isize) = isize).
    { apply len_sub; lia. }
    rewrite memcpy_Ret in H by lia. cbn [bind] in H. chan.
    set (b := blit (buf c1) pos _) in *.
    assert (Hlb : len b = len (buf c1)) by (apply len_blit; lia).
    destruct (read_all fuel (fd c1) (size - isize)) as [[data fd']| | |]
      eqn:Er; cbn [bind] in H; try discriminate.
    + apply read_all_loop_sound in Er.
      destruct Er as (more & Hd & _ & Hlm). simpl in Hd. subst more.
      rewrite Z.max_r in Hlm by lia.
      rewrite memcpy_Ret in H by lia. discriminate.
    + revert Er. apply read_all_loop_nofault.
Qed.

Ltac fword H :=
  let v := fresh "v" in let t := fresh "t" in let E := fresh "E" in
  match type of H with
  | bind (read_u32 ?f ?c) _ = Fault =>
      destruct (read_u32 f c) as [[v t]| | |] eqn:E; cbn [bind] in H;
      [ apply read_u32_step in E; [|assumption|assumption];
        destruct E as (? & ? & ? & ? & ? & ? & ?)
      | discriminate
      | exfalso; revert E; apply read_u32_nofault; assumption
      | discriminate ]
  | bind (read_f32 ?f ?c) _ = Fault =>
      rewrite (read_f32_is_read_u32 f c) in H; fword H
  end.

Ltac ftext H :=
  let p := fresh "p" in let q := fresh "q" in let t := fresh "t" in
  let E := fresh "E" in
  match type of H with
  | bind (read_zstr ?f ?c ?pos) _ = Fault =>
      pose proof (scratch_ok_pos c ltac:(assumption));
      destruct (read_zstr f c pos) as [[[p q] t]| | |] eqn:E;
      cbn [bind] in H;
      [ apply read_zstr_step in E; [|assumption|assumption|lia];
        let s := fresh "s" in
        destruct E as (-> & s & ? & ? & ? & ? & ? & ? & ? & ?);
        pose proof (len_nonneg s)
      | discriminate
      | exfalso; revert E; apply read_zstr_nofault; [assumption|assumption|lia]
      | discriminate ]
  end.

Lemma read_query_fields_fault (fuel : nat) (c : channel) (tag : Z) :
  wf_in c -> scratch_ok c ->
  read_query_fields fuel c tag = Fault ->
  tag = u32 Q_WRIT /\
  exists w1 w2 ws rest,
    len w1 = 4 /\ len w2 = 4 /\ len ws = 4 /\
    unread c = w1 ++ w2 ++ ws ++ rest /\ 2 ^ 31 <= u32_of_bytes ws.
Proof.
  intros W Ok H. unfold read_query_fields in H.
  destruct (tag =? u32 Q_OPEN).
  { exfalso. fword H. ftext H. subst. ftext H. discriminate. }
  destruct (tag =? u32 Q_READ).
  { exfalso. fword H. fword H. fword H. discriminate. }
  destruct (tag =? u32 Q_WRIT) eqn:Et.
  { apply Z.eqb_eq in Et. split; [assumption|].
    destruct (read_u32 fuel c) as [[v1 t1]| | |] eqn:E1; cbn [bind] in H;
      try discriminate;
      [|exfalso; revert E1; apply read_u32_nofault; assumption].
    apply read_u32_step in E1; auto.
    destruct E1 as (w1 & L1 & _ & R1 & S1 & W1 & Ok1).
    destruct (read_u32 fuel t1) as [[v2 t2]| | |] eqn:E2; cbn [bind] in H;
      try discriminate;
      [|exfalso; revert E2; apply read_u32_nofault; assumption].
    apply read_u32_step in E2; auto.
    destruct E2 as (w2 & L2 & _ & R2 & S2 & W2 & Ok2).
    destruct (read_u32 fuel t2) as [[v3 t3]| | |] eqn:E3; cbn [bind] in H;
      try discriminate;
      [|exfalso; revert E3; apply read_u32_nofault; assumption].
    apply read_u32_step in E3; auto.
    destruct E3 as (ws & L3 & Hv & R3 & S3 & W3 & Ok3).
    destruct (read_bytes fuel t3 0 (wrap_int v3)) as [t4| | |] eqn:E4;
      cbn [bind] in H; try discriminate.
    pose proof (wrap_int_range v3) as Hr.
    pose proof (scratch_ok_pos t3 Ok3).
    apply read_bytes_fault in E4; auto; try lia.
    exists w1, w2, ws, (unread t3).
    split; [assumption|]. split; [assumption|]. split; [assumption|].
    split.
    - destruct R1 as (_ & U1 & _). destruct R2 as (_ & U2 & _).
      destruct R3 as (_ & U3 & _). rewrite U1, U2, U3. reflexivity.
    - pose proof (u32_of_bytes_range ws) as Hu. rewrite <- Hv.
      destruct (Z.lt_ge_cases v3 (2 ^ 31)) as [Hlt|]; [|assumption].
      rewrite wrap_int_small in E4 by lia. lia. }
  exfalso.
  destruct (tag =? u32 Q_CLOS).
  { fword H. discriminate. }
  destruct (tag =? u32 Q_SIZE).
  { fword H. discriminate. }
  destruct (tag =? u32 Q_SEEN).
  { fword H. fword H. discriminate. }
  destruct (tag =? u32 Q_CHLD).
  { fword H. discriminate. }
  destruct (tag =? u32 Q_BACK).
  { fword H. fword H. fword H. discriminate. }
  destruct (tag =? u32 Q_ACCS).
  { ftext H. fword H. discriminate. }
  destruct (tag =? u32 Q_STAT).
  { ftext H. discriminate. }
  destruct (tag =? u32 Q_GPIC).
  { ftext H. fword H. fword H. discriminate. }
  destruct (tag =? u32 Q_SPIC).
  { ftext H. fword H. fword H. fword H. fword H. fword H. fword H.
    discriminate. }
  discriminate.
Qed.

(** X23. Whatever bytes arrive, however the reads are cut and for whatever
    fuel, no store of the decoder leaves its block (the refill of the
    staging buffer, the byte stores of a string, the copies into the scratch
    buffer and into a new one at a growth step), with one exception: a call
    of [channel_read_query] that leaves defined behaviour has read a WRIT
    query whose size word is 2^31 or more. *)
Theorem decoder_stores_in_bounds (fuel : nat) (c : channel) (r : query_t) :
  wf_in c -> scratch_ok c ->
  channel_read_query fuel c r = Fault ->
  exists tb mb w1 w2 ws rest,
    unread c = tb ++ mb ++ w1 ++ w2 ++ ws ++ rest /\
    len tb = 4 /\ len mb = 4 /\ len w1 = 4 /\ len w2 = 4 /\ len ws = 4 /\
    u32_of_bytes tb = u32 Q_WRIT /\ 2 ^ 31 <= u32_of_bytes ws.
Proof.
  intros W Ok H. unfold channel_read_query in H.
  destruct (try_read_u32 fuel c) as [[o t1]| | |] eqn:E1; cbn [bind] in H;
    try discriminate;
    [|exfalso; revert E1; apply try_read_u32_nofault; assumption].
  apply try_read_u32_sound in E1; [|assumption].
  destruct E1 as (S1 & Ho).
  pose proof (same_scratch_ok c t1 Ok S1) as Ok1.
  destruct o as [tag|]; [|discriminate].
  destruct Ho as (tb & Ltb & Htag & R1).
  assert (W1 : wf_in t1) by apply R1.
  destruct (read_u32 fuel t1) as [[time t2]| | |] eqn:E2; cbn [bind] in H;
    try discriminate;
    [|exfalso; revert E2; apply read_u32_nofault; assumption].
  apply read_u32_step in E2; auto.
  destruct E2 as (mb & Lmb & _ & R2 & S2 & W2 & Ok2).
  destruct (read_query_fields fuel t2 tag) as [[u t3]| | |] eqn:E3;
    cbn [bind] in H; try discriminate.
  apply read_query_fields_fault in E3; auto.
  destruct E3 as (Ht & w1 & w2 & ws & rest & L1 & L2 & L3 & U & Hs).
  exists tb, mb, w1, w2, ws, rest.
  split; [|repeat (split; [assumption|]); split; [congruence|assumption]].
  destruct R1 as (_ & U1 & _). destruct R2 as (_ & U2 & _).
  rewrite U1, U2, U. reflexivity.
Qed.

End NoFault.

(** ** The encoder stays inside its blocks *)

Lemma write_all_nofault (fuel : nat) :
  forall fd data size, write_all fuel fd data size <> Fault.
Proof.
  induction fuel as [|fuel IH]; intros fd data size; simpl;
    (destruct (size >? 0); [|discriminate]); [discriminate|].
  destruct (write fd data size) as [[[|]|n] fd1]; [apply IH|discriminate|].
  destruct (n =? 0); [discriminate|apply IH].
Qed.

Section EncoderBounds.

Context {env : environment}.

Lemma cflush_nofault (fuel : nat) (t : channel) : cflush fuel t <> Fault.
Proof.
  unfold cflush. destruct (output_pos t =? 0); [discriminate|].
  destruct (write_all fuel (fd t) (output_buffer t) (output_pos t)) eqn:E;
    cbn [bind]; try discriminate.
  exfalso. revert E. apply write_all_nofault.
Qed.

Lemma write_bytes_nofault (fuel : nat) (t : channel) (mem : list byte)
    (size : Z) :
  wf_out t -> wcall_ok (mem, size) ->
  write_bytes fuel t mem size <> Fault.
Proof.
  intros W [Hs Hm]. cbn [fst snd] in Hs, Hm. pose proof W as [Wp Wl].
  unfold write_bytes.
  rewrite (wrap_int_small (output_pos t + size))
    by (unfold INT_MAX, BUF_SIZE in *; lia).
  destruct (output_pos t + size <=? BUF_SIZE) eqn:E.
  - apply Z.leb_le in E. rewrite memcpy_n_Ret by lia. discriminate.
  - destruct (cflush fuel t) as [t1| | |] eqn:Ef; cbn [bind];
      try discriminate; [|exfalso; revert Ef; apply cflush_nofault].
    apply cflush_sound in Ef; [|assumption].
    destruct Ef as ((W1 & _) & _). destruct W1 as [W1p W1l].
    destruct (size >? BUF_SIZE) eqn:Eb.
    + destruct (len mem <? size) eqn:El; [apply Z.ltb_lt in El; lia|].
      destruct (write_all fuel (fd t1) mem size) eqn:Ew; cbn [bind];
        try discriminate.
      exfalso. revert Ew. apply write_all_nofault.
    + assert (size <= BUF_SIZE).
      { destruct (Z.le_gt_cases size BUF_SIZE) as [|Hgt]; [assumption|].
        apply Z.gtb_lt in Hgt. congruence. }
      rewrite memcpy_n_Ret by lia. discriminate.
Qed.

Lemma write_seq_nofault (fuel : nat) (ws : list wcall) :
  forall t, wf_out t -> Forall wcall_ok ws -> write_seq fuel t ws <> Fault.
Proof.
  induction ws as [|[mem size] ws IH]; intros t W Hok; simpl;
    [discriminate|].
  inversion Hok as [|? ? Hw Hr]; subst.
  destruct (write_bytes fuel t mem size) as [t1| | |] eqn:E; cbn [bind];
    try discriminate.
  - apply IH; [|assumption].
    destruct Hw as [Hs Hm]. cbn [fst snd] in Hs, Hm.
    apply write_bytes_sound in E; auto. apply E.
  - exfalso. revert E. apply write_bytes_nofault; assumption.
Qed.

(** X24. No store of the encoder leaves the staging buffer, and no read of it
    leaves its source, with one exception: a call of
    [channel_write_answer] that leaves defined behaviour encodes a READ or
    an OPEN answer whose size is negative or exceeds the capacity of the
    scratch buffer.  [channel_write_ask] and [channel_flush] never do. *)
Theorem encoder_stores_in_bounds (fuel : nat) (t : channel) :
  wf_out t -> scratch_ok t ->
  (forall a,
      channel_write_answer fuel t a = Fault ->
      (a_tag a = A_READ /\ (read_size a < 0 \/ buf_size t < read_size a)) \/
      (a_tag a = A_OPEN /\ (open_size a < 0 \/ buf_size t < open_size a))) /\
  (forall k, channel_write_ask fuel t k <> Fault) /\
  channel_flush fuel t <> Fault.
Proof.
  intros W Ok. pose proof Ok as (_ & Hmax & Hlen).
  assert (Hu : forall u, write_u32 fuel t u <> Fault).
  { intros u. apply write_bytes_nofault; [assumption|apply u32_call_ok]. }
  assert (Hnone : forall u, (_ <- write_u32 fuel t u;; @Abort channel)
                            <> Fault).
  { intros u. destruct (write_u32 fuel t u) eqn:E; cbn [bind];
      try discriminate.
    exfalso. revert E. apply Hu. }
  assert (Hblob : forall n ws,
             Forall wcall_ok ws ->
             write_seq fuel t (ws ++ [(buf t, n)]) = Fault ->
             n < 0 \/ buf_size t < n).
  { intros n ws Hok H.
    destruct (Z.lt_ge_cases n 0) as [|Hn]; [auto|].
    destruct (Z.lt_ge_cases (buf_size t) n) as [|Hc]; [auto|].
    exfalso. revert H. apply write_seq_nofault; [assumption|].
    apply Forall_app. split; [assumption|].
    constructor; [|constructor].
    unfold wcall_ok, INT_MAX, BUF_SIZE. cbn [fst snd]. lia. }
  assert (Hw : forall ws,
             Forall wcall_ok ws -> write_seq fuel t ws <> Fault).
  { intros ws Hok. apply write_seq_nofault; assumption. }
  split; [|split].
  - intros a H. rewrite channel_write_answer_calls in H.
    unfold answer_calls in H.
    destruct (a_tag a =? A_DONE);
      [exfalso; revert H; apply Hw; repeat constructor; apply u32_call_ok|].
    destruct (a_tag a =? A_PASS);
      [exfalso; revert H; apply Hw; repeat constructor; apply u32_call_ok|].
    destruct (a_tag a =? A_FORK);
      [exfalso; revert H; apply Hw; repeat constructor; apply u32_call_ok|].
    destruct (a_tag a =? A_READ) eqn:Er.
    { left. apply Z.eqb_eq in Er. split; [assumption|].
      apply (Hblob _ [u32_call (a_tag a); u32_call (read_size a)]);
        [|exact H].
      repeat (constructor; [apply u32_call_ok|]). constructor. }
    destruct (a_tag a =? A_ACCS).
    { exfalso. revert H. apply Hw.
      repeat (constructor; [apply u32_call_ok|]). constructor. }
    destruct (a_tag a =? A_STAT).
    { exfalso. revert H. apply Hw.
      repeat (constructor; [apply u32_call_ok|]).
      destruct (accs_flag a =? ACCS_OK); [apply stat_calls_ok|constructor]. }
    destruct (a_tag a =? A_SIZE).
    { exfalso. revert H. apply Hw.
      repeat (constructor; [apply u32_call_ok|]). constructor. }
    destruct (a_tag a =? A_OPEN) eqn:Eo.
    { right. apply Z.eqb_eq in Eo. split; [assumption|].
      apply (Hblob _ [u32_call (a_tag a); u32_call (open_size a)]);
        [|exact H].
      repeat (constructor; [apply u32_call_ok|]). constructor. }
    destruct (a_tag a =? A_GPIC).
    { exfalso. revert H. apply Hw.
      constructor; [apply u32_call_ok|].
      repeat (constructor; [apply f32_call_ok|]). constructor. }
    exfalso. revert H. apply Hnone.
  - intros k. rewrite channel_write_ask_calls. unfold ask_calls.
    destruct (k_tag k =? C_TERM).
    { apply Hw. repeat (constructor; [apply u32_call_ok|]). constructor. }
    destruct (k_tag k =? C_FLSH).
    { apply Hw. repeat (constructor; [apply u32_call_ok|]). constructor. }
    apply Hnone.
  - apply cflush_nofault.
Qed.

End EncoderBounds.

(** ** The start of a session *)

Section Session.

Context {env : environment}.

(** X25. A session starts with [channel_new] and [channel_handshake].  On a
    stream that brings 12 bytes or more and whose calls do not fail, the
    handshake on the new channel returns, true exactly when the first 12
    bytes are the greeting of the client; the greeting of the server has
    been delivered; and the channel is in order for the codec, with
    nothing staged and all that followed the 12 bytes still unread. *)
Theorem handshake_on_new_channel (fuel : nat) (s : stream) :
  wbenign s = true -> rbenign s = true -> 12 <= len (incoming s) ->
  (length (wsched s) < fuel)%nat -> (length (rsched s) < fuel)%nat ->
  exists b c' answer rest,
    channel_handshake fuel (channel_new s) = Ret (b, c') /\
    incoming s = answer ++ rest /\ len answer = 12 /\
    (b = true <-> answer = String.list_byte_of_string "TEXPRESSOC01") /\
    delivered (fd c')
      = delivered s ++ String.list_byte_of_string "TEXPRESSOS01" /\
    wf_in c' /\ wf_out c' /\ scratch_ok c' /\
    unread c' = rest /\ staged c' = [] /\
    rbenign (fd c') = true /\ wbenign (fd c') = true.
Proof.
  intros Hw Hr Hi Hfw Hfr. unfold channel_handshake.
  change (LEN HND_SERVER) with 12. change (LEN HND_CLIENT) with 12.
  change (fd (channel_new s)) with s.
  destruct (write_all_runs fuel s HND_SERVER 12) as [fd1 Ew]; auto.
  { vm_compute. split; discriminate. }
  rewrite Ew. cbn [bind].
  apply write_all_sound in Ew; [|vm_compute; split; discriminate].
  destruct Ew as (D1 & I1 & R1 & B1 & _).
  destruct (read_all_loop_runs fuel fd1 [] 12) as (answer & fd2 & Er).
  { unfold rbenign in *. rewrite R1. assumption. }
  { rewrite I1. assumption. }
  { rewrite R1. assumption. }
  unfold read_all. rewrite Er. cbn [bind].
  apply read_all_loop_sound in Er.
  destruct Er as (more & Hm & (I2 & W2 & D2 & B2 & _) & Hl).
  simpl in Hm. subst more. change (Z.max 0 12) with 12 in Hl.
  destruct (channel_new_ok s) as (Win & Wout & Ok & _).
  exists (strncmp HND_CLIENT answer (Z.to_nat 12) =? 0),
    (set_fd (channel_new s) fd2), answer, (incoming fd2).
  split; [reflexivity|]. split; [rewrite <- I1; exact I2|].
  split; [exact Hl|]. split; [apply handshake_compare; exact Hl|].
  chan. split; [rewrite D2, D1; reflexivity|].
  split; [exact Win|]. split; [exact Wout|]. split; [exact Ok|].
  split; [reflexivity|]. split; [reflexivity|].
  split.
  - apply B2. unfold rbenign in *. rewrite R1. assumption.
  - unfold wbenign in *. rewrite W2. auto.
Qed.

End Session.

(** ** Queries that are staged in full *)

Section StagedQueries.

Context {env : environment}.

(** A word that is staged is read without a refill. *)
Lemma staged_word (fuel : nat) (c : channel) (bs rest : list byte) :
  wf_in c -> pending c = bs ++ rest -> len bs = 4 ->
  let c' := set_input_pos c (input_pos c + 4) in
  read_u32 fuel c = Ret (u32_of_bytes bs, c') /\
  try_read_u32 fuel c = Ret (Some (u32_of_bytes bs), c') /\
  wf_in c' /\ pending c' = rest.
Proof.
  intros W U Lb. cbv zeta.
  pose proof (len_pending c W) as Hlp. pose proof (len_nonneg rest) as Hr.
  rewrite U, len_app in Hlp. pose proof W as (Hp & Hl & Hb).
  assert (Ha : (input_len c - input_pos c <? 4) = false)
    by (apply Z.ltb_ge; lia).
  assert (Hz : (input_len c - input_pos c =? 0) = false)
    by (apply Z.eqb_neq; lia).
  assert (Hs : sub (input_buffer c) (input_pos c) 4 = bs /\
               pending (set_input_pos c (input_pos c + 4)) = rest).
  { unfold pending in *. chan.
    replace (input_len c - input_pos c)
      with (4 + (input_len c - (input_pos c + 4))) in U by lia.
    rewrite sub_split in U by lia.
    apply app_eq_len in U; [exact U|].
    assert (Hn : len (sub (input_buffer c) (input_pos c) 4) = 4)
      by (apply len_sub; lia).
    unfold len in *. lia. }
  destruct Hs as [Hs1 Hs2].
  split; [|split; [|split]].
  - unfold read_u32. rewrite Ha. cbn [bind]. rewrite Hs1. reflexivity.
  - unfold try_read_u32. rewrite Hz. cbn [bind]. rewrite Hz, Ha.
    cbn [bind]. rewrite Hs1. reflexivity.
  - unfold wf_in. chan. lia.
  - exact Hs2.
Qed.

Ltac sword W U Lw c' W' U' :=
  match goal with
  | |- context [read_u32 ?fuel ?c] =>
      let E := fresh "E" in
      destruct (staged_word fuel c _ _ W U Lw) as (E & _ & W' & U');
      rewrite E; clear E; cbn [bind];
      set (c' := set_input_pos c (input_pos c + 4)) in *
  end.

(** X26. When the whole frame of a query made of words (READ, CLOS, SIZE,
    SEEN, CHLD, BACK) is staged, [channel_read_query] decodes it without a
    system call: it returns true for every fuel, also zero, whatever the
    stream would do, and leaves the stream as it was.  After
    [channel_has_pending_query] has answered true for such input the decode
    cannot block. *)
Theorem staged_query_needs_no_read (fuel : nat) (c : channel) (r : query_t)
    (wt w1 w2 w3 more : list byte) :
  query_labels_distinct -> wf_in c ->
  len wt = 4 -> len w1 = 4 -> len w2 = 4 -> len w3 = 4 ->
  let time := u32_of_bytes wt in
  let a := u32_of_bytes w1 in
  let b := u32_of_bytes w2 in
  let d := u32_of_bytes w3 in
  let returns tag frame u :=
    pending c = bytes_of_u32 (u32 tag) ++ wt ++ frame ++ more ->
    exists c',
      channel_read_query fuel c r = Ret (true, c', mkQuery time (u32 tag) u)
      /\ fd c' = fd c /\ pending c' = more in
  returns Q_READ (w1 ++ w2 ++ w3) (U_read a b d) /\
  returns Q_CLOS w1 (U_clos a) /\
  returns Q_SIZE w1 (U_size a) /\
  returns Q_SEEN (w1 ++ w2) (U_seen a b) /\
  returns Q_CHLD w1 (U_chld a) /\
  returns Q_BACK (w1 ++ w2 ++ w3) (U_back a b d).
Proof.
  intros D W Lt L1 L2 L3. cbv zeta. unfold query_labels_distinct in D.
  assert (Hh : forall tag rest,
             pending c = bytes_of_u32 (u32 tag) ++ wt ++ rest ->
             exists c2,
               wf_in c2 /\ pending c2 = rest /\ fd c2 = fd c /\
               channel_read_query fuel c r =
                 ('(u, t) <- read_query_fields fuel c2 (u32 tag);;
                  Ret (true, t, mkQuery (u32_of_bytes wt) (u32 tag) u))).
  { intros tag rest U. unfold channel_read_query.
    destruct (staged_word fuel c _ _ W U eq_refl) as (_ & E1 & W1 & U1).
    rewrite E1. cbn [bind]. rewrite (u32_roundtrip _ (u32_range tag)).
    destruct (staged_word fuel _ _ _ W1 U1 Lt) as (E2 & _ & W2 & U2).
    rewrite E2. cbn [bind]. eexists. split; [exact W2|].
    split; [exact U2|]. split; reflexivity. }
  split; [|split; [|split; [|split; [|split]]]]; intros U;
    rewrite <- ?app_assoc in U;
    destruct (Hh _ _ U) as (c2 & W2 & U2 & F2 & E); rewrite E; clear E;
    unfold read_query_fields.
  - reach D 1%nat.
    sword W2 U2 L1 c3 W3 U3. sword W3 U3 L2 c4 W4 U4.
    sword W4 U4 L3 c5 W5 U5.
    exists c5. split; [reflexivity|]. split; [exact F2|exact U5].
  - reach D 3%nat. sword W2 U2 L1 c3 W3 U3.
    exists c3. split; [reflexivity|]. split; [exact F2|exact U3].
  - reach D 4%nat. sword W2 U2 L1 c3 W3 U3.
    exists c3. split; [reflexivity|]. split; [exact F2|exact U3].
  - reach D 5%nat. sword W2 U2 L1 c3 W3 U3. sword W3 U3 L2 c4 W4 U4.
    exists c4. split; [reflexivity|]. split; [exact F2|exact U4].
  - reach D 6%nat. sword W2 U2 L1 c3 W3 U3.
    exists c3. split; [reflexivity|]. split; [exact F2|exact U3].
  - reach D 7%nat.
    sword W2 U2 L1 c3 W3 U3. sword W3 U3 L2 c4 W4 U4.
    sword W4 U4 L3 c5 W5 U5.
    exists c5. split; [reflexivity|]. split; [exact F2|exact U5].
Qed.

End StagedQueries.

(** ** Growth moves the scratch buffer *)

Section Moves.

Context {env : environment}.

Lemma grow_buf_moves (fuel : nat) :
  forall c c' need,
    scratch_ok c ->
    grow_buf fuel c need = Ret c' ->
    buf_size c < need -> (buf_blk c < buf_blk c')%nat.
Proof.
  induction fuel as [|fuel IH]; intros c c' need Ok H Hlt; simpl in H;
    (destruct (buf_size c <? need) eqn:E; [|apply Z.ltb_ge in E; lia]);
    [discriminate|].
  destruct (resize_buf c) as [c1| | |] eqn:Er; cbn [bind] in H;
    try discriminate.
  apply resize_buf_sound in Er; [|assumption].
  destruct Er as (K1 & _ & _ & _ & Hb).
  apply grow_buf_sound in H; [|apply K1].
  destruct H as ((_ & _ & _ & Hle) & _). lia.
Qed.

(** X27. When [channel_write_buffer] has to grow the scratch buffer, the
    buffer moves: the block current before is given back and a new one is
    current, so a pointer that an earlier decode returned no longer points
    into the scratch buffer.  The bytes have moved with it: a string or
    blob of that query lies at the same offset of the new block. *)
Theorem write_buffer_moves_scratch (fuel : nat) (t t' : channel) (n : Z)
    (p : ptr) :
  scratch_ok t ->
  channel_write_buffer fuel t n = Ret (p, t') ->
  buf_size t < n ->
  (buf_blk t < buf_blk t')%nat /\ blk p = buf_blk t' /\
  (forall q s, zstr_at t q s ->
               blk q <> buf_blk t' /\
               zstr_at t' (mkPtr (buf_blk t') (off q)) s) /\
  (forall q d, blob_at t q d ->
               blk q <> buf_blk t' /\
               blob_at t' (mkPtr (buf_blk t') (off q)) d).
Proof.
  intros Ok H Hlt. unfold channel_write_buffer in H.
  destruct (grow_buf fuel t n) as [t1| | |] eqn:E; cbn [bind] in H;
    try discriminate.
  inversion H; subst p t'; clear H.
  pose proof (grow_buf_moves _ _ _ _ Ok E Hlt) as Hm.
  apply grow_buf_sound in E; [|assumption].
  destruct E as ((Ok1 & Hs & Hk & _) & _).
  split; [assumption|]. split; [reflexivity|]. split.
  - intros q s (Hb & Ho & Hfit & Hstr & Hn). pose proof (len_nonneg s).
    split; [lia|].
    unfold zstr_at. cbn [blk off].
    split; [reflexivity|]. split; [assumption|]. split; [lia|].
    split; [|assumption].
    rewrite (sub_eq_inside _ _ (buf_size t) (off q) (len s + 1) Hk) by lia.
    assumption.
  - intros q d (Hb & Ho & Hfit & Hd). pose proof (len_nonneg d).
    split; [lia|].
    unfold blob_at. cbn [blk off].
    split; [reflexivity|]. split; [assumption|]. split; [lia|].
    rewrite (sub_eq_inside _ _ (buf_size t) (off q) (len d) Hk) by lia.
    assumption.
Qed.

End Moves.

(** ** A frame cut short *)

Lemma buffered_read_loop_starves (fuel : nat) :
  forall fd got atleast size,
    rbenign fd = true -> len got + len (incoming fd) < atleast ->
    buffered_read_loop fuel fd got atleast size = Spin.
Proof.
  induction fuel as [|fuel IH]; intros fd got atleast size Hb Hs;
    [reflexivity|].
  simpl. destruct (read fd size) as [[e|d] fd1] eqn:Er.
  - apply read_Err in Er. destruct Er as ((I1 & _ & _ & B1 & _) & _ & He).
    rewrite (He Hb). simpl in I1. apply IH; [auto|]. rewrite <- I1.
    assumption.
  - apply read_Ok in Er. destruct Er as ((I1 & _ & _ & B1 & _) & _).
    assert (Hl : len (incoming fd) = len d + len (incoming fd1)).
    { rewrite I1, len_app. reflexivity. }
    destruct (len (got ++ d) >=? atleast) eqn:E.
    + rewrite len_app in E. apply Z.geb_le in E.
      pose proof (len_nonneg (incoming fd1)). lia.
    + apply IH; [auto|]. rewrite len_app. lia.
Qed.

Lemma buffered_read_loop_benign (fuel : nat) :
  forall fd got atleast size,
    rbenign fd = true ->
    buffered_read_loop fuel fd got atleast size <> Abort.
Proof.
  induction fuel as [|fuel IH]; intros fd got atleast size Hb;
    [discriminate|].
  simpl. destruct (read fd size) as [[e|d] fd1] eqn:Er.
  - apply read_Err in Er. destruct Er as ((_ & _ & _ & B1 & _) & _ & He).
    rewrite (He Hb). apply IH. auto.
  - apply read_Ok in Er. destruct Er as ((_ & _ & _ & B1 & _) & _).
    destruct (len (got ++ d) >=? atleast); [discriminate|].
    apply IH. auto.
Qed.

Section CutShort.

Context {env : environment}.

Lemma crefill_starves (fuel : nat) (c : channel) (at_least : Z) :
  wf_in c -> rbenign (fd c) = true ->
  len (incoming (fd c)) < at_least ->
  at_least <= BUF_SIZE - (input_len c - input_pos c) ->
  crefill fuel c at_least = Spin.
Proof.
  intros W Hb Hs Hfit. pose proof W as (Hp & Hl & Hlen). unfold crefill.
  rewrite memcpy_Ret; [|lia|rewrite len_sub by lia; lia]. cbn [bind].
  unfold buffered_read_at_least.
  destruct (BUF_SIZE - (input_len c - input_pos c) <? at_least) eqn:E;
    [apply Z.ltb_lt in E; lia|].
  rewrite buffered_read_loop_starves; [reflexivity|assumption|].
  change (len []) with 0. lia.
Qed.

Lemma crefill_benign (fuel : nat) (c : channel) (at_least : Z) :
  wf_in c -> rbenign (fd c) = true ->
  at_least <= BUF_SIZE - (input_len c - input_pos c) ->
  crefill fuel c at_least <> Abort.
Proof.
  intros W Hb Hfit. pose proof W as (Hp & Hl & Hlen). unfold crefill.
  rewrite memcpy_Ret; [|lia|rewrite len_sub by lia; lia]. cbn [bind].
  unfold buffered_read_at_least.
  destruct (BUF_SIZE - (input_len c - input_pos c) <? at_least) eqn:E;
    [apply Z.ltb_lt in E; lia|].
  destruct (buffered_read_loop fuel (fd c) [] at_least
              (BUF_SIZE - (input_len c - input_pos c)))
    as [[data fd']| | |] eqn:El; cbn [bind]; try discriminate.
  - unfold memcpy at 1.
    match goal with
    | |- context [if ?b then _ else _] => destruct b
    end; discriminate.
  - exfalso. revert El. apply buffered_read_loop_benign. assumption.
Qed.

Lemma read_u32_starves (fuel : nat) (c : channel) :
  wf_in c -> rbenign (fd c) = true -> len (unread c) < 4 ->
  read_u32 fuel c = Spin.
Proof.
  intros W Hb Hs. pose proof W as (Hp & Hl & Hlen).
  rewrite len_unread in Hs by assumption.
  pose proof (len_nonneg (incoming (fd c))) as Hi.
  unfold read_u32.
  destruct (input_len c - input_pos c <? 4) eqn:E;
    [|apply Z.ltb_ge in E; lia].
  rewrite crefill_starves; [reflexivity|assumption|assumption|lia|].
  unfold BUF_SIZE. lia.
Qed.

Lemma try_read_u32_starves (fuel : nat) (c : channel) :
  wf_in c -> rbenign (fd c) = true -> 0 < len (unread c) < 4 ->
  try_read_u32 fuel c = Spin.
Proof.
  intros W Hb Hs.
  assert (G : forall t,
             wf_in t -> rbenign (fd t) = true ->
             0 < input_len t - input_pos t -> len (unread t) < 4 ->
             (if input_len t - input_pos t =? 0 then Ret (None, t)
              else
                t0 <- (if input_len t - input_pos t <? 4
                       then crefill fuel t (4 - (input_len t - input_pos t))
                       else Ret t);;
                Ret (Some (u32_of_bytes (sub (input_buffer t0)
                                           (input_pos t0) 4)),
                     set_input_pos t0 (input_pos t0 + 4))) = Spin).
  { intros t Wt Bt Ha Hu. pose proof Wt as (Hp & Hl & Hlen).
    rewrite len_unread in Hu by assumption.
    pose proof (len_nonneg (incoming (fd t))) as Hi.
    destruct (input_len t - input_pos t =? 0) eqn:E0;
      [apply Z.eqb_eq in E0; lia|].
    destruct (input_len t - input_pos t <? 4) eqn:E4;
      [|apply Z.ltb_ge in E4; lia].
    rewrite crefill_starves; [reflexivity|assumption|assumption|lia|].
    unfold BUF_SIZE. lia. }
  pose proof W as (Hp & Hl & Hlen).
  unfold try_read_u32.
  destruct (input_len c - input_pos c =? 0) eqn:E.
  - apply Z.eqb_eq in E.
    destruct (crefill fuel c 0) as [t| | |] eqn:Ec; cbn [bind].
    + pose proof Ec as Ec'.
      apply crefill_sound in Ec; [|assumption].
      destruct Ec as (R & _ & Hp0 & Hal & _).
      pose proof R as (Wt & U & _ & Bt & _).
      apply G; [assumption|auto| |].
      * destruct (Z.eq_dec (input_len t) 0) as [H0|H0]; [|lia].
        exfalso.
        assert (Hnil : incoming (fd c) = []).
        { apply (crefill_none fuel c t 0); auto;
            [lia|unfold BUF_SIZE; lia]. }
        rewrite len_unread, Hnil in Hs by assumption.
        change (len []) with 0 in Hs. lia.
      * simpl in U. rewrite <- U. lia.
    + exfalso. revert Ec. apply crefill_benign; [assumption..|].
      unfold BUF_SIZE. lia.
    + exfalso. revert Ec. apply crefill_nofault. assumption.
    + reflexivity.
  - apply Z.eqb_neq in E. cbn [bind]. apply G; [assumption..|lia|lia].
Qed.

Lemma try_read_u32_benign (fuel : nat) (c : channel) :
  wf_in c -> rbenign (fd c) = true -> try_read_u32 fuel c <> Abort.
Proof.
  intros W Hb.
  assert (G : forall t,
             wf_in t -> rbenign (fd t) = true ->
             (if input_len t - input_pos t =? 0 then Ret (None, t)
              else
                t0 <- (if input_len t - input_pos t <? 4
                       then crefill fuel t (4 - (input_len t - input_pos t))
                       else Ret t);;
                Ret (Some (u32_of_bytes (sub (input_buffer t0)
                                           (input_pos t0) 4)),
                     set_input_pos t0 (input_pos t0 + 4))) <> Abort).
  { intros t Wt Bt. pose proof Wt as (Hp & Hl & Hlen).
    destruct (input_len t - input_pos t =? 0); [discriminate|].
    destruct (input_len t - input_pos t <? 4) eqn:E4; [|discriminate].
    destruct (crefill fuel t (4 - (input_len t - input_pos t))) eqn:Ec;
      cbn [bind]; try discriminate.
    exfalso. revert Ec. apply crefill_benign; [assumption..|].
    unfold BUF_SIZE. lia. }
  pose proof W as (Hp & Hl & Hlen).
  unfold try_read_u32.
  destruct (input_len c - input_pos c =? 0) eqn:E.
  - destruct (crefill fuel c 0) as [t| | |] eqn:Ec; cbn [bind];
      try discriminate.
    + apply crefill_sound in Ec; [|assumption].
      destruct Ec as (R & _). apply G; [apply R|]. apply R. assumption.
    + exfalso. revert Ec. apply crefill_benign; [assumption..|].
      unfold BUF_SIZE. lia.
  - cbn [bind]. apply G; assumption.
Qed.

(** X28. A stream that ends inside the tag or the timestamp of a frame: with
    one to seven bytes unread and then the end of the stream, and no read
    that fails, [channel_read_query] neither returns nor aborts.  Whatever
    the fuel it is still in the loop of the refill, which calls [read]
    again each time it has returned 0. *)
Theorem cut_header_never_returns (fuel : nat) (c : channel) (r : query_t) :
  wf_in c -> scratch_ok c -> rbenign (fd c) = true ->
  0 < len (unread c) < 8 ->
  channel_read_query fuel c r = Spin.
Proof.
  intros W Ok Hb Hs. unfold channel_read_query.
  destruct (Z.lt_ge_cases (len (unread c)) 4) as [Hlt|Hge].
  - rewrite try_read_u32_starves; [reflexivity|assumption..|lia].
  - destruct (try_read_u32 fuel c) as [[o t1]| | |] eqn:E1; cbn [bind];
      [|exfalso; revert E1; apply try_read_u32_benign; assumption
       |exfalso; revert E1; apply try_read_u32_nofault; assumption
       |reflexivity].
    apply try_read_u32_sound in E1; [|assumption].
    destruct E1 as (_ & Ho).
    destruct o as [tag|].
    + destruct Ho as (bs & Lb & _ & R).
      pose proof (rd_step_len _ _ _ R) as Hl.
      destruct R as (W1 & _ & _ & B1 & _).
      rewrite read_u32_starves; [reflexivity|assumption|auto|lia].
    + destruct Ho as (Hp & Hi & _). exfalso.
      rewrite len_unread, Hi in Hge by assumption.
      change (len []) with 0 in Hge. lia.
Qed.

End CutShort.

Section CutData.

Context {env : environment}.

Lemma read_bytes_short (fuel : nat) (c : channel) (pos size : Z) :
  wf_in c -> scratch_ok c -> rbenign (fd c) = true ->
  0 <= pos -> pos + size <= 2 ^ 30 -> len (unread c) < size ->
  (length (rsched (fd c)) + 1 < fuel)%nat -> (22 < fuel)%nat ->
  read_bytes fuel c pos size = Abort.
Proof.
  intros W Ok B Hpos Hmax Hu Hf Hg. unfold read_bytes.
  pose proof (len_nonneg (unread c)) as Hu0.
  rewrite (wrap_int_small (pos + size)) by lia.
  destruct (grow_buf_runs fuel c (pos + size) Ok Hmax Hg) as [c1 Eg].
  rewrite Eg. cbn [bind].
  apply grow_buf_sound in Eg; [|assumption].
  destruct Eg as (K1 & Hneed & _ & Io1).
  pose proof (same_io_rd_step c c1 W Io1) as R1.
  assert (W1 : wf_in c1) by apply R1.
  assert (Ok1 : scratch_ok c1) by apply K1.
  pose proof W1 as (Hp1 & Hl1 & Hb1).
  pose proof Ok1 as (_ & Hmax1 & Hlen1).
  assert (Hu1 : len (unread c1) = len (unread c)).
  { destruct R1 as (_ & U1 & _). rewrite U1. reflexivity. }
  rewrite len_unread in Hu1 by assumption.
  pose proof (len_nonneg (incoming (fd c1))) as Hi.
  assert (Hfd : fd c1 = fd c) by apply Io1.
  unfold BUF_SIZE in *.
  rewrite (wrap_int_small (input_pos c1 + size)) by lia.
  destruct (input_pos c1 + size <=? input_len c1) eqn:E;
    [apply Z.leb_le in E; lia|].
  set (isize := input_len c1 - input_pos c1) in *.
  assert (Hlp : len (sub (input_buffer c1) (input_pos c1) isize) = isize).
  { apply len_sub; lia. }
  rewrite memcpy_Ret by lia. cbn [bind]. chan.
  unfold read_all. rewrite read_all_loop_short; [reflexivity| |lia|].
  - rewrite Hfd. assumption.
  - rewrite Hfd. assumption.
Qed.

(** X29. A stream that ends inside the data of a WRIT query: the words are
    read, the scratch buffer grows, the staged part of the data is copied,
    and the rest is asked of [read_all], which finds the stream at its end.
    Unlike a frame cut anywhere else, this one makes [channel_read_query]
    abort. *)
Theorem cut_writ_data_aborts (fuel : nat) (c : channel) (r : query_t)
    (wt w1 w2 ws data : list byte) :
  query_labels_distinct ->
  wf_in c -> scratch_ok c -> rbenign (fd c) = true ->
  (length (rsched (fd c)) + 1 < fuel)%nat -> (22 < fuel)%nat ->
  len wt = 4 -> len w1 = 4 -> len w2 = 4 -> len ws = 4 ->
  len data < u32_of_bytes ws <= 2 ^ 30 ->
  unread c = bytes_of_u32 (u32 Q_WRIT) ++ wt ++ w1 ++ w2 ++ ws ++ data ->
  channel_read_query fuel c r = Abort.
Proof.
  intros D W Ok B L Hg Lt L1 L2 Ls Hsz U.
  pose proof (len_nonneg data) as Hd0.
  set (n := S (length (rsched (fd c)))).
  assert (Hf : (n <= fuel)%nat) by (unfold n; lia).
  assert (R : ready n c (unread c)).
  { unfold ready, n.
    split; [assumption|]. split; [assumption|]. split; [assumption|].
    split; [reflexivity|lia]. }
  rewrite U in R. unfold query_labels_distinct in D.
  header R Lt Hf c2 R2 S2. reach D 2%nat.
  word R2 L1 Hf c3 R3 S3. word R3 L2 Hf c4 R4 S4.
  word R4 Ls Hf c5 R5 S5.
  rewrite (wrap_int_small (u32_of_bytes ws)) by lia.
  destruct R5 as (W5 & Ok5 & B5 & U5 & L5).
  rewrite read_bytes_short; [reflexivity|assumption..|lia|lia| | |assumption].
  - rewrite U5. lia.
  - unfold n in L5. lia.
Qed.

End CutData.

(** ** The further properties at work on concrete input *)

Lemma decode_word_queries_witness :
  exists c',
    channel_read_query (env := packed_env) 9
      (channel_new (env := packed_env) read_stream) q0
    = Ret (true, c',
           mkQuery 7 (u32 (Q_READ (environment := packed_env)))
             (U_read 1 2 3)) /\
    unread c' = [x09].
Proof.
  destruct (decode_word_queries (env := packed_env) 9
              (channel_new (env := packed_env) read_stream) q0
              (bytes_of_u32 7) (bytes_of_u32 1) (bytes_of_u32 2)
              (bytes_of_u32 3) [x09]) as (H & _).
  - reflexivity.
  - evaluate.
  - evaluate.
  - reflexivity.
  - vm_compute. lia.
  - reflexivity.
  - reflexivity.
  - reflexivity.
  - reflexivity.
  - destruct (H eq_refl) as (c' & E & U & _).
    exists c'. split; [exact E|exact U].
Defined.

Lemma decode_path_queries_witness :
  exists c' p,
    channel_read_query (env := packed_env) 9
      (channel_new (env := packed_env) accs_stream) q0
    = Ret (true, c',
           mkQuery 8 (u32 (Q_ACCS (environment := packed_env))) (U_accs p 4)) /\
    zstr_at c' p (String.list_byte_of_string "/etc") /\ unread c' = [x09].
Proof.
  destruct (decode_path_queries (env := packed_env) 9
              (channel_new (env := packed_env) accs_stream) q0
              (bytes_of_u32 8) (String.list_byte_of_string "/etc")
              (bytes_of_u32 4) (bytes_of_u32 0) (bytes_of_u32 0)
              (bytes_of_u32 0) (bytes_of_u32 0) (bytes_of_u32 0) [x09])
    as (H & _).
  - reflexivity.
  - evaluate.
  - evaluate.
  - reflexivity.
  - vm_compute. lia.
  - repeat constructor; discriminate.
  - vm_compute. discriminate.
  - reflexivity.
  - reflexivity.
  - reflexivity.
  - reflexivity.
  - reflexivity.
  - reflexivity.
  - reflexivity.
  - destruct (H eq_refl) as (c' & p & E & Z & _ & U).
    exists c', p. split; [exact E|]. split; [exact Z|exact U].
Defined.

Lemma decode_writ_query_witness :
  exists c' p,
    channel_read_query (env := packed_env) 23
      (channel_new (env := packed_env) writ_stream) q0
    = Ret (true, c',
           mkQuery 8 (u32 (Q_WRIT (environment := packed_env)))
             (U_writ 1 0 3 p)) /\
    blob_at c' p [x01; x02; x03] /\ unread c' = [x09].
Proof.
  destruct (decode_writ_query (env := packed_env) 23
              (channel_new (env := packed_env) writ_stream) q0
              (bytes_of_u32 8) (bytes_of_u32 1) (bytes_of_u32 0)
              (bytes_of_u32 3) [x01; x02; x03] [x09])
    as (c' & p & E & Hb & _ & _ & U).
  - reflexivity.
  - evaluate.
  - evaluate.
  - reflexivity.
  - vm_compute. lia.
  - lia.
  - reflexivity.
  - reflexivity.
  - reflexivity.
  - reflexivity.
  - reflexivity.
  - vm_compute. discriminate.
  - reflexivity.
  - exists c', p. split; [exact E|]. split; [exact Hb|exact U].
Defined.

Lemma writ_size_top_bit_faults_witness :
  channel_read_query (env := packed_env) 1
    (channel_new (env := packed_env) bad_writ_stream) q0 = Fault.
Proof.
  apply (writ_size_top_bit_faults (env := packed_env) 1
           (channel_new (env := packed_env) bad_writ_stream) q0
           (bytes_of_u32 8) (bytes_of_u32 1) (bytes_of_u32 0)
           [x00; x00; x00; x80] [x01; x02; x03]).
  - reflexivity.
  - evaluate.
  - evaluate.
  - reflexivity.
  - vm_compute. lia.
  - reflexivity.
  - reflexivity.
  - reflexivity.
  - reflexivity.
  - vm_compute. discriminate.
  - reflexivity.
Defined.

Lemma write_buffer_grows_to_fit_witness :
  exists p t',
    channel_write_buffer (env := packed_env) 23
      (channel_new (env := packed_env) closed_stream) 1000 = Ret (p, t') /\
    p = buf_at t' 0 /\ 1000 <= buf_size t' < 2000.
Proof.
  destruct (write_buffer_grows_to_fit (env := packed_env) 23
              (channel_new (env := packed_env) closed_stream) 1000)
    as (_ & Hs & Hr & _).
  - evaluate.
  - destruct Hr as (p & t' & E); [vm_compute; discriminate|lia|].
    exists p, t'. split; [exact E|].
    destruct (Hs p t' E) as (Hp & Hn & _ & _ & _ & [Hm|Hm]).
    + split; [exact Hp|]. split; [exact Hn|].
      rewrite Hm. vm_compute. reflexivity.
    + split; [exact Hp|]. split; [exact Hn|exact Hm].
Defined.

Lemma plain_answer_frames_witness :
  exists t',
    channel_write_answer (env := packed_env) 5 slow_writer done_answer
    = Ret t' /\
    sent t' = bytes_of_u32 (u32 (A_DONE (environment := packed_env))).
Proof.
  destruct (plain_answer_frames (env := packed_env) 5 slow_writer done_answer)
    as (H & _).
  - reflexivity.
  - evaluate.
  - destruct H as (Hs & Hr & _); [left; reflexivity|].
    destruct Hr as [t' E]; [reflexivity|vm_compute; lia|].
    exists t'. split; [exact E|].
    destruct (Hs t' E) as (_ & S & _). rewrite S. reflexivity.
Defined.

Lemma blob_answer_frames_witness :
  channel_write_answer (env := packed_env) 5 slow_writer big_open_answer
  = Fault.
Proof.
  destruct (blob_answer_frames (env := packed_env) 5 slow_writer
              big_open_answer)
    as (_ & H).
  - reflexivity.
  - evaluate.
  - evaluate.
  - destruct (H eq_refl) as (_ & F).
    apply F; [right; vm_compute; reflexivity|reflexivity|vm_compute; lia].
Defined.

Lemma unknown_answer_tag_aborts_witness :
  channel_write_answer (env := packed_env) 5 slow_writer odd_answer = Abort.
Proof.
  destruct (unknown_answer_tag_aborts (env := packed_env) 5 slow_writer
              odd_answer)
    as (_ & H).
  - evaluate.
  - intros x Hx. simpl in Hx.
    repeat (destruct Hx as [<-|Hx]; [vm_compute; discriminate|]).
    destruct Hx.
  - apply H; [reflexivity|vm_compute; lia].
Defined.

Lemma ask_frames_witness :
  exists t',
    channel_write_ask (env := packed_env) 5 slow_writer term_ask = Ret t' /\
    sent t' = bytes_of_u32 (u32 (C_TERM (environment := packed_env)))
              ++ bytes_of_u32 77.
Proof.
  destruct (ask_frames (env := packed_env) 5 slow_writer term_ask) as (H & _).
  - evaluate.
  - destruct (H eq_refl) as (Hs & Hr & _).
    destruct Hr as [t' E]; [reflexivity|vm_compute; lia|].
    exists t'. split; [exact E|].
    destruct (Hs t' E) as (_ & S & _). rewrite S. reflexivity.
Defined.

Lemma write_bytes_staging_witness :
  exists t',
    write_bytes 0 slow_writer [x01; x02; x03] 3 = Ret t' /\
    fd t' = fd slow_writer /\ staged t' = [x01; x02; x03].
Proof.
  destruct (write_bytes_staging 0 slow_writer [x01; x02; x03] 3)
    as (H & _).
  - evaluate.
  - vm_compute. split; discriminate.
  - vm_compute. discriminate.
  - destruct H as (t' & E & F & S & _); [vm_compute; discriminate|].
    exists t'. split; [exact E|]. split; [exact F|]. rewrite S. reflexivity.
Defined.

Lemma flush_twice_is_flush_once_witness :
  channel_flush 0 word_sent = Ret word_sent.
Proof.
  destruct (flush_twice_is_flush_once 0 0 word_sent) as (H & _).
  - evaluate.
  - apply H. reflexivity.
Defined.

Lemma write_all_delivers_all_witness :
  write_all 3 failing_writer [x01] 1 = Abort.
Proof.
  destruct (write_all_delivers_all 3 failing_writer [x01] 1) as (_ & _ & H).
  - vm_compute. split; discriminate.
  - apply (H 1%nat Wfail []); [lia|reflexivity|left; reflexivity|lia].
Defined.

Lemma read_all_exact_or_abort_witness :
  read_all 5 short_stream 12 = Abort.
Proof.
  destruct (read_all_exact_or_abort 5 short_stream 12) as (_ & _ & H & _).
  apply H; [reflexivity|vm_compute; reflexivity|vm_compute; lia].
Defined.


Lemma refill_keeps_unread_witness :
  unread refilled = read_frame ++ [x09] /\ input_pos refilled = 0 /\
  4 <= len (pending refilled).
Proof.
  destruct (refill_keeps_unread 5 (channel_new (env := packed_env) read_stream)
              4) as (H & _).
  - evaluate.
  - destruct (H refilled) as (_ & Hp & U & _ & (Hl & _) & _).
    + vm_compute. reflexivity.
    + split; [rewrite U; reflexivity|]. split; [exact Hp|exact Hl].
Defined.

Lemma pending_query_from_poll_witness :
  channel_has_pending_query 3 (channel_new (env := packed_env) closed_stream)
    [Pintr; Ptimeout; Pready] 100
  = Ret (false, [Pready]).
Proof.
  destruct (pending_query_from_poll 3
              (channel_new (env := packed_env) closed_stream)
              [Pintr; Ptimeout; Pready] 100) as (_ & H).
  apply (H eq_refl 1%nat Ptimeout [Pready]);
    [reflexivity|discriminate|lia].
Defined.

Lemma pending_then_decode_witness :
  channel_has_pending_query 5 (channel_new (env := packed_env) closed_stream)
    [Pready] 0
  = Ret (true, []) /\
  exists c',
    channel_read_query (env := packed_env) 5
      (channel_new (env := packed_env) closed_stream) q0
    = Ret (false, c', q0).
Proof.
  destruct (pending_then_decode (env := packed_env) 5
              (channel_new (env := packed_env) closed_stream) q0 [Pready] 0)
    as (_ & H).
  - evaluate.
  - evaluate.
  - apply H; [reflexivity|reflexivity|vm_compute; lia|reflexivity].
Defined.

Lemma next_decode_reuses_scratch_witness :
  exists p,
    first_field (q_u (snd stat_first)) = Some p /\
    first_field (q_u (snd stat_second)) = Some p.
Proof.
  destruct (next_decode_reuses_scratch (env := packed_env) 9 9
              (channel_new (env := packed_env) stat_twice_stream)
              (snd (fst stat_first)) (snd (fst stat_second))
              q0 (snd stat_first) (snd stat_second)
              (mkPtr 0 0) (mkPtr 0 0)) as (_ & _ & H & _).
  - evaluate.
  - evaluate.
  - vm_compute. reflexivity.
  - vm_compute. reflexivity.
  - vm_compute. reflexivity.
  - vm_compute. reflexivity.
  - exists (mkPtr 0 0). split; vm_compute; reflexivity.
Defined.

Lemma packed_tag_on_wire_witness :
  u32_of_bytes [x4f; x50; x45; x4e] = Q_OPEN (environment := packed_env) /\
  bytes_of_u32 (Q_OPEN (environment := packed_env)) = [x4f; x50; x45; x4e].
Proof.
  destruct (packed_tag_on_wire 0 slow_writer x4f x50 x45 x4e)
    as (_ & H & _).
  - vm_compute. reflexivity.
  - split; [exact H|]. vm_compute. reflexivity.
Defined.

Lemma words_round_trip_witness :
  exists c',
    read_u32 5 (reader_of word_sent) = Ret (16909060, c') /\ unread c' = [].
Proof.
  destruct (words_round_trip 5 slow_writer word_sent 16909060) as (H & _).
  - evaluate.
  - destruct H as (w & Lw & Hd & Hr); [vm_compute; reflexivity|].
    apply (Hr 5%nat (reader_of word_sent) []).
    + evaluate.
    + evaluate.
    + reflexivity.
    + vm_compute. lia.
    + rewrite app_nil_r. exact Hd.
Defined.

Lemma bytes_round_trip_witness :
  exists c',
    read_bytes (env := packed_env) 23 (reader_of bytes_sent) 0 3 = Ret c' /\
    sub (buf c') 0 3 = [x0a; x0b; x0c] /\ unread c' = [].
Proof.
  destruct (bytes_round_trip (env := packed_env) 5 slow_writer bytes_sent
              [x0a; x0b; x0c] 3)
    as (_ & H).
  - evaluate.
  - vm_compute. split; discriminate.
  - vm_compute. discriminate.
  - vm_compute. reflexivity.
  - apply (H 23%nat (reader_of bytes_sent) 0 []).
    + evaluate.
    + evaluate.
    + reflexivity.
    + vm_compute. lia.
    + lia.
    + vm_compute. split; discriminate.
    + vm_compute. discriminate.
    + vm_compute. reflexivity.
Defined.

Lemma codec_sides_independent_witness :
  same_input slow_writer
    (returned slow_writer
       (channel_write_answer (env := packed_env) 5 slow_writer done_answer)).
Proof.
  destruct (codec_sides_independent (env := packed_env) 5 slow_writer)
    as (_ & H & _).
  - evaluate.
  - evaluate.
  - apply (H done_answer). vm_compute. reflexivity.
Defined.

Lemma decoder_stores_in_bounds_witness :
  exists tb mb w1 w2 ws rest,
    unread (channel_new (env := packed_env) bad_writ_stream)
      = tb ++ mb ++ w1 ++ w2 ++ ws ++ rest /\
    len tb = 4 /\ len mb = 4 /\ len w1 = 4 /\ len w2 = 4 /\ len ws = 4 /\
    u32_of_bytes tb = u32 (Q_WRIT (environment := packed_env)) /\
    2 ^ 31 <= u32_of_bytes ws.
Proof.
  apply (decoder_stores_in_bounds (env := packed_env) 1
           (channel_new (env := packed_env) bad_writ_stream) q0).
  - evaluate.
  - evaluate.
  - vm_compute. reflexivity.
Defined.

Lemma encoder_stores_in_bounds_witness :
  (a_tag big_open_answer = A_READ (environment := packed_env) /\
   (read_size big_open_answer < 0 \/
    buf_size slow_writer < read_size big_open_answer)) \/
  (a_tag big_open_answer = A_OPEN (environment := packed_env) /\
   (open_size big_open_answer < 0 \/
    buf_size slow_writer < open_size big_open_answer)).
Proof.
  destruct (encoder_stores_in_bounds (env := packed_env) 5 slow_writer)
    as (H & _).
  - evaluate.
  - evaluate.
  - apply H. vm_compute. reflexivity.
Defined.

Lemma handshake_on_new_channel_witness :
  exists b c',
    channel_handshake 5 (channel_new (env := packed_env) client_stream)
    = Ret (b, c') /\
    delivered (fd c') = String.list_byte_of_string "TEXPRESSOS01" /\
    wf_in c' /\ len (unread c') = 1.
Proof.
  destruct (handshake_on_new_channel (env := packed_env) 5 client_stream)
    as (b & c' & answer & rest & E & Hi & Hl & _ & Hd & W & _ & _ & U & _).
  - reflexivity.
  - reflexivity.
  - vm_compute. discriminate.
  - vm_compute. lia.
  - vm_compute. lia.
  - exists b, c'. split; [exact E|]. split; [exact Hd|].
    split; [exact W|]. rewrite U.
    assert (Hn : len (incoming client_stream) = 13) by reflexivity.
    rewrite Hi, len_app in Hn. lia.
Defined.

Lemma staged_query_needs_no_read_witness :
  exists c',
    channel_read_query (env := packed_env) 0 staged_channel q0
    = Ret (true, c',
           mkQuery 7 (u32 (Q_READ (environment := packed_env)))
             (U_read 1 2 3)) /\
    fd c' = fd staged_channel /\ pending c' = [x09].
Proof.
  destruct (staged_query_needs_no_read (env := packed_env) 0 staged_channel
              q0 (bytes_of_u32 7) (bytes_of_u32 1) (bytes_of_u32 2)
              (bytes_of_u32 3) [x09]) as (H & _).
  - reflexivity.
  - evaluate.
  - reflexivity.
  - reflexivity.
  - reflexivity.
  - reflexivity.
  - apply H. reflexivity.
Defined.

Lemma write_buffer_moves_scratch_witness :
  (buf_blk (channel_new (env := packed_env) closed_stream)
   < buf_blk (snd grown))%nat /\
  blk (fst grown) = buf_blk (snd grown).
Proof.
  destruct (write_buffer_moves_scratch (env := packed_env) 23
              (channel_new (env := packed_env) closed_stream) (snd grown)
              1000 (fst grown)) as (H1 & H2 & _).
  - evaluate.
  - vm_compute. reflexivity.
  - vm_compute. reflexivity.
  - split; [exact H1|exact H2].
Defined.

Lemma cut_header_never_returns_witness :
  channel_read_query (env := packed_env) 50
    (channel_new (env := packed_env) short_stream) q0 = Spin.
Proof.
  apply (cut_header_never_returns (env := packed_env) 50
           (channel_new (env := packed_env) short_stream) q0).
  - evaluate.
  - evaluate.
  - reflexivity.
  - vm_compute. split; reflexivity.
Defined.

Lemma cut_writ_data_aborts_witness :
  channel_read_query (env := packed_env) 23
    (channel_new (env := packed_env) cut_writ_stream) q0 = Abort.
Proof.
  apply (cut_writ_data_aborts (env := packed_env) 23
           (channel_new (env := packed_env) cut_writ_stream) q0
           (bytes_of_u32 8) (bytes_of_u32 1) (bytes_of_u32 0)
           (bytes_of_u32 5) [x01; x02]).
  - reflexivity.
  - evaluate.
  - evaluate.
  - reflexivity.
  - vm_compute. lia.
  - lia.
  - reflexivity.
  - reflexivity.
  - reflexivity.
  - reflexivity.
  - vm_compute. split; [reflexivity|discriminate].
  - reflexivity.
Defined.

(** * Properties of the specification: the scratch buffer *)

Section ScratchCapacity.

Context {env : environment}.

(** A word with its top bit set is a negative [int]. *)
Lemma wrap_int_top_bit (z : Z) :
  2 ^ 31 <= z < 2 ^ 32 -> wrap_int z = z - 2 ^ 32.
Proof.
  intros Hr. unfold wrap_int.
  replace (z + 2 ^ 31) with (z - 2 ^ 31 + 1 * 2 ^ 32) by lia.
  rewrite Z.mod_add by lia. rewrite Z.mod_small by lia. lia.
Qed.

(** A negative size passes both tests of [read_bytes]: the growth loop is
    not entered, the staged bytes seem to suffice, and [memcpy] gets the
    size as its length. *)
Lemma read_bytes_negative_size (fuel : nat) (c : channel) (size : Z) :
  wf_in c -> scratch_ok c -> - 2 ^ 31 <= size < 0 ->
  read_bytes fuel c 0 size = Fault.
Proof.
  intros (Hp & Hl & Hb) Ok Hr.
  pose proof (scratch_ok_pos c Ok) as Hpos. unfold BUF_SIZE in *.
  unfold read_bytes.
  rewrite (wrap_int_small (0 + size)) by lia.
  rewrite grow_buf_enough by lia. cbn [bind].
  rewrite (wrap_int_small (input_pos c + size)) by lia.
  destruct (input_pos c + size <=? input_len c) eqn:E;
    [|apply Z.leb_gt in E; lia].
  destruct (size <? 0) eqn:En; [reflexivity|].
  apply Z.ltb_ge in En. lia.
Qed.

(** A decode on a channel in order makes a store outside a block only after
    it has read the tag WRIT and a size word of 2^31 or more. *)
Lemma channel_read_query_fault (fuel : nat) (c : channel) (r : query_t) :
  wf_in c -> scratch_ok c ->
  channel_read_query fuel c r = Fault ->
  exists tb mb w1 w2 ws rest,
    unread c = tb ++ mb ++ w1 ++ w2 ++ ws ++ rest /\
    len tb = 4 /\ len mb = 4 /\ len w1 = 4 /\ len w2 = 4 /\ len ws = 4 /\
    u32_of_bytes tb = u32 Q_WRIT /\ 2 ^ 31 <= u32_of_bytes ws.
Proof.
  intros W Ok H. unfold channel_read_query in H.
  destruct (try_read_u32 fuel c) as [[o t1]| | |] eqn:E1; cbn [bind] in H;
    try discriminate.
  - apply try_read_u32_sound in E1; [|assumption].
    destruct E1 as (S1 & Ho).
    pose proof (same_scratch_ok c t1 Ok S1) as Ok1.
    destruct o as [tag|]; [|discriminate].
    destruct Ho as (tb & Ltb & Htag & R1).
    assert (W1 : wf_in t1) by apply R1.
    destruct (read_u32 fuel t1) as [[time t2]| | |] eqn:E2; cbn [bind] in H;
      try discriminate.
    + apply read_u32_step in E2; auto.
      destruct E2 as (mb & Lmb & _ & R2 & S2 & W2 & Ok2).
      destruct (read_query_fields fuel t2 tag) as [[u t3]| | |] eqn:E3;
        cbn [bind] in H; try discriminate.
      apply read_query_fields_fault in E3; auto.
      destruct E3 as (Ht & w1 & w2 & ws & rest & L1 & L2 & L3 & U & Hs).
      exists tb, mb, w1, w2, ws, rest.
      destruct R1 as (_ & U1 & _). destruct R2 as (_ & U2 & _).
      split; [rewrite U1, U2, U; reflexivity|].
      repeat (split; [assumption|]). split; [congruence|assumption].
    + exfalso. revert E2. apply read_u32_nofault; assumption.
  - exfalso. revert E1. apply try_read_u32_nofault; assumption.
Qed.

(** Decodes in a row make a store outside a block only in a decode that
    does so by itself, on the channel the decodes before it have left. *)
Lemma read_queries_fault (fuel : nat) (n : nat) :
  forall c r,
    wf_in c -> scratch_ok c ->
    read_queries fuel n c r = Fault ->
    exists k t q,
      (k < n)%nat /\ read_queries fuel k c r = Ret (t, q) /\
      wf_in t /\ scratch_ok t /\ buf_size c <= buf_size t /\
      channel_read_query fuel t q = Fault.
Proof.
  induction n as [|n IH]; intros c r W Ok H; simpl in H; [discriminate|].
  destruct (channel_read_query fuel c r) as [[[b t1] q1]| | |] eqn:E;
    cbn [bind] in H; try discriminate.
  - pose proof E as E'. apply channel_read_query_sound in E'; auto.
    destruct E' as (W1 & Ok1 & L1 & _).
    destruct (IH t1 q1 W1 Ok1 H) as (k & t & q & Hk & Hr & Wt & Okt & Lt & Hf).
    exists (S k), t, q. split; [lia|].
    split; [simpl; rewrite E; exact Hr|].
    split; [assumption|]. split; [assumption|]. split; [lia|assumption].
  - exists O, c, r. split; [lia|]. split; [reflexivity|].
    split; [assumption|]. split; [assumption|]. split; [lia|assumption].
Qed.

(** The decode of an OPEN frame, with the places of path and mode in the
    scratch buffer: the path at its start, the mode behind the NUL of the
    path. *)
Lemma channel_read_query_open_at (fuel : nat) (c : channel) (r : query_t)
    (wt wf path mode rest : list byte) :
  wf_in c -> scratch_ok c -> rbenign (fd c) = true ->
  unread c = bytes_of_u32 (u32 Q_OPEN) ++ wt ++ wf
             ++ path ++ x00 :: mode ++ x00 :: rest ->
  len wt = 4 -> len wf = 4 -> no_nul path -> no_nul mode ->
  len path + len mode + 2 <= 2 ^ 30 ->
  (length (rsched (fd c)) + length path + length mode + 2 <= fuel)%nat ->
  exists c' p m,
    channel_read_query fuel c r
      = Ret (true, c',
             mkQuery (u32_of_bytes wt) (u32 Q_OPEN)
               (U_open (u32_of_bytes wf) p m)) /\
    zstr_at c' p path /\ zstr_at c' m mode /\
    off p = 0 /\ off m = len path + 1 /\ unread c' = rest.
Proof.
  intros W Ok Hb Hu Lt Lf Np Nm Hmax Hf.
  pose proof (len_nonneg path) as Hlp. pose proof (len_nonneg mode) as Hlm.
  unfold channel_read_query.
  destruct (try_read_u32_next fuel c _ _ W Ok Hb Hu eq_refl)
    as (c1 & E1 & W1 & Ok1 & B1 & U1 & L1 & _); [lia|].
  rewrite E1. cbn [bind].
  rewrite (u32_roundtrip _ (u32_range Q_OPEN)).
  destruct (read_u32_next fuel c1 _ _ W1 Ok1 B1 U1 Lt)
    as (c2 & E2 & W2 & Ok2 & B2 & U2 & L2 & _); [lia|].
  rewrite E2. cbn [bind].
  unfold read_query_fields. rewrite Z.eqb_refl.
  destruct (read_u32_next fuel c2 _ _ W2 Ok2 B2 U2 Lf)
    as (c3 & E3 & W3 & Ok3 & B3 & U3 & L3 & _); [lia|].
  rewrite E3. cbn [bind].
  pose proof (scratch_ok_pos c3 Ok3) as Hp3.
  destruct (read_zstr_next fuel c3 0 _ _ W3 Ok3 B3 ltac:(lia) U3 Np)
    as (c4 & E4 & W4 & Ok4 & B4 & U4 & L4 & K4 & Hle4 & Hs4); [lia|lia|].
  rewrite E4. cbn [bind].
  destruct (read_zstr_next fuel c4 (0 + len path + 1) _ _ W4 Ok4 B4
              ltac:(lia) U4 Nm)
    as (c5 & E5 & W5 & Ok5 & B5 & U5 & L5 & K5 & Hle5 & Hs5); [lia|lia|].
  rewrite E5. cbn [bind].
  exists c5, (buf_at c5 0), (buf_at c5 (0 + len path + 1)).
  split; [reflexivity|].
  split; [|split; [|split; [reflexivity|split; [cbn [buf_at off]; lia|
                                                 assumption]]]].
  - unfold zstr_at, buf_at. cbn [blk off].
    split; [reflexivity|]. split; [lia|]. split; [lia|].
    split; [|assumption].
    destruct K5 as (_ & _ & Hk & _).
    rewrite (sub_eq_inside _ _ (0 + len path + 1) 0 (len path + 1) Hk)
      by lia.
    exact Hs4.
  - unfold zstr_at, buf_at. cbn [blk off].
    split; [reflexivity|]. split; [lia|]. split; [lia|].
    split; assumption.
Qed.

(** C5 (what the code does).  The scratch buffer of a channel in order,
    under one decode and under decodes in a row.

    Growth is carried out: [resize_buf] on a capacity below 2^30 returns,
    with twice the capacity and all the old bytes where they were.  An OPEN
    frame with any path and mode (together at most 2^30 bytes) and a WRIT
    frame with any payload (at most 2^30 bytes) are decoded whatever the
    capacity was before: [channel_read_query] returns true, the capacity
    afterwards reaches to the last byte of every field stored, and path and
    mode both lie in the final block as they came over the wire, the path
    also when the mode has made the buffer grow.

    Whenever a decode returns, the capacity is 256 times a power of two and
    has not shrunk, and every string or blob of the message lies inside the
    buffer where its pointer says; the same holds after any number of
    decodes.

    The capacity fails to hold what is stored in one case: a WRIT frame
    whose size word is 2^31 or more.  The size is negative as an [int], the
    growth loop of [read_bytes] is not entered, the staged bytes seem to
    suffice, and [memcpy] is called with that size as its length, which
    reaches beyond the scratch block.  A decode, and decodes in a row, make
    a store outside the buffer for such a frame and for no other input. *)
Theorem scratch_capacity_and_overrun (fuel : nat) (c : channel)
    (r : query_t) :
  wf_in c -> scratch_ok c ->
  (* growth steps *)
  (forall t,
      scratch_ok t ->
      (buf_size t < 2 ^ 30 -> exists t', resize_buf t = Ret t') /\
      (forall t',
          resize_buf t = Ret t' ->
          buf_size t' = 2 * buf_size t /\
          sub (buf t') 0 (buf_size t) = buf t /\ scratch_ok t')) /\
  (* an OPEN frame, whatever the lengths of path and mode *)
  (forall wt wf path mode rest,
      rbenign (fd c) = true ->
      unread c = bytes_of_u32 (u32 Q_OPEN) ++ wt ++ wf
                 ++ path ++ x00 :: mode ++ x00 :: rest ->
      len wt = 4 -> len wf = 4 -> no_nul path -> no_nul mode ->
      len path + len mode + 2 <= 2 ^ 30 ->
      (length (rsched (fd c)) + length path + length mode + 2 <= fuel)%nat ->
      exists c' p m,
        channel_read_query fuel c r
          = Ret (true, c',
                 mkQuery (u32_of_bytes wt) (u32 Q_OPEN)
                   (U_open (u32_of_bytes wf) p m)) /\
        zstr_at c' p path /\ zstr_at c' m mode /\
        off p = 0 /\ off m = len path + 1 /\
        len path + len mode + 2 <= buf_size c' /\ unread c' = rest) /\
  (* a WRIT frame, whatever the length of the payload *)
  (forall wt w1 w2 ws data rest,
      query_labels_distinct -> rbenign (fd c) = true ->
      (length (rsched (fd c)) < fuel)%nat -> (22 < fuel)%nat ->
      len wt = 4 -> len w1 = 4 -> len w2 = 4 -> len ws = 4 ->
      u32_of_bytes ws = len data -> len data <= 2 ^ 30 ->
      unread c = bytes_of_u32 (u32 Q_WRIT) ++ wt ++ w1 ++ w2 ++ ws
                 ++ data ++ rest ->
      exists c' p,
        channel_read_query fuel c r
          = Ret (true, c',
                 mkQuery (u32_of_bytes wt) (u32 Q_WRIT)
                   (U_writ (u32_of_bytes w1) (u32_of_bytes w2) (len data)
                      p)) /\
        blob_at c' p data /\ off p = 0 /\ len data <= buf_size c' /\
        unread c' = rest) /\
  (* a decode that returns *)
  (forall b c' r',
      channel_read_query fuel c r = Ret (b, c', r') ->
      (exists k : nat, buf_size c' = 256 * 2 ^ Z.of_nat k) /\
      len (buf c') = buf_size c' /\ buf_size c <= buf_size c' /\
      wf_in c' /\ scratch_ok c' /\
      (b = true ->
       exists hdr body,
         len hdr = 8 /\ rd_step c c' (hdr ++ body) /\
         scratch_fields c' (q_u r') body)) /\
  (* decodes in a row that return *)
  (forall n t q,
      read_queries fuel n c r = Ret (t, q) ->
      wf_in t /\ scratch_ok t /\ buf_size c <= buf_size t) /\
  (* the size word with its top bit set *)
  (forall wt w1 w2 ws rest,
      query_labels_distinct -> rbenign (fd c) = true ->
      (length (rsched (fd c)) < fuel)%nat ->
      len wt = 4 -> len w1 = 4 -> len w2 = 4 -> len ws = 4 ->
      2 ^ 31 <= u32_of_bytes ws ->
      unread c = bytes_of_u32 (u32 Q_WRIT) ++ wt ++ w1 ++ w2 ++ ws ++ rest ->
      channel_read_query fuel c r = Fault) /\
  (* and nothing else *)
  (channel_read_query fuel c r = Fault ->
   exists tb mb w1 w2 ws rest,
     unread c = tb ++ mb ++ w1 ++ w2 ++ ws ++ rest /\
     len tb = 4 /\ len mb = 4 /\ len w1 = 4 /\ len w2 = 4 /\ len ws = 4 /\
     u32_of_bytes tb = u32 Q_WRIT /\ 2 ^ 31 <= u32_of_bytes ws) /\
  (forall n,
      read_queries fuel n c r = Fault ->
      exists k t q tb mb w1 w2 ws rest,
        (k < n)%nat /\ read_queries fuel k c r = Ret (t, q) /\
        channel_read_query fuel t q = Fault /\
        unread t = tb ++ mb ++ w1 ++ w2 ++ ws ++ rest /\
        len tb = 4 /\ len mb = 4 /\ len w1 = 4 /\ len w2 = 4 /\ len ws = 4 /\
        u32_of_bytes tb = u32 Q_WRIT /\ 2 ^ 31 <= u32_of_bytes ws).
Proof.
  intros W Ok.
  split; [|split; [|split; [|split; [|split; [|split; [|split]]]]]].
  - intros t Okt. split.
    + apply resize_buf_runs. assumption.
    + intros t' Hr. apply resize_buf_sound in Hr; auto.
      destruct Hr as (K & Hs & Hb & _). split; [assumption|].
      split; [assumption|apply K].
  - intros wt wf path mode rest B U Lt Lf Np Nm Hmax Hf.
    destruct (channel_read_query_open_at fuel c r wt wf path mode rest)
      as (c' & p & m & E & Zp & Zm & Op & Om & Hu); auto.
    exists c', p, m. split; [exact E|].
    split; [assumption|]. split; [assumption|]. split; [assumption|].
    split; [assumption|]. split; [|assumption].
    destruct Zm as (_ & _ & Hle & _). lia.
  - intros wt w1 w2 ws data rest D B L Hg Lt L1 L2 Ls Hsz Hmax U.
    pose proof (le_n fuel) as Hf.
    assert (R : ready fuel c (unread c)) by (unfold ready; auto).
    rewrite U in R. unfold query_labels_distinct in D.
    pose proof (len_nonneg data) as Hd0.
    header R Lt Hf c2 R2 S2. reach D 2%nat.
    word R2 L1 Hf c3 R3 S3. word R3 L2 Hf c4 R4 S4.
    word R4 Ls Hf c5 R5 S5.
    rewrite Hsz, (wrap_int_small (len data)) by lia.
    pose proof (scratch_ok_pos c5 (proj1 (proj2 R5))).
    destruct (ready_read_bytes fuel fuel c5 0 (len data) data rest R5)
      as (c6 & E6 & R6 & K6 & Hle6 & Hs6); auto; try lia.
    rewrite E6. cbn [bind].
    exists c6, (buf_at c6 0). split; [reflexivity|].
    split; [|split; [reflexivity|split; [lia|apply R6]]].
    unfold blob_at, buf_at. cbn [blk off].
    split; [reflexivity|]. split; [lia|]. split; [lia|assumption].
  - intros b c' r' H. apply channel_read_query_sound in H; auto.
    destruct H as (W' & Ok' & L & _ & Ht).
    split; [apply Ok'|]. split; [apply Ok'|]. split; [assumption|].
    split; [assumption|]. split; [assumption|].
    intros Hb.
    destruct (Ht Hb) as (tb & mb & body & L1 & L2 & _ & _ & R & F & _).
    exists (tb ++ mb), body. split; [rewrite len_app; lia|].
    rewrite <- app_assoc. auto.
  - intros n t q. apply read_queries_inv; assumption.
  - intros wt w1 w2 ws rest D B L Lt L1 L2 Ls Hsz U.
    pose proof (le_n fuel) as Hf.
    assert (R : ready fuel c (unread c)) by (unfold ready; auto).
    rewrite U in R. unfold query_labels_distinct in D.
    header R Lt Hf c2 R2 S2. reach D 2%nat.
    word R2 L1 Hf c3 R3 S3. word R3 L2 Hf c4 R4 S4.
    word R4 Ls Hf c5 R5 S5.
    pose proof (u32_of_bytes_range ws) as Hr.
    rewrite read_bytes_negative_size; [reflexivity|apply R5|apply R5|].
    rewrite wrap_int_top_bit by lia. lia.
  - apply channel_read_query_fault; assumption.
  - intros n H. apply read_queries_fault in H; auto.
    destruct H as (k & t & q & Hk & Hr & Wt & Okt & _ & Hf).
    pose proof Hf as Hf'. apply channel_read_query_fault in Hf'; auto.
    destruct Hf' as (tb & mb & w1 & w2 & ws & rest & H).
    exists k, t, q, tb, mb, w1, w2, ws, rest.
    split; [assumption|]. split; [assumption|]. split; assumption.
Qed.

End ScratchCapacity.

(** ** The capacity of the scratch buffer on concrete input *)

Lemma scratch_capacity_and_overrun_witness :
  channel_read_query (env := packed_env) 1
    (channel_new (env := packed_env) bad_writ_stream) q0 = Fault /\
  exists c' p m,
    channel_read_query (env := packed_env) 400
      (channel_new (env := packed_env) long_open_stream) q0
    = Ret (true, c',
           mkQuery (u32_of_bytes (bytes_of_u32 7))
             (u32 (Q_OPEN (environment := packed_env)))
             (U_open (u32_of_bytes (bytes_of_u32 3)) p m)) /\
    zstr_at c' p long_path /\ zstr_at c' m [x72] /\ 256 < buf_size c'.
Proof.
  split.
  - destruct (scratch_capacity_and_overrun (env := packed_env) 1
                (channel_new (env := packed_env) bad_writ_stream) q0)
      as (_ & _ & _ & _ & _ & H & _).
    + evaluate.
    + evaluate.
    + apply (H (bytes_of_u32 8) (bytes_of_u32 1) (bytes_of_u32 0)
               [x00; x00; x00; x80] [x01; x02; x03]).
      * reflexivity.
      * reflexivity.
      * vm_compute. lia.
      * reflexivity.
      * reflexivity.
      * reflexivity.
      * reflexivity.
      * vm_compute. discriminate.
      * reflexivity.
  - destruct (scratch_capacity_and_overrun (env := packed_env) 400
                (channel_new (env := packed_env) long_open_stream) q0)
      as (_ & H & _).
    + evaluate.
    + evaluate.
    + destruct (H (bytes_of_u32 7) (bytes_of_u32 3) long_path [x72] [])
        as (c' & p & m & E & Zp & Zm & _ & _ & Hle & _).
      * reflexivity.
      * reflexivity.
      * reflexivity.
      * reflexivity.
      * apply Forall_forall. intros x Hx. apply repeat_spec in Hx.
        subst x. discriminate.
      * repeat constructor. discriminate.
      * vm_compute. discriminate.
      * vm_compute. lia.
      * exists c', p, m. split; [exact E|]. split; [exact Zp|].
        split; [exact Zm|].
        assert (Hl : len long_path = 300) by reflexivity.
        rewrite Hl in Hle. change (len [x72]) with 1 in Hle. lia.
Defined.
